(** * Formant extraction by linear prediction: a shallow embedding

    This development embeds [acousticsim/representations/formants.py]
    and settles the properties stated about it.

    Conventions of the embedding.
    - The code is read with Python 3 semantics ([/] is true division, so the
      literal [-1/2] is the float [-0.5]).
    - float64 values are idealised as the real numbers of the Standard
      Library, complex128 values as pairs of reals.  The only non-finite
      value the code tests for is the reciprocal of a zero pivot, which the
      scalar types answer exactly; any other division by zero gives [inf]
      or [nan] in numpy and has no counterpart among the reals, so results
      are about runs without one.  The solver itself is embedded for an
      arbitrary scalar type and its properties do not depend on this.
    - numpy arrays live in a store of arrays; a location is an index into
      the store.  [np.empty] allocates a cell whose contents are arbitrary.
    - Exceptions are values of [exn]; a computation returns a [result]
      together with the store it leaves behind. *)

From Stdlib Require Import String.
From Stdlib Require Import Reals Lra Lia ZArith Bool Arith List.
From Stdlib Require Import Permutation Sorted.
Import ListNotations.

Set Implicit Arguments.

(* ================================================================== *)
(** * Part I: the embedding *)
(* ================================================================== *)

(** ** Exceptions and results *)

Inductive exn : Type :=
| ValueError (msg : string)
| IndexError
| ZeroDivisionError
| StopIteration.

Inductive result (A : Type) : Type :=
| Ok (a : A)
| Raise (e : exn).

Arguments Ok {A} a.
Arguments Raise {A} e.

(** ** Complex numbers (complex128, idealised) *)

Definition C : Type := (R * R)%type.

Definition Cre (z : C) : R := fst z.
Definition Cim (z : C) : R := snd z.
Definition RtoC (x : R) : C := (x, 0%R).
Definition Czero : C := (0%R, 0%R).
Definition Cone : C := (1%R, 0%R).
Definition Cadd (z w : C) : C := ((fst z + fst w)%R, (snd z + snd w)%R).
Definition Csub (z w : C) : C := ((fst z - fst w)%R, (snd z - snd w)%R).
Definition Cneg (z : C) : C := ((- fst z)%R, (- snd z)%R).
Definition Cmul (z w : C) : C :=
  ((fst z * fst w - snd z * snd w)%R, (fst z * snd w + snd z * fst w)%R).
Definition Cconj (z : C) : C := (fst z, (- snd z)%R).
Definition Cnorm2 (z : C) : R := (fst z * fst z + snd z * snd z)%R.
Definition Cdiv (z w : C) : C :=
  (((fst z * fst w + snd z * snd w) / Cnorm2 w)%R,
   ((snd z * fst w - fst z * snd w) / Cnorm2 w)%R).
(** [np.abs] on a complex value. *)
Definition Cabs (z : C) : R := sqrt (Cnorm2 z).
(** [exp(i*theta)]. *)
Definition Cexpi (theta : R) : C := (cos theta, sin theta).
(** Division of a complex value by a real one. *)
Definition Cscal_div (z : C) (x : R) : C := ((fst z / x)%R, (snd z / x)%R).

Definition Req_bool (x y : R) : bool :=
  if Req_dec_T x y then true else false.
Definition Rlt_bool (x y : R) : bool :=
  if Rlt_dec x y then true else false.
Definition Rle_bool (x y : R) : bool :=
  if Rle_dec x y then true else false.

(** ** Scalars: the element types (dtypes) the solver is run at *)

Class Scalar (T : Type) : Type := {
  s_zero : T;
  s_one : T;
  s_add : T -> T -> T;
  s_sub : T -> T -> T;
  s_mul : T -> T -> T;
  s_div : T -> T -> T;
  s_neg : T -> T;
  (** [np.conj] *)
  s_conj : T -> T;
  (** [np.isreal] *)
  s_isreal : T -> bool;
  (** [np.isfinite(1/z)] *)
  s_recip_finite : T -> bool;
  (** In exact arithmetic the reciprocal is finite exactly when [z] is
      not zero. *)
  s_recip_finite_spec : forall z, s_recip_finite z = false <-> z = s_zero
}.

Lemma Req_bool_true (x y : R) : Req_bool x y = true <-> x = y.
Proof.
  unfold Req_bool. destruct (Req_dec_T x y); split; congruence.
Qed.

Lemma recip_finite_R (x : R) : negb (Req_bool x 0) = false <-> x = 0%R.
Proof.
  rewrite negb_false_iff. apply Req_bool_true.
Qed.

Lemma recip_finite_C (z : C) :
  negb (Req_bool (Cre z) 0 && Req_bool (Cim z) 0) = false <-> z = Czero.
Proof.
  rewrite negb_false_iff, andb_true_iff, !Req_bool_true.
  destruct z as [x y]; unfold Czero, Cre, Cim; simpl.
  split; [intros [-> ->]; reflexivity | intros E; inversion E; auto].
Qed.

#[export] Instance Scalar_R : Scalar R := {
  s_zero := 0%R;
  s_one := 1%R;
  s_add := Rplus;
  s_sub := Rminus;
  s_mul := Rmult;
  s_div := Rdiv;
  s_neg := Ropp;
  s_conj := fun x => x;
  s_isreal := fun _ => true;
  s_recip_finite := fun x => negb (Req_bool x 0);
  s_recip_finite_spec := recip_finite_R
}.

#[export] Instance Scalar_C : Scalar C := {
  s_zero := Czero;
  s_one := Cone;
  s_add := Cadd;
  s_sub := Csub;
  s_mul := Cmul;
  s_div := Cdiv;
  s_neg := Cneg;
  s_conj := Cconj;
  s_isreal := fun z => Req_bool (Cim z) 0;
  s_recip_finite := fun z => negb (Req_bool (Cre z) 0 && Req_bool (Cim z) 0);
  s_recip_finite_spec := recip_finite_C
}.

(** ** The array store *)

Fixpoint set_nth {A : Type} (i : nat) (v : A) (l : list A) : list A :=
  match l, i with
  | [], _ => []
  | _ :: l', O => v :: l'
  | x :: l', S i' => x :: set_nth i' v l'
  end.

Section Store.
Context {T : Type}.

Definition loc : Type := nat.
Definition heap : Type := list (list T).

(** A computation over the store; the store survives an exception. *)
Definition M (A : Type) : Type := heap -> result A * heap.

Definition ret {A} (a : A) : M A := fun h => (Ok a, h).
Definition raise {A} (e : exn) : M A := fun h => (Raise e, h).
Definition bind {A B} (m : M A) (f : A -> M B) : M B :=
  fun h =>
    match m h with
    | (Ok a, h') => f a h'
    | (Raise e, h') => (Raise e, h')
    end.

(** The array a location refers to. *)
Definition deref (h : heap) (l : loc) : list T := nth l h [].

(** [a.size] *)
Definition size (l : loc) : M nat := fun h => (Ok (length (deref h l)), h).

(** [a[i]] for a non-negative index. *)
Definition load (l : loc) (i : nat) : M T :=
  fun h =>
    match nth_error (deref h l) i with
    | Some v => (Ok v, h)
    | None => (Raise IndexError, h)
    end.

(** [a[i] = v] for a non-negative index. *)
Definition store (l : loc) (i : nat) (v : T) : M unit :=
  fun h =>
    if i <? length (deref h l)
    then (Ok tt, set_nth l (set_nth i v (deref h l)) h)
    else (Raise IndexError, h).

(** Allocation of a new array with the given contents. *)
Definition alloc (a : list T) : M loc :=
  fun h => (Ok (length h), h ++ [a]).

(** [np.empty(n, dtype)]: a new array of [n] cells holding whatever
    [junk] the memory contained. *)
Definition np_empty (junk : nat -> T) (n : nat) : M loc :=
  alloc (map junk (seq 0 n)).

(** [for i in xs: s = body i s] *)
Fixpoint for_fold {S : Type} (xs : list nat) (s : S)
         (body : nat -> S -> M S) : M S :=
  match xs with
  | [] => ret s
  | i :: xs' => bind (body i s) (fun s' => for_fold xs' s' body)
  end.

(** [for i in xs: body i] *)
Definition for_each (xs : list nat) (body : nat -> M unit) : M unit :=
  for_fold xs tt (fun i _ => body i).
End Store.

Arguments heap T : clear implicits.
Arguments M T A : clear implicits.

Declare Scope monad_scope.
Delimit Scope monad_scope with monad.
Notation "x <- m ;; k" := (bind m (fun x => k))
  (at level 61, m at next level, right associativity) : monad_scope.
Notation "m ;;; k" := (bind m (fun _ => k))
  (at level 61, right associativity) : monad_scope.

(** Python's [range(lo, hi)] over naturals. *)
Definition range (lo hi : nat) : list nat := seq lo (hi - lo).

(** ** [levinson_1d] *)

(** Contents of the three [np.empty] arrays before they are written. *)
Record garbage (T : Type) : Type := {
  junk_a : nat -> T;
  junk_t : nat -> T;
  junk_k : nat -> T
}.

Section Levinson.
Context {T : Type} {ST : Scalar T}.
Local Open Scope monad_scope.

(** One pass of the outer loop [for i in range(1, order+1)]; [r], [a],
    [t] and [k] are the locations of the arrays of these names and [e] is
    the running error.  The pass returns the new [e]. *)
Definition levinson_body (r a t k : loc) (order i : nat) (e : T) : M T T :=
  acc0 <- load r i ;;
  acc <- for_fold (range 1 i) acc0 (fun j acc =>
    aj <- load a j ;;
    rij <- load r (i - j) ;;
    ret (s_add acc (s_mul aj rij))) ;;
  store k (i - 1) (s_div (s_neg acc) e) ;;;
  ki <- load k (i - 1) ;;
  store a i ki ;;;
  for_each (range 0 order) (fun j =>
    aj <- load a j ;;
    store t j aj) ;;;
  for_each (range 1 i) (fun j =>
    aj <- load a j ;;
    ki <- load k (i - 1) ;;
    tij <- load t (i - j) ;;
    store a j (s_add aj (s_mul ki (s_conj tij)))) ;;;
  ki <- load k (i - 1) ;;
  ret (s_mul e (s_sub s_one (s_mul ki (s_conj ki)))).

(** The solver proper.  [r] is the location of the (rank 1) input, so
    [np.atleast_1d] returns it unchanged; [order] is a count. *)
Definition levinson_1d (g : garbage T) (r : loc) (order : nat)
  : M T (loc * T * loc) :=
  n <- size r ;;
  if n <? 1 then raise (ValueError "Cannot operate on empty array !")
  else if n - 1 <? order then raise (ValueError "Order should be <= size-1")
  else
    r0 <- load r 0 ;;
    if negb (s_isreal r0)
    then raise (ValueError "First item of input must be real.")
    else if negb (s_recip_finite r0)
    then raise (ValueError "First item should be != 0")
    else
      a <- np_empty (junk_a g) (order + 1) ;;
      t <- np_empty (junk_t g) (order + 1) ;;
      k <- np_empty (junk_k g) order ;;
      store a 0 s_one ;;;
      e0 <- load r 0 ;;
      e <- for_fold (range 1 (order + 1)) e0 (levinson_body r a t k order) ;;
      ret (a, e, k).

(** Calling the solver on a vector [r]: the caller's store holds [r]
    at location 0.  The outcome lists coefficients, residual energy and
    reflection coefficients. *)
Definition run_levinson (g : garbage T) (r : list T) (order : nat)
  : result (list T * T * list T) :=
  match levinson_1d g 0 order [r] with
  | (Ok (a, e, k), h) => Ok (deref h a, e, deref h k)
  | (Raise x, _) => Raise x
  end.

(** *** The recursion as the specification words it *)

(** [r[i] + sum_{j=1}^{i-1} a[j] * r[i-j]], accumulated left to right. *)
Definition spec_sigma (r a : list T) (i : nat) : T :=
  fold_left (fun s j => s_add s (s_mul (nth j a s_zero) (nth (i - j) r s_zero)))
            (range 1 i) (nth i r s_zero).

(** One step [i]: from the coefficients [a[0..i-1]] and the running error
    to the coefficients [a[0..i]], the new error and [k[i]]. *)
Definition spec_step (r : list T) (i : nat) (a : list T) (e : T)
  : list T * T * T :=
  let k := s_div (s_neg (spec_sigma r a i)) e in
  (nth 0 a s_zero
     :: map (fun j => s_add (nth j a s_zero)
                            (s_mul k (s_conj (nth (i - j) a s_zero))))
            (range 1 i)
     ++ [k],
   s_mul e (s_sub s_one (s_mul k (s_conj k))),
   k).

(** Steps [1..order] in turn, starting from [a = [1]] and [e = r[0]]. *)
Definition spec_levinson (r : list T) (order : nat) : list T * T * list T :=
  fold_left (fun '(a, e, ks) i =>
               let '(a', e', k) := spec_step r i a e in
               (a', e', ks ++ [k]))
            (range 1 (order + 1))
            ([s_one], nth 0 r s_zero, []).

(** The preconditions of the solver. *)
Definition levinson_pre (r : list T) (order : nat) : Prop :=
  order + 1 <= length r /\
  s_isreal (nth 0 r s_zero) = true /\
  s_recip_finite (nth 0 r s_zero) = true.

(** The failure condition of the validation, in the words of the
    preconditions. *)
Definition levinson_rejects (r : list T) (order : nat) : Prop :=
  (Z.of_nat order > Z.of_nat (length r) - 1)%Z \/
  exists r0, nth_error r 0 = Some r0 /\ (s_isreal r0 = false \/ r0 = s_zero).
End Levinson.

(** A store freshly zeroed, for examples. *)
Definition zero_garbage : garbage R :=
  {| junk_a := fun _ => 0%R; junk_t := fun _ => 0%R; junk_k := fun _ => 0%R |}.


(** *** The loop body on the three arrays

    The same loop, read as a transformation of the contents of [a], [t]
    and [k]; the store-level program is shown to compute it. *)

Section LevinsonArrays.
Context {T : Type} {ST : Scalar T}.

Definition lev_copy (order : nat) (a t : list T) : list T :=
  fold_left (fun t j => set_nth j (nth j a s_zero) t) (range 0 order) t.

Definition lev_update (i : nat) (ki : T) (t a : list T) : list T :=
  fold_left (fun a j =>
               set_nth j (s_add (nth j a s_zero)
                                (s_mul ki (s_conj (nth (i - j) t s_zero)))) a)
            (range 1 i) a.

Definition lev_body (r : list T) (order i : nat)
           (st : list T * list T * list T * T) : list T * list T * list T * T :=
  let '(a, t, k, e) := st in
  let acc := spec_sigma r a i in
  let k1 := set_nth (i - 1) (s_div (s_neg acc) e) k in
  let ki := nth (i - 1) k1 s_zero in
  let a1 := set_nth i ki a in
  let t1 := lev_copy order a1 t in
  let a2 := lev_update i ki t1 a1 in
  (a2, t1, k1, s_mul e (s_sub s_one (s_mul ki (s_conj ki)))).

Definition lev_loop (r : list T) (order : nat) (steps : list nat)
           (st : list T * list T * list T * T) : list T * list T * list T * T :=
  fold_left (fun st i => lev_body r order i st) steps st.

(** The arrays right after allocation and [a[0] = 1.]. *)
Definition lev_init (g : garbage T) (r : list T) (order : nat)
  : list T * list T * list T * T :=
  (set_nth 0 s_one (map (junk_a g) (seq 0 (order + 1))),
   map (junk_t g) (seq 0 (order + 1)),
   map (junk_k g) (seq 0 order),
   nth 0 r s_zero).

Definition lev_lengths (order : nat) (st : list T * list T * list T * T) : Prop :=
  let '(a, t, k, _) := st in
  length a = order + 1 /\ length t = order + 1 /\ length k = order.

(** [a] and [sa] hold the same first [n] entries, and [sa] has no more. *)
Definition agree_upto (n : nat) (a sa : list T) : Prop :=
  length sa = n /\ forall j, j < n -> nth j a s_zero = nth j sa s_zero.
End LevinsonArrays.


(** ** Error propagation outside the store *)

Definition rbind {A B} (r : result A) (f : A -> result B) : result B :=
  match r with
  | Ok a => f a
  | Raise e => Raise e
  end.

Declare Scope result_scope.
Delimit Scope result_scope with result.
Notation "x <~ m ;; k" := (rbind m (fun x => k))
  (at level 61, m at next level, right associativity) : result_scope.

(** ** Autocorrelation through the Fourier transform *)

Local Open Scope R_scope.

Fixpoint Rsum_n (n : nat) (f : nat -> R) : R :=
  match n with
  | O => 0
  | S n' => Rsum_n n' f + f n'
  end.

Fixpoint Csum_n (n : nat) (f : nat -> C) : C :=
  match n with
  | O => Czero
  | S n' => Cadd (Csum_n n' f) (f n')
  end.

(** [scipy.fftpack.fft(x, n)], after its documentation:
    [y[k] = sum_{j<n} x[j] * exp(-2*pi*i*j*k/n)], the input being truncated
    or padded with zeros to [n] entries. *)
Definition fft (x : list R) (n : nat) : list C :=
  map (fun k =>
         Csum_n n (fun j =>
           Cmul (RtoC (nth j x 0))
                (Cexpi (- (2 * PI * INR j * INR k / INR n)))))
      (seq 0 n).

(** [scipy.fftpack.ifft(y)], after its documentation:
    [x[m] = 1/n * sum_{k<n} y[k] * exp(2*pi*i*k*m/n)] with [n = len(y)]. *)
Definition ifft (y : list C) : list C :=
  let n := length y in
  map (fun m =>
         Cscal_div
           (Csum_n n (fun k =>
              Cmul (nth k y Czero) (Cexpi (2 * PI * INR k * INR m / INR n))))
           (INR n))
      (seq 0 n).

Definition _acorr_last_axis (x : list R) (nfft maxlag : nat) : list R :=
  let a := map Cre (ifft (map (fun z => RtoC (Cabs (Cmul z z))) (fft x nfft))) in
  map (fun v => v / INR (length x)) (firstn (maxlag + 1)%nat a).

(** Modelled from the spec: [nextpow2] lives in the helper module, which is
    not part of the sources at hand; the specification has the frame padded
    "to the next power-of-two length >= 2*maxlag-1", so [2 ** nextpow2 m] is
    the least power of two that is at least [m]. *)
Definition nextpow2 (m : Z) : nat := Z.to_nat (Z.log2_up m).

(** The values [acorr_lpc] returns for a rank 1 real frame (the default
    axis, so no axes are swapped; a list of reals is always a real object). *)
Definition acorr_lpc_values (x : list R) : list R :=
  let maxlag := length x in
  let nfft := (2 ^ nextpow2 (2 * Z.of_nat maxlag - 1))%nat in
  _acorr_last_axis x nfft maxlag.

Section Lpc.
Local Open Scope monad_scope.

(** [acorr_lpc] on the store: the frame is read, the result is a new
    array. *)
Definition acorr_lpc (x : loc) : M R loc :=
  fun h => alloc (acorr_lpc_values (deref h x)) h.

Definition lpc (g : garbage R) (signal : loc) (order : nat)
  : M R (loc * R * loc) :=
  n <- size signal ;;
  if (n <? order)%nat
  then raise (ValueError "Input signal must have length >= order")
  else
    r <- acorr_lpc signal ;;
    levinson_1d g r order.
End Lpc.

(** Calling [lpc] on a frame held at location 0 of the caller's store. *)
Definition run_lpc (g : garbage R) (signal : list R) (order : nat)
  : result (list R * R * list R) :=
  match lpc g 0%nat order [signal] with
  | (Ok (a, e, k), h) => Ok (deref h a, e, deref h k)
  | (Raise x, _) => Raise x
  end.

(** *** Direct autocorrelation in the time domain *)

(** Lag [m] of the autocorrelation: [sum_j x[j] * x[j+m]]. *)
Definition acorr_direct (x : list R) (m : nat) : R :=
  Rsum_n (length x - m)%nat (fun j => nth j x 0 * nth (j + m)%nat x 0).

(** The biased estimator divides by the frame length. *)
Definition acorr_biased (x : list R) (m : nat) : R :=
  acorr_direct x m / INR (length x).

(** [np.correlate(a, v, 'full')] for two real vectors of the same length
    [n], after its documentation: entry [idx] is the lag [idx - (n-1)],
    [sum_j a[j + lag] * v[j]], terms outside the vectors being absent. *)
Definition np_correlate_full (a v : list R) : list R :=
  let n := length a in
  map (fun idx =>
         Rsum_n n (fun j =>
           if (n - 1 <=? j + idx)%nat
           then nth (j + idx - (n - 1))%nat a 0 * nth j v 0
           else 0))
      (seq 0 (2 * n - 1)%nat).

(** Python's [l[lo:hi]]. *)
Definition py_slice {A} (l : list A) (lo hi : Z) : list A :=
  let n := Z.of_nat (length l) in
  let norm := fun i : Z => if (i <? 0)%Z then Z.max (i + n) 0 else Z.min i n in
  firstn (Z.to_nat (norm hi) - Z.to_nat (norm lo))%nat (skipn (Z.to_nat (norm lo)) l).

(** The autocorrelation vector [r] of [lpc_ref] (the branch [order > 0]):
    [r = zeros(p); r[:nx] = correlate(signal, signal, 'full')[size-1:size+order]]. *)
Definition lpc_ref_r (signal : list R) (order : nat) : list R :=
  let p := (order + 1)%nat in
  let size := length signal in
  let nx := Nat.min p size in
  let x := np_correlate_full signal signal in
  let part := py_slice x (Z.of_nat size - 1) (Z.of_nat size + Z.of_nat order) in
  firstn nx part ++ repeat 0 (p - nx)%nat.

(** ** Formant extractors *)

(** The state of a [Formants] object that the extraction reads.
    [Representation.__init__] stores the frequency limits. *)
Record Formants : Type := {
  _freq_lims : R * R;
  _num_formants : nat;
  _win_len : R;
  _window_shape : string;
  _time_step : R
}.

Definition Formants_init (max_freq : R) (num_formants : nat)
           (win_len time_step : R) (window_shape : string) : Formants :=
  {| _freq_lims := (0, max_freq);
     _num_formants := num_formants;
     _win_len := if String.eqb window_shape "gaussian"
                 then win_len * 2 else win_len;
     _window_shape := window_shape;
     _time_step := time_step |}.

(** [LpcFormants.__init__] up to the call of [process]: the base
    initialiser is called with the literal ['gaussian']. *)
Definition LpcFormants_init (max_freq : R) (num_formants : nat)
           (win_len time_step : R) (window_shape : string) : Formants :=
  Formants_init max_freq num_formants win_len time_step "gaussian".

(** *** numpy and scipy helpers of [process] *)

(** [int(x)] on a float: truncation towards zero. *)
Definition Rtrunc (x : R) : Z :=
  if Rle_dec 0 x then Zfloor x else Zceil x.

(** [scipy.signal.gaussian(M, std)], after its source. *)
Definition gaussian (M : Z) (std : R) : result (list R) :=
  if (M <? 0)%Z
  then Raise (ValueError "Window length M must be a non-negative integer")
  else if (M <=? 1)%Z then Ok (repeat 1 (Z.to_nat M))
  else Ok (map (fun n => exp (- (INR n - (IZR M - 1) / 2) ^ 2 / (2 * std * std)))
               (seq 0 (Z.to_nat M))).

(** [np.hanning(M)], after its source. *)
Definition hanning (M : Z) : list R :=
  if (M <? 1)%Z then []
  else if (M =? 1)%Z then [1]
  else map (fun j => 0.5 + 0.5 * cos (PI * (1 - IZR M + 2 * INR j) / (IZR M - 1)))
           (seq 0 (Z.to_nat M)).

(** [np.arange(start, stop, step)] on Python integers. *)
Definition np_arange (start stop step : Z) : result (list Z) :=
  if (step =? 0)%Z then Raise ZeroDivisionError
  else
    let len := Z.to_nat (- ((- (stop - start)) / step))%Z in
    Ok (map (fun i => (start + Z.of_nat i * step)%Z) (seq 0 len)).

Fixpoint map2 {A B D} (f : A -> B -> D) (l1 : list A) (l2 : list B) : list D :=
  match l1, l2 with
  | a :: l1', b :: l2' => f a b :: map2 f l1' l2'
  | _, _ => []
  end.

(** [x * w] on two rank 1 arrays, with numpy's broadcasting. *)
Definition np_mul (x w : list R) : result (list R) :=
  if (length x =? length w)%nat then Ok (map2 Rmult x w)
  else if (length x =? 1)%nat then Ok (map (fun v => hd 0 x * v) w)
  else if (length w =? 1)%nat then Ok (map (fun v => v * hd 0 w) x)
  else Raise (ValueError "operands could not be broadcast together").

(** [np.arctan2(y, x)]. *)
Definition np_arctan2 (y x : R) : R :=
  if Rlt_dec 0 x then atan (y / x)
  else if Rlt_dec x 0
       then (if Rle_dec 0 y then atan (y / x) + PI else atan (y / x) - PI)
       else (if Rlt_dec 0 y then PI / 2
             else if Rlt_dec y 0 then - (PI / 2) else 0).

(** [np.argsort]: the indices of [v] in ascending order of the values.
    numpy leaves the order of equal values open; the model sorts by
    insertion. *)
Fixpoint insert_by {A} (key : A -> R) (i : A) (l : list A) : list A :=
  match l with
  | [] => [i]
  | j :: l' => if Rle_dec (key i) (key j) then i :: l else j :: insert_by key i l'
  end.

Definition sort_by {A} (key : A -> R) (l : list A) : list A :=
  fold_right (insert_by key) [] l.

(** The order the sort produces. *)
Definition key_le {A} (key : A -> R) (a b : A) : Prop := key a <= key b.

Definition argsort (v : list R) : list nat :=
  sort_by (fun i => nth i v 0) (seq 0 (length v)).

(** *** One frame: from the roots to the formants *)

(** A formant: [(f, bw)], or [(None, None)] when missing. *)
Definition FormantCandidate : Type := (option R * option R)%type.
Definition FormantFrame : Type := list FormantCandidate.
(** The dictionary [self._rep]. *)
Definition FormantTrack : Type := list (R * FormantFrame).

(** The roots kept by [[r for r in rts if np.imag(r) >= 0]]. *)
Definition retained_roots (rts : list C) : list C :=
  filter (fun r => Rle_bool 0 (Cim r)) rts.

(** The arrays [frqs] and [bw] after sorting, as pairs. *)
Definition frame_candidates (new_sr : R) (rts0 : list C) : list (R * R) :=
  let rts := retained_roots rts0 in
  let angz := map (fun r => np_arctan2 (Cim r) (Cre r)) rts in
  let frqs0 := map (fun a => a * (new_sr / (2 * PI))) angz in
  let frq_inds := argsort frqs0 in
  let frqs := map (fun i => nth i frqs0 0) frq_inds in
  let bw := map (fun i => -1 / 2 * (new_sr / (2 * PI))
                          * ln (Cabs (nth i rts Czero))) frq_inds in
  combine frqs bw.

(** What one retained root contributes: its frequency and its bandwidth,
    by the expressions for [frqs] and [bw]. *)
Definition candidate_of_root (new_sr : R) (r : C) : R * R :=
  (np_arctan2 (Cim r) (Cre r) * (new_sr / (2 * PI)),
   -1 / 2 * (new_sr / (2 * PI)) * ln (Cabs r)).

(** The test of the loop over [enumerate(frqs)]: neither [continue] is
    taken. *)
Definition in_band (max_freq : R) (f : R) : bool :=
  negb (Rlt_bool f 50) && negb (Rlt_bool (max_freq - 50) f).

(** The formants of a frame that pass the band test. *)
Definition survivors (max_freq new_sr : R) (rts0 : list C) : list (R * R) :=
  filter (fun fb : R * R => in_band max_freq (fst fb))
         (frame_candidates new_sr rts0).

(** The list [formants] of one frame, padding included.  [missing] may be
    negative, and a list times a negative number is empty. *)
Definition frame_formants (max_freq new_sr : R) (num_formants : nat)
           (rts0 : list C) : FormantFrame :=
  let formants :=
    map (fun fb : R * R => (Some (fst fb), Some (snd fb)))
        (survivors max_freq new_sr rts0) in
  let missing := (Z.of_nat num_formants - Z.of_nat (length formants))%Z in
  if (missing =? 0)%Z then formants
  else formants ++ repeat (None, None) (Z.to_nat missing).

(** [d[key] = v] on a dictionary kept in insertion order. *)
Fixpoint dict_set {V} (key : R) (v : V) (d : list (R * V)) : list (R * V) :=
  match d with
  | [] => [(key, v)]
  | (k', v') :: d' =>
      if Req_dec_T k' key then (k', v) :: d' else (k', v') :: dict_set key v d'
  end.

(** [d[key]] *)
Fixpoint dict_get {V} (key : R) (d : list (R * V)) : option V :=
  match d with
  | [] => None
  | (k', v') :: d' => if Req_dec_T k' key then Some v' else dict_get key d'
  end.

Section Process.
(** [np.roots] is numerical code outside the repository: the extraction
    is parameterised by it. *)
Variable np_roots : list R -> list C.
Variable g : garbage R.
Local Open Scope result_scope.

(** The analysis window. *)
Definition analysis_window (window_shape : string) (nperseg : Z)
  : result (list R) :=
  if String.eqb window_shape "gaussian"
  then
    w <~ gaussian (nperseg + 2) (0.45 * (IZR nperseg - 1) / 2) ;;
    Ok (py_slice w 1 (nperseg + 1))
  else Ok (py_slice (hanning (nperseg + 2)%Z) 1 (nperseg + 1)).

(** The body of [for i in range(num_frames)] for the centre [idx];
    [int(nperseg/2)] truncates towards zero. *)
Definition process_frame (self : Formants) (proc window : list R)
           (nperseg : Z) (new_sr : R) (idx : Z) : result FormantFrame :=
  let half := Z.quot nperseg 2 in
  let X := py_slice proc (idx - half) (idx + half) in
  X <~ np_mul X window ;;
  Aek <~ run_lpc g X (_num_formants self * 2)%nat ;;
  let rts := np_roots (fst (fst Aek)) in
  Ok (frame_formants (snd (_freq_lims self)) new_sr (_num_formants self) rts).

Fixpoint process_frames (self : Formants) (proc window : list R)
         (nperseg : Z) (new_sr : R) (indices : list Z) (rep : FormantTrack)
  : result FormantTrack :=
  match indices with
  | [] => Ok rep
  | idx :: rest =>
      formants <~ process_frame self proc window nperseg new_sr idx ;;
      process_frames self proc window nperseg new_sr rest
                     (dict_set (IZR idx / new_sr) formants rep)
  end.

(** [LpcFormants.process], from the resampled signal [proc] on; what it
    returns is the dictionary [self._rep]. *)
Definition process (self : Formants) (proc : list R) : result FormantTrack :=
  let new_sr := 2 * snd (_freq_lims self) in
  let nperseg := Rtrunc (_win_len self * new_sr) in
  let nperstep := Rtrunc (_time_step self * new_sr) in
  window <~ analysis_window (_window_shape self) nperseg ;;
  let half := Z.quot nperseg 2 in
  indices <~ np_arange half (Z.of_nat (length proc) - half + 1) nperstep ;;
  process_frames self proc window nperseg new_sr indices [].
End Process.

(** ** [Formants.to_array] *)

(** A cell of a float64 array. *)
Inductive cell : Type :=
| Num (x : R)
| NaN.

(** Storing a Python value into a float64 cell: [None] becomes [nan]. *)
Definition to_cell (o : option R) : cell :=
  match o with
  | Some x => Num x
  | None => NaN
  end.

(** [output[i,:] = vals] on a row of [width] cells. *)
Definition assign_row (width : nat) (vals : list cell) : result (list cell) :=
  if (length vals =? width)%nat then Ok vals
  else if (length vals =? 1)%nat then Ok (repeat (hd NaN vals) width)
  else Raise (ValueError "could not broadcast input array").

Section ToArray.
Local Open Scope result_scope.

Definition to_array_row (rep : FormantTrack) (value : string)
           (frame_len : nat) (t : R) : result (list cell) :=
  let frame := match dict_get t rep with Some fr => fr | None => [] end in
  if String.eqb value "formant"
  then assign_row frame_len (map (fun x : FormantCandidate => to_cell (fst x)) frame)
  else if String.eqb value "bandwidth"
  then assign_row frame_len (map (fun x : FormantCandidate => to_cell (snd x)) frame)
  else Ok (repeat (Num 0) frame_len).

Fixpoint to_array_rows (rep : FormantTrack) (value : string)
         (frame_len : nat) (times : list R) : result (list (list cell)) :=
  match times with
  | [] => Ok []
  | t :: rest =>
      row <~ to_array_row rep value frame_len t ;;
      rows <~ to_array_rows rep value frame_len rest ;;
      Ok (row :: rows)
  end.

Definition to_array (rep : FormantTrack) (value : string)
  : result (list (list cell)) :=
  let times := sort_by (fun t => t) (map fst rep) in
  match rep with
  | [] => Raise StopIteration
  | (_, ex) :: _ =>
      let frame_len := length ex in
      to_array_rows rep value frame_len times
  end.
End ToArray.

(** The row of [to_array] for one frame: the channel chosen by [value],
    missing entries as [nan]. *)
Definition channel_row (value : string) (frame : FormantFrame) : list cell :=
  if String.eqb value "formant"
  then map (fun x : FormantCandidate => to_cell (fst x)) frame
  else map (fun x : FormantCandidate => to_cell (snd x)) frame.

(** The frame recorded under [t] (empty when there is none). *)
Definition frame_at (rep : FormantTrack) (t : R) : FormantFrame :=
  match dict_get t rep with Some fr => fr | None => [] end.

(** ** Conditions on the root finder *)

(** Roots strictly above and strictly below the real axis. *)
Definition upper_half (r : C) : bool := Rlt_bool 0 (Cim r).
Definition lower_half (r : C) : bool := Rlt_bool (Cim r) 0.


(** What the extraction relies on from [np.roots] on a real polynomial with
    a non-zero leading coefficient: as many roots as the degree at most, and
    complex roots in conjugate pairs. *)
Definition conjugate_closed (rts : list C) : Prop :=
  Permutation (map Cconj rts) rts.

Definition root_finder_ok (np_roots : list R -> list C) : Prop :=
  forall A : list R,
    (length (np_roots A) <= length A - 1)%nat /\ conjugate_closed (np_roots A).

(** An exact root finder for polynomials of degree two, used where an
    instance of the root finder is needed: the two roots of
    [a*z^2 + b*z + c] by the quadratic formula. *)
Definition quadratic_roots (A : list R) : list C :=
  match A with
  | [a; b; c] =>
      if Req_dec_T a 0 then []
      else
        let d := b * b - 4 * a * c in
        if Rle_dec 0 d
        then [((- b + sqrt d) / (2 * a), 0); ((- b - sqrt d) / (2 * a), 0)]
        else [(- b / (2 * a), sqrt (- d) / (2 * a));
              (- b / (2 * a), - (sqrt (- d) / (2 * a)))]
  | _ => []
  end.

(** A frame as the padding leaves it: the formants found, in ascending
    order of frequency, then missing sentinels up to [n] entries. *)
Definition padded_frame (n : nat) (frame : FormantFrame) : Prop :=
  exists found : list (R * R),
    frame = map (fun fb : R * R => (Some (fst fb), Some (snd fb))) found
            ++ repeat (None, None) (n - length found)%nat
    /\ (length found <= n)%nat
    /\ StronglySorted Rle (map fst found).

(** ** A worked extraction

    An extractor for one formant below 4096 Hz (working rate 8192 Hz) with
    a window of two samples and a hop of one, run on the two samples
    [1, -1]. *)
Definition example_extractor : Formants :=
  LpcFormants_init 4096 1 (1 / 8192) (1 / 8192) "gaussian".

Definition example_signal : list R := [1; -1].

(** Both entries of the gaussian window of two samples. *)
Definition example_weight : R :=
  exp (- (1 / 2) ^ 2 / (2 * (0.45 * (2 - 1) / 2) * (0.45 * (2 - 1) / 2))).

(** The root of [z^2 + 2/3 z + 1/3] above the real axis. *)
Definition example_root : C :=
  (- (2 / 3) / (2 * 1), sqrt (- (2 / 3 * (2 / 3) - 4 * 1 * (1 / 3))) / (2 * 1)).

(** The frame the extraction records for it. *)
Definition example_frame : FormantFrame :=
  [(Some (fst (candidate_of_root (2 * 4096) example_root)),
    Some (snd (candidate_of_root (2 * 4096) example_root)))].

Local Close Scope R_scope.

(** ** The validation of the solver, as a function of the input

    The four tests of [levinson_1d] in the order the code makes them: the
    message of the exception raised, or [None] when the input passes. *)
Definition levinson_check {T} {ST : Scalar T} (r : list T) (order : nat)
  : option string :=
  if length r <? 1 then Some "Cannot operate on empty array !"%string
  else if length r - 1 <? order then Some "Order should be <= size-1"%string
  else if negb (s_isreal (nth 0 r s_zero))
  then Some "First item of input must be real."%string
  else if negb (s_recip_finite (nth 0 r s_zero))
  then Some "First item should be != 0"%string
  else None.

(** ** The Toeplitz system and the reference routine *)

Local Open Scope R_scope.

(** [|m - j|] on indices. *)
Definition absdiff (m j : nat) : nat := ((m - j) + (j - m))%nat.

(** Row [m] of the Toeplitz system of size [p + 1] built from [r], applied
    to the coefficients [a]: [sum_{j<=p} a[j] * r[|m-j|]]. *)
Definition toeplitz_row (r a : list R) (p m : nat) : R :=
  Rsum_n (p + 1) (fun j => nth j a 0 * nth (absdiff m j) r 0).

(** The running error is not zero before any of the steps [1..order], so
    no reflection coefficient is a quotient by zero. *)
(** The system of the docstring of [levinson_1d] over the reals: row [m]
    reads [sum_{j=1..p} R[|m-j|] * a[j] = -R[m]]. *)
Definition levinson_system (r a : list R) (p : nat) : Prop :=
  forall m, (1 <= m <= p)%nat ->
    Rsum_n p (fun j => nth (absdiff m (S j)) r 0 * nth (S j) a 0) = - nth m r 0.
Definition nondegenerate (r : list R) (order : nat) : Prop :=
  forall m, (m < order)%nat -> snd (fst (spec_levinson r m)) <> 0.

(** The residual energy recomputed from the reflection coefficients. *)
Definition energy_from_reflections {T} {ST : Scalar T} (r0 : T) (ks : list T) : T :=
  fold_left (fun e k => s_mul e (s_sub s_one (s_mul k (s_conj k)))) ks r0.

(** [scipy.linalg.toeplitz(c)] for a real first column: the symmetric
    matrix with entries [c[|i-j|]]. *)
Definition toeplitz (c : list R) : list (list R) :=
  map (fun i => map (fun j => nth (absdiff i j) c 0) (seq 0 (length c)))
      (seq 0 (length c)).

(** [np.dot(M, v)] for a matrix and a vector. *)
Definition dot_mv (M : list (list R)) (v : list R) : list R :=
  map (fun row => Rsum_n (length v) (fun j => nth j row 0 * nth j v 0)) M.

Section LpcRef.
(** [scipy.linalg.inv] is numerical code outside the repository. *)
Variable inv : list (list R) -> list (list R).

(** [lpc_ref] for a rank 1 signal; [order] is a count. *)
Definition lpc_ref (signal : list R) (order : nat) : result (list R) :=
  if (length signal <? order)%nat
  then Raise (ValueError "Input signal must have a lenght >= lpc order")
  else if (0 <? order)%nat
  then
    let r := lpc_ref_r signal order in
    let phi := dot_mv (inv (toeplitz (removelast r))) (map Ropp (tl r)) in
    Ok (1 :: phi)
  else Ok [1].
End LpcRef.

(** What [lpc_ref] relies on from [scipy.linalg.inv] for the matrix [M]:
    a square matrix of the same size that undoes [M]. *)
Definition inverts (Mi M : list (list R)) : Prop :=
  length Mi = length M
  /\ forall v, length v = length M -> dot_mv Mi (dot_mv M v) = v.

(** The inverse of a one by one matrix, for examples. *)
Definition inv_1x1 (M : list (list R)) : list (list R) :=
  match M with
  | [[c]] => [[/ c]]
  | _ => M
  end.

Local Close Scope R_scope.

(* ================================================================== *)
(** * Mel-frequency cepstral coefficients: [mfcc.py]

    The module [acousticsim/representations/mfcc.py], with the same
    conventions.  The power spectrum comes from [to_powerspec] and the
    sampling rate from [preproc], which are not part of the sources at
    hand: [process] is embedded from the power spectrum on, and the
    sampling rate is an argument. *)
(* ================================================================== *)

Local Open Scope R_scope.

(** [np.log10] on a positive argument.  For an argument that is zero or
    negative numpy gives [-inf] or [nan], which have no counterpart among
    the reals: what is proved of a value that goes through [log10] is
    stated for a positive argument. *)
Definition log10 (x : R) : R := ln x / ln 10.

Definition freqToMel (freq : R) : R := 2595 * log10 (1 + freq / 700).

(** [10 ** y] on floats is [Rpower 10 y]. *)
Definition melToFreq (mel : R) : R := 700 * (Rpower 10 (mel / 2595) - 1).

(** [np.spacing(1)]: the distance from 1 to the next float64. *)
Definition spacing_1 : R := / 2 ^ 52.

(** Row [i] of the matrix [dctm] of [dct_spectrum], after the scaling by
    [0.230258509299405]; [arange(1, 2*ncep, 2)] is [2j+1] for [j < ncep]. *)
Definition dctm_row (ncep i : nat) : list R :=
  map (fun v => v * 0.230258509299405)
      (map (fun j => cos (INR i * INR (2 * j + 1) / (2 * INR ncep) * PI)
                     * sqrt (2 / INR ncep))
           (seq 0 ncep)).

Definition dct_spectrum (spec : list R) : list R :=
  let ncep := length spec in
  let dctm := map (dctm_row ncep) (seq 0 ncep) in
  dot_mv dctm (map (fun s => 10 * log10 (s + spacing_1)) spec).

(** [np.linspace(start, stop, num)], after its source: the points
    [start + i*step] with [step = (stop - start)/(num - 1)], the last one
    set to [stop] when there are two points or more. *)
Definition linspace (start stop : R) (num : nat) : list R :=
  map (fun i => if (Nat.ltb 1 num && Nat.eqb i (num - 1))%bool then stop
                else start + INR i * ((stop - start) / INR (num - 1)))
      (seq 0 num).

(** [m.transpose()] of a matrix with [ncols] columns. *)
Definition np_transpose (ncols : nat) (rows : list (list R)) : list (list R) :=
  map (fun j => map (fun row => nth j row 0) rows) (seq 0 ncols).

(** [np.dot(v, m)] of a vector and a matrix with [ncols] columns. *)
Definition dot_vm (ncols : nat) (v : list R) (m : list (list R))
  : result (list R) :=
  if Nat.eqb (length v) (length m)
  then Ok (map (fun j => Rsum_n (length v)
                           (fun i => nth i v 0 * nth j (nth i m []) 0))
               (seq 0 ncols))
  else Raise (ValueError "shapes not aligned").

(** [np.diag(d)] of a vector. *)
Definition np_diag (d : list R) : list (list R) :=
  map (fun i => map (fun j => if Nat.eqb i j then nth i d 0 else 0)
                    (seq 0 (length d)))
      (seq 0 (length d)).

(** [out[k,:] = vals] on a row of [width] float cells. *)
Definition assign_row_float (width : nat) (vals : list R) : result (list R) :=
  if Nat.eqb (length vals) width then Ok vals
  else if Nat.eqb (length vals) 1 then Ok (repeat (hd 0 vals) width)
  else Raise (ValueError "could not broadcast input array").

Module Mfcc.

(** The state of an [Mfcc] object that the computation reads. *)
Record Mfcc : Type := {
  _freq_lims : R * R;
  _num_coeffs : nat;
  _win_len : R;
  _time_step : R;
  _num_filters : nat;
  _use_power : bool
}.

(** [Mfcc.__init__] up to the call of [process]: the number of filters is
    set to the literal 26. *)
Definition init (freq_lims : R * R) (num_coeffs : nat) (win_len time_step : R)
           (num_filters : nat) (use_power : bool) : Mfcc :=
  {| _freq_lims := freq_lims;
     _num_coeffs := num_coeffs;
     _win_len := win_len;
     _time_step := time_step;
     _num_filters := 26;
     _use_power := use_power |}.

(** The array [binfreqs] of [filter_bank]. *)
Definition binfreqs (self : Mfcc) : list R :=
  let nfilt := _num_filters self in
  let minMel := freqToMel (fst (_freq_lims self)) in
  let maxMel := freqToMel (snd (_freq_lims self)) in
  map melToFreq (linspace minMel maxMel (nfilt + 2)).

(** The array [fftfreqs] of [filter_bank], for [nfft <> 0].  For
    [nfft = 0] numpy divides by zero and the array holds [nan], which has no
    counterpart among the reals: what is proved of the weights is stated
    for [nfft <> 0] or under a condition on the frequency. *)
Definition fftfreqs (sr : R) (nfft : Z) : list R :=
  map (fun j => INR j / IZR nfft * sr)
      (seq 0 (Z.to_nat (Rtrunc (IZR nfft / 2 + 1)))).

(** One entry of a row of [fbank], at the frequency [f], for the three
    edges [fs = binfreqs[i..i+2]]: [fs = fs[1] + (fs - fs[1])], then
    [maximum(0, minimum(loslope, highslope))]. *)
Definition triangle (fs0 fs1 fs2 f : R) : R :=
  let fs0' := fs1 + (fs0 - fs1) in
  let fs1' := fs1 + (fs1 - fs1) in
  let fs2' := fs1 + (fs2 - fs1) in
  let loslope := (f - fs0') / (fs1' - fs0') in
  let highslope := (fs2' - f) / (fs2' - fs1') in
  Rmax 0 (Rmin loslope highslope).

(** Row [i] of [fbank]: the triangle over [binfreqs[i..i+2]]. *)
Definition fbank_row (self : Mfcc) (sr : R) (nfft : Z) (i : nat) : list R :=
  map (triangle (nth i (binfreqs self) 0)
                (nth (i + 1) (binfreqs self) 0)
                (nth (i + 2) (binfreqs self) 0))
      (fftfreqs sr nfft).

(** [np.zeros] refuses a negative dimension. *)
Definition filter_bank (self : Mfcc) (sr : R) (nfft : Z)
  : result (list (list R)) :=
  let nfilt := _num_filters self in
  if (Rtrunc (IZR nfft / 2 + 1) <? 0)%Z
  then Raise (ValueError "negative dimensions are not allowed")
  else Ok (np_transpose (Z.to_nat (Rtrunc (IZR nfft / 2 + 1)))
                        (map (fbank_row self sr nfft) (seq 0 nfilt))).

(** The diagonal of the lifter: [1 + (L/2)*sin(pi*n/L)] with [L = 22]. *)
Definition lift_weights (n : nat) : list R :=
  map (fun i => 1 + 22 / 2 * sin (PI * INR i / 22)) (seq 0 n).

Section Process.
Local Open Scope result_scope.

(** The body of [for k in range(num_frames)]: the row [self._rep[k,:]]. *)
Definition process_frame (self : Mfcc) (filterbank : list (list R))
           (frame : list R) : result (list R) :=
  let nfilt := _num_filters self in
  let lift := np_diag (lift_weights nfilt) in
  fs <~ dot_vm nfilt (map sqrt frame) filterbank ;;
  let filteredSpectrum := map (fun v => v ^ 2) fs in
  let dctSpectrum := dct_spectrum filteredSpectrum in
  dctSpectrum <~ dot_vm nfilt dctSpectrum lift ;;
  let dctSpectrum := if _use_power self then dctSpectrum else tl dctSpectrum in
  assign_row_float (_num_coeffs self) (firstn (_num_coeffs self) dctSpectrum).

Fixpoint process_frames (self : Mfcc) (filterbank : list (list R))
         (pspec : list (list R)) : result (list (list R)) :=
  match pspec with
  | [] => Ok []
  | frame :: rest =>
      row <~ process_frame self filterbank frame ;;
      rows <~ process_frames self filterbank rest ;;
      Ok (row :: rows)
  end.

(** [Mfcc.process] from the power spectrum [pspec] (an array of
    [num_frames] rows and [nbins] columns) on; what it returns is
    [self._rep], which the final [transpose()] leaves as it is. *)
Definition process (self : Mfcc) (sr : R) (nbins : nat)
           (pspec : list (list R)) : result (list (list R)) :=
  filterbank <~ filter_bank self sr ((Z.of_nat nbins - 1) * 2) ;;
  process_frames self filterbank pspec.
End Process.

End Mfcc.

(** An object for 12 coefficients between 80 and 7800 Hz, built with a
    request for 20 filters. *)
Definition example_mfcc : Mfcc.Mfcc :=
  Mfcc.init (80, 7800) 12 0.025 0.01 20 false.

(** Its filter bank for a transform of two points at 16 kHz. *)
Definition example_fbank : list (list R) :=
  np_transpose 2 (map (Mfcc.fbank_row example_mfcc 16000 2) (seq 0 26)).

(** The row stored for the frame of power spectrum [1, 1]. *)
Definition example_row : list R :=
  match Mfcc.process_frame example_mfcc example_fbank [1; 1] with
  | Ok row => row
  | Raise _ => []
  end.

(** A sampling rate that puts the second transform frequency (of a
    transform of two points) on the band edge of index 25. *)
Definition example_rate : R := 2 * nth 25 (Mfcc.binfreqs example_mfcc) 0.

Definition example_fbank_on_edge : list (list R) :=
  np_transpose 2 (map (Mfcc.fbank_row example_mfcc example_rate 2) (seq 0 26)).

Local Close Scope R_scope.
(* ================================================================== *)
(** * Part II: properties *)
(* ================================================================== *)

(** ** Lists and the store *)

Lemma length_set_nth {A} (i : nat) (v : A) (l : list A) :
  length (set_nth i v l) = length l.
Proof.
  revert i; induction l as [|x l IH]; intros [|i]; simpl; auto.
Qed.

Lemma nth_set_nth_eq {A} (i : nat) (v d : A) (l : list A) :
  i < length l -> nth i (set_nth i v l) d = v.
Proof.
  revert i; induction l as [|x l IH]; intros [|i] Hi; simpl in *; try lia; auto.
  apply IH; lia.
Qed.

Lemma nth_set_nth_neq {A} (i j : nat) (v d : A) (l : list A) :
  i <> j -> nth j (set_nth i v l) d = nth j l d.
Proof.
  revert i j; induction l as [|x l IH]; intros [|i] [|j] Hij; simpl; auto; try lia.
Qed.

Lemma set_nth_app_r {A} (h ext : list A) (i : nat) (v : A) :
  set_nth (length h + i) v (h ++ ext) = h ++ set_nth i v ext.
Proof.
  induction h as [|x h IH]; simpl; auto. now rewrite IH.
Qed.

Lemma set_nth_app_l {A} (h ext : list A) (i : nat) (v : A) :
  i < length h -> set_nth i v (h ++ ext) = set_nth i v h ++ ext.
Proof.
  revert i; induction h as [|x h IH]; intros [|i] Hi; simpl in *; try lia; auto.
  rewrite IH; auto; lia.
Qed.

Lemma nth_error_nth_lt {A} (l : list A) (i : nat) (d : A) :
  i < length l -> nth_error l i = Some (nth i l d).
Proof.
  revert i; induction l as [|x l IH]; intros [|i] Hi; simpl in *; try lia; auto.
  apply IH; lia.
Qed.

Lemma range_S_r (lo hi : nat) :
  lo <= hi -> range lo (S hi) = range lo hi ++ [hi].
Proof.
  intros H. unfold range.
  replace (S hi - lo) with (S (hi - lo)) by lia.
  rewrite seq_S. f_equal. f_equal. lia.
Qed.

Lemma in_range (lo hi j : nat) : In j (range lo hi) <-> lo <= j < hi.
Proof. unfold range. rewrite in_seq. lia. Qed.

Lemma NoDup_range (lo hi : nat) : NoDup (range lo hi).
Proof. apply seq_NoDup. Qed.

Lemma fold_left_ext_in {A B} (f g : A -> B -> A) (l : list B) (a : A) :
  (forall x y, In y l -> f x y = g x y) ->
  fold_left f l a = fold_left g l a.
Proof.
  revert a; induction l as [|y l IH]; intros a H; simpl; auto.
  rewrite H by (left; reflexivity). apply IH. intros; apply H; right; auto.
Qed.

Section StoreFacts.
Context {T : Type}.
Implicit Types (h : heap T) (a t k : list T).

Lemma deref_app_l h ext (l : loc) :
  l < length h -> deref (h ++ ext) l = deref h l.
Proof. intros H. unfold deref. now rewrite app_nth1. Qed.

Lemma deref_app_r h ext (i : nat) :
  deref (h ++ ext) (length h + i) = nth i ext [].
Proof.
  unfold deref. rewrite app_nth2 by lia. f_equal. lia.
Qed.

Lemma load_old h ext (l : loc) (i : nat) (d : T) :
  l < length h -> i < length (deref h l) ->
  load l i (h ++ ext) = (Ok (nth i (deref h l) d), h ++ ext).
Proof.
  intros Hl Hi. unfold load. rewrite deref_app_l by auto.
  now rewrite (nth_error_nth_lt _ d Hi).
Qed.

Lemma load_new h ext (n i : nat) (d : T) :
  i < length (nth n ext []) ->
  load (length h + n) i (h ++ ext) = (Ok (nth i (nth n ext []) d), h ++ ext).
Proof.
  intros Hi. unfold load. rewrite deref_app_r.
  now rewrite (nth_error_nth_lt _ d Hi).
Qed.

Lemma store_new h ext (n i : nat) (v : T) :
  i < length (nth n ext []) ->
  store (length h + n) i v (h ++ ext)
  = (Ok tt, h ++ set_nth n (set_nth i v (nth n ext [])) ext).
Proof.
  intros Hi. unfold store. rewrite deref_app_r.
  apply Nat.ltb_lt in Hi. rewrite Hi. now rewrite set_nth_app_r.
Qed.
End StoreFacts.

(** ** The solver on the store computes the loop on the arrays *)

Section LevinsonStore.
Context {T : Type} {ST : Scalar T}.
Variables (h0 : heap T) (lr : loc).
Hypothesis Hlr : lr < length h0.
Local Open Scope monad_scope.

Let r := deref h0 lr.
Let la := length h0 + 0.
Let lt := length h0 + 1.
Let lk := length h0 + 2.

Lemma acc_loop_run a t k i js acc :
  (forall j, In j js -> j < length a /\ i - j < length r) ->
  for_fold js acc (fun j acc =>
      aj <- load la j ;;
      rij <- load lr (i - j) ;;
      ret (s_add acc (s_mul aj rij))) (h0 ++ [a; t; k])
  = (Ok (fold_left (fun s j =>
           s_add s (s_mul (nth j a s_zero) (nth (i - j) r s_zero))) js acc),
     h0 ++ [a; t; k]).
Proof.
  revert acc; induction js as [|j js IH]; intros acc Hin; simpl; auto.
  destruct (Hin j (or_introl eq_refl)) as [Hj Hr].
  unfold bind at 1. unfold bind at 1. unfold la.
  rewrite (load_new h0 [a; t; k] 0 s_zero) by exact Hj.
  unfold bind at 1.
  rewrite (load_old h0 [a; t; k] s_zero Hlr) by exact Hr.
  unfold ret at 1. simpl nth.
  apply IH. intros j' Hj'. apply Hin. now right.
Qed.

Lemma copy_loop_run a t k js :
  (forall j, In j js -> j < length a /\ j < length t) ->
  for_each js (fun j => aj <- load la j ;; store lt j aj) (h0 ++ [a; t; k])
  = (Ok tt,
     h0 ++ [a; fold_left (fun t j => set_nth j (nth j a s_zero) t) js t; k]).
Proof.
  unfold for_each.
  revert t; induction js as [|j js IH]; intros t Hin; simpl; auto.
  destruct (Hin j (or_introl eq_refl)) as [Hj Ht].
  unfold bind at 1. unfold bind at 1. unfold la.
  rewrite (load_new h0 [a; t; k] 0 s_zero) by exact Hj.
  unfold lt. rewrite (store_new h0 [a; t; k] 1) by exact Ht.
  simpl nth. simpl set_nth.
  apply IH. intros j' Hj'. rewrite length_set_nth. apply Hin. now right.
Qed.

Lemma update_loop_run a t k i js :
  (forall j, In j js -> j < length a /\ i - 1 < length k /\ i - j < length t) ->
  for_each js (fun j =>
      aj <- load la j ;;
      ki <- load lk (i - 1) ;;
      tij <- load lt (i - j) ;;
      store la j (s_add aj (s_mul ki (s_conj tij)))) (h0 ++ [a; t; k])
  = (Ok tt,
     h0 ++ [fold_left (fun a j =>
              set_nth j (s_add (nth j a s_zero)
                 (s_mul (nth (i - 1) k s_zero)
                        (s_conj (nth (i - j) t s_zero)))) a) js a; t; k]).
Proof.
  unfold for_each.
  revert a; induction js as [|j js IH]; intros a Hin; simpl; auto.
  destruct (Hin j (or_introl eq_refl)) as (Hj & Hk & Ht).
  unfold bind at 1. unfold bind at 1. unfold la.
  rewrite (load_new h0 [a; t; k] 0 s_zero) by exact Hj.
  unfold bind at 1. unfold lk.
  rewrite (load_new h0 [a; t; k] 2 s_zero) by exact Hk.
  unfold bind at 1. unfold lt.
  rewrite (load_new h0 [a; t; k] 1 s_zero) by exact Ht.
  rewrite (store_new h0 [a; t; k] 0) by exact Hj.
  simpl nth. simpl set_nth.
  apply IH. intros j' Hj'. rewrite length_set_nth. apply Hin. now right.
Qed.

Lemma length_lev_copy order a t : length (lev_copy order a t) = length t.
Proof.
  unfold lev_copy. generalize (range 0 order) as js. intros js; revert t.
  induction js as [|j js IH]; intros t; simpl; auto.
  rewrite IH. apply length_set_nth.
Qed.

Lemma length_lev_update i ki t a : length (lev_update i ki t a) = length a.
Proof.
  unfold lev_update. generalize (range 1 i) as js. intros js; revert a.
  induction js as [|j js IH]; intros a; simpl; auto.
  rewrite IH. apply length_set_nth.
Qed.

Lemma lev_body_run order i a t k e :
  length a = order + 1 -> length t = order + 1 -> length k = order ->
  order + 1 <= length r -> 1 <= i <= order ->
  levinson_body lr la lt lk order i e (h0 ++ [a; t; k])
  = let '(a', t', k', e') := lev_body r order i (a, t, k, e) in
    (Ok e', h0 ++ [a'; t'; k']).
Proof.
  intros La Lt Lk Lr Hi. unfold levinson_body, lev_body.
  unfold bind at 1.
  rewrite (load_old h0 [a; t; k] s_zero Hlr) by (fold r; lia).
  unfold bind at 1.
  rewrite acc_loop_run
    by (intros j Hj; apply in_range in Hj; fold r; lia).
  fold r. fold (spec_sigma r a i).
  set (acc := spec_sigma r a i).
  unfold bind at 1. unfold lk at 1.
  rewrite (store_new h0 [a; t; k] 2) by (simpl; lia).
  simpl nth. simpl set_nth.
  set (k1 := set_nth (i - 1) (s_div (s_neg acc) e) k).
  assert (Lk1 : length k1 = order) by (unfold k1; now rewrite length_set_nth).
  unfold bind at 1. unfold lk at 1.
  rewrite (load_new h0 [a; t; k1] 2 s_zero) by (simpl; lia).
  simpl nth. set (ki := nth (i - 1) k1 s_zero).
  unfold bind at 1. unfold la at 1.
  rewrite (store_new h0 [a; t; k1] 0) by (simpl; lia).
  simpl nth. simpl set_nth.
  set (a1 := set_nth i ki a).
  assert (La1 : length a1 = order + 1) by (unfold a1; now rewrite length_set_nth).
  unfold bind at 1.
  rewrite copy_loop_run
    by (intros j Hj; apply in_range in Hj; lia).
  fold (lev_copy order a1 t). set (t1 := lev_copy order a1 t).
  assert (Lt1 : length t1 = order + 1) by (unfold t1; now rewrite length_lev_copy).
  unfold bind at 1.
  rewrite update_loop_run
    by (intros j Hj; apply in_range in Hj; lia).
  fold ki. fold (lev_update i ki t1 a1).
  unfold bind at 1. unfold lk at 1.
  rewrite (load_new h0 [lev_update i ki t1 a1; t1; k1] 2 s_zero)
    by (simpl; lia).
  reflexivity.
Qed.
End LevinsonStore.

Section LevinsonRun.
Context {T : Type} {ST : Scalar T}.
Local Open Scope monad_scope.

Lemma lev_body_lengths r order i st :
  lev_lengths order st -> lev_lengths order (lev_body r order i st).
Proof.
  destruct st as [[[a t] k] e]. unfold lev_lengths, lev_body.
  intros (La & Lt & Lk).
  rewrite length_lev_update, length_lev_copy, !length_set_nth. auto.
Qed.

Lemma lev_loop_lengths r order steps st :
  lev_lengths order st -> lev_lengths order (lev_loop r order steps st).
Proof.
  unfold lev_loop. revert st; induction steps as [|i steps IH]; intros st H;
    simpl; auto.
  apply IH. now apply lev_body_lengths.
Qed.

Lemma lev_init_lengths g r order : lev_lengths order (lev_init g r order).
Proof.
  unfold lev_lengths, lev_init.
  rewrite length_set_nth, !length_map, !length_seq. auto.
Qed.

Lemma lev_loop_cons r order i steps st :
  lev_loop r order (i :: steps) st
  = lev_loop r order steps (lev_body r order i st).
Proof. reflexivity. Qed.

Lemma lev_loop_app r order s1 s2 st :
  lev_loop r order (s1 ++ s2) st
  = lev_loop r order s2 (lev_loop r order s1 st).
Proof. unfold lev_loop. apply fold_left_app. Qed.

Lemma outer_loop_run (h0 : heap T) (lr : loc) order steps a t k e :
  lr < length h0 ->
  lev_lengths order (a, t, k, e) ->
  order + 1 <= length (deref h0 lr) ->
  (forall i, In i steps -> 1 <= i <= order) ->
  for_fold steps e
    (levinson_body lr (length h0 + 0) (length h0 + 1) (length h0 + 2) order)
    (h0 ++ [a; t; k])
  = let '(a', t', k', e') :=
        lev_loop (deref h0 lr) order steps (a, t, k, e) in
    (Ok e', h0 ++ [a'; t'; k']).
Proof.
  intros Hlr HL Hr. revert a t k e HL.
  induction steps as [|i steps IH]; intros a t k e HL Hin; [reflexivity|].
  rewrite lev_loop_cons. cbn [for_fold].
  unfold bind at 1.
  pose proof (@lev_body_lengths (deref h0 lr) order i _ HL) as HL'.
  destruct HL as (La & Lt & Lk).
  rewrite (@lev_body_run _ _ h0 lr Hlr order i a t k e La Lt Lk Hr) by (apply Hin; now left).
  destruct (lev_body (deref h0 lr) order i (a, t, k, e)) as [[[a1 t1] k1] e1].
  apply IH; auto. intros; apply Hin; now right.
Qed.

(** The two outcomes of a call. *)
Lemma levinson_1d_ok g (h : heap T) (lr : loc) order :
  levinson_pre (deref h lr) order ->
  levinson_1d g lr order h
  = let '(a, t, k, e) :=
        lev_loop (deref h lr) order (range 1 (order + 1))
                 (lev_init g (deref h lr) order) in
    (Ok (length h, e, length h + 2), h ++ [a; t; k]).
Proof.
  intros (Hn & Hreal & Hfin).
  assert (Hlr : lr < length h).
  { destruct (Nat.lt_ge_cases lr (length h)) as [|Hge]; auto.
    unfold deref in Hn. rewrite nth_overflow in Hn by exact Hge.
    simpl in Hn; lia. }
  unfold levinson_1d, size. unfold bind at 1.
  replace (length (deref h lr) <? 1) with false
    by (symmetry; apply Nat.ltb_ge; lia).
  replace (length (deref h lr) - 1 <? order) with false
    by (symmetry; apply Nat.ltb_ge; lia).
  unfold bind at 1. unfold load at 1.
  rewrite (nth_error_nth_lt _ s_zero) by lia.
  rewrite Hreal, Hfin. change (negb true) with false. cbv iota.
  unfold np_empty, alloc. unfold bind at 1. unfold bind at 1. unfold bind at 1.
  cbv beta. rewrite !length_app. simpl length.
  rewrite <- !app_assoc. simpl app.
  unfold bind at 1.
  replace (length h) with (length h + 0) at 1 by lia.
  rewrite (store_new h _ 0)
    by (simpl; rewrite length_map, length_seq; lia).
  simpl nth. simpl set_nth.
  unfold bind at 1.
  rewrite (load_old h _ s_zero Hlr) by lia.
  unfold bind at 1.
  replace (length h + 1 + 1) with (length h + 2) by lia.
  replace (length h) with (length h + 0) at 1 by lia.
  rewrite outer_loop_run; auto.
  - fold (lev_init g (deref h lr) order).
    destruct (lev_loop _ _ _ _) as [[[a t] k] e]. reflexivity.
  - apply (lev_init_lengths g (deref h lr) order).
  - intros i Hi. apply in_range in Hi. lia.
Qed.

Lemma levinson_1d_raise g (h : heap T) (lr : loc) order :
  ~ levinson_pre (deref h lr) order ->
  exists msg, levinson_1d g lr order h = (Raise (ValueError msg), h).
Proof.
  intros Hpre. unfold levinson_1d, size. unfold bind at 1.
  destruct (length (deref h lr) <? 1) eqn:E1; [eexists; reflexivity|].
  destruct (length (deref h lr) - 1 <? order) eqn:E2; [eexists; reflexivity|].
  apply Nat.ltb_ge in E1, E2.
  unfold bind at 1. unfold load at 1.
  rewrite (nth_error_nth_lt _ s_zero) by lia.
  destruct (s_isreal (nth 0 (deref h lr) s_zero)) eqn:E3;
    [|eexists; reflexivity].
  destruct (s_recip_finite (nth 0 (deref h lr) s_zero)) eqn:E4;
    [|eexists; reflexivity].
  exfalso. apply Hpre. unfold levinson_pre. repeat split; auto. lia.
Qed.

Lemma levinson_pre_dec (r : list T) order :
  levinson_pre r order \/ ~ levinson_pre r order.
Proof.
  unfold levinson_pre.
  destruct (le_dec (order + 1) (length r)); [|right; tauto].
  destruct (s_isreal (nth 0 r s_zero)); [|right; intuition congruence].
  destruct (s_recip_finite (nth 0 r s_zero)); [|right; intuition congruence].
  left; auto.
Qed.
End LevinsonRun.

(** ** The loop on the arrays computes the specified recursion *)

Section LevinsonRefines.
Context {T : Type} {ST : Scalar T}.

Lemma fold_set_nth_out (f : nat -> T -> T) js (a : list T) j' :
  ~ In j' js ->
  nth j' (fold_left (fun a j => set_nth j (f j (nth j a s_zero)) a) js a) s_zero
  = nth j' a s_zero.
Proof.
  revert a; induction js as [|j js IH]; intros a Hn; simpl; auto.
  rewrite IH by (intros H; apply Hn; now right).
  apply nth_set_nth_neq. intros ->. apply Hn. now left.
Qed.

Lemma fold_set_nth_in (f : nat -> T -> T) js (a : list T) j' :
  NoDup js -> (forall j, In j js -> j < length a) -> In j' js ->
  nth j' (fold_left (fun a j => set_nth j (f j (nth j a s_zero)) a) js a) s_zero
  = f j' (nth j' a s_zero).
Proof.
  revert a; induction js as [|j js IH]; intros a Hnd Hlen Hin; simpl.
  - destruct Hin.
  - inversion Hnd as [|? ? Hnotin Hnd']; subst.
    destruct Hin as [->|Hin].
    + rewrite fold_set_nth_out by exact Hnotin.
      apply nth_set_nth_eq. apply Hlen. now left.
    + rewrite IH; auto.
      * rewrite nth_set_nth_neq; auto. intros ->. contradiction.
      * intros j0 Hj0. rewrite length_set_nth. apply Hlen. now right.
Qed.

Lemma nth_lev_copy order (a t : list T) j :
  order <= length t -> j < order ->
  nth j (lev_copy order a t) s_zero = nth j a s_zero.
Proof.
  intros Hl Hj. unfold lev_copy.
  rewrite (fold_set_nth_in (fun j _ => nth j a s_zero)); auto.
  - apply NoDup_range.
  - intros j0 Hj0. apply in_range in Hj0. lia.
  - apply in_range. lia.
Qed.

Lemma nth_lev_update_in i ki (t a : list T) j :
  i <= length a -> 1 <= j < i ->
  nth j (lev_update i ki t a) s_zero
  = s_add (nth j a s_zero) (s_mul ki (s_conj (nth (i - j) t s_zero))).
Proof.
  intros Hl Hj. unfold lev_update.
  rewrite (fold_set_nth_in
             (fun j x => s_add x (s_mul ki (s_conj (nth (i - j) t s_zero))))); auto.
  - apply NoDup_range.
  - intros j0 Hj0. apply in_range in Hj0. lia.
  - apply in_range. lia.
Qed.

Lemma nth_lev_update_out i ki (t a : list T) j :
  ~ (1 <= j < i) ->
  nth j (lev_update i ki t a) s_zero = nth j a s_zero.
Proof.
  intros Hj. unfold lev_update.
  apply (fold_set_nth_out
           (fun j x => s_add x (s_mul ki (s_conj (nth (i - j) t s_zero))))).
  rewrite in_range. exact Hj.
Qed.

Lemma spec_sigma_agree (r a sa : list T) i :
  agree_upto i a sa -> spec_sigma r a i = spec_sigma r sa i.
Proof.
  intros [_ H]. unfold spec_sigma. apply fold_left_ext_in.
  intros s j Hj. apply in_range in Hj. rewrite H by lia. reflexivity.
Qed.

Lemma nth_map_range {B} (f : nat -> B) lo hi j d :
  lo <= j < hi -> nth (j - lo) (map f (range lo hi)) d = f j.
Proof.
  intros Hj. unfold range.
  rewrite (nth_indep _ d (f 0)) by (rewrite length_map, length_seq; lia).
  rewrite map_nth, seq_nth by lia. f_equal. lia.
Qed.

Lemma spec_step_length r i sa e :
  1 <= i ->
  length (fst (fst (spec_step r i sa e))) = i + 1.
Proof.
  intros Hi. unfold spec_step. simpl.
  rewrite length_app, length_map. unfold range. rewrite length_seq.
  simpl. lia.
Qed.

Lemma spec_step_nth r i sa e j :
  1 <= i -> j <= i ->
  nth j (fst (fst (spec_step r i sa e))) s_zero
  = if j =? 0 then nth 0 sa s_zero
    else if j <? i
         then s_add (nth j sa s_zero)
                    (s_mul (snd (spec_step r i sa e))
                           (s_conj (nth (i - j) sa s_zero)))
         else snd (spec_step r i sa e).
Proof.
  intros Hi Hj. unfold spec_step. cbn [fst snd].
  destruct j as [|j]; [reflexivity|].
  cbn [Nat.eqb nth].
  destruct (S j <? i) eqn:E.
  - apply Nat.ltb_lt in E.
    rewrite app_nth1 by (rewrite length_map; unfold range; rewrite length_seq; lia).
    replace j with (S j - 1) at 1 by lia.
    rewrite nth_map_range by lia. reflexivity.
  - apply Nat.ltb_ge in E.
    rewrite app_nth2 by (rewrite length_map; unfold range; rewrite length_seq; lia).
    rewrite length_map. unfold range. rewrite length_seq.
    replace (j - (i - 1)) with 0 by lia. reflexivity.
Qed.

(** One pass of the loop against one step of the specification. *)
Lemma lev_body_refines r order i a t k e sa ks :
  1 <= i <= order ->
  lev_lengths order (a, t, k, e) ->
  agree_upto i a sa -> agree_upto (i - 1) k ks ->
  let '(a', _, k', e') := lev_body r order i (a, t, k, e) in
  let '(sa', se', sk) := spec_step r i sa e in
  agree_upto (i + 1) a' sa' /\ agree_upto i k' (ks ++ [sk]) /\ e' = se'.
Proof.
  intros Hi (La & Lt & Lk) Ha Hk.
  pose proof (spec_step_length r sa e (proj1 Hi)) as Hlen.
  pose proof (fun j => @spec_step_nth r i sa e j (proj1 Hi)) as Hnth.
  unfold lev_body.
  rewrite (spec_sigma_agree r Ha).
  assert (Hki : nth (i - 1)
                  (set_nth (i - 1) (s_div (s_neg (spec_sigma r sa i)) e) k) s_zero
                = snd (spec_step r i sa e)).
  { rewrite nth_set_nth_eq by lia. reflexivity. }
  rewrite Hki.
  destruct (spec_step r i sa e) as [[sa' se'] sk] eqn:Es.
  cbn [fst snd] in *.
  split; [|split].
  - split; [exact Hlen|]. intros j Hj. rewrite Hnth by lia.
    destruct Ha as [_ Ha].
    destruct (Nat.eq_dec j 0) as [->|Hj0].
    + rewrite nth_lev_update_out by lia.
      rewrite nth_set_nth_neq by lia. apply Ha. lia.
    + replace (j =? 0) with false by (symmetry; apply Nat.eqb_neq; lia).
      destruct (j <? i) eqn:E.
      * apply Nat.ltb_lt in E.
        rewrite nth_lev_update_in by (rewrite ?length_set_nth; lia).
        rewrite nth_lev_copy by (rewrite ?length_set_nth; lia).
        rewrite !nth_set_nth_neq by lia.
        rewrite !Ha by lia. reflexivity.
      * apply Nat.ltb_ge in E.
        rewrite nth_lev_update_out by lia.
        replace j with i by lia.
        rewrite nth_set_nth_eq by lia. reflexivity.
  - destruct Hk as [Lks Hk]. split.
    + rewrite length_app. simpl. lia.
    + intros j Hj. destruct (Nat.eq_dec j (i - 1)) as [->|Hne].
      * rewrite app_nth2 by lia. rewrite Lks, Nat.sub_diag. simpl.
        rewrite nth_set_nth_eq by lia.
        unfold spec_step in Es. inversion Es. reflexivity.
      * rewrite nth_set_nth_neq by lia.
        rewrite app_nth1 by lia. apply Hk. lia.
  - unfold spec_step in Es. inversion Es. reflexivity.
Qed.

(** The specification's recursion stopped after [m] steps. *)
Lemma spec_levinson_S r m :
  spec_levinson r (S m)
  = let '(a, e, ks) := spec_levinson r m in
    let '(a', e', k) := spec_step r (S m) a e in
    (a', e', ks ++ [k]).
Proof.
  unfold spec_levinson.
  replace (S m + 1) with (S (m + 1)) by lia.
  rewrite range_S_r by lia. rewrite fold_left_app. cbn [fold_left].
  replace (m + 1) with (S m) by lia.
  destruct (fold_left _ (range 1 (S m)) _) as [[a e] ks]. reflexivity.
Qed.

Lemma lev_loop_refines g r order m :
  m <= order ->
  let '(a, _, k, e) := lev_loop r order (range 1 (m + 1)) (lev_init g r order) in
  let '(sa, se, ks) := spec_levinson r m in
  agree_upto (m + 1) a sa /\ agree_upto m k ks /\ e = se.
Proof.
  induction m as [|m IH]; intros Hm.
  - unfold lev_loop, spec_levinson, lev_init.
    change (range 1 (0 + 1)) with (@nil nat). cbn [fold_left].
    split; [split|split; [split|]]; try reflexivity.
    + intros j Hj. replace j with 0 by lia.
      rewrite nth_set_nth_eq; auto.
      rewrite length_map, length_seq. lia.
    + intros j Hj. lia.
  - specialize (IH ltac:(lia)).
    replace (S m + 1) with (S (m + 1)) by lia.
    rewrite range_S_r by lia. rewrite lev_loop_app.
    pose proof (@lev_loop_lengths _ _ r order (range 1 (m + 1)) _
                  (lev_init_lengths g r order)) as HL.
    rewrite spec_levinson_S.
    destruct (lev_loop r order (range 1 (m + 1)) (lev_init g r order))
      as [[[a t] k] e].
    destruct (spec_levinson r m) as [[sa se] ks].
    destruct IH as (Ha & Hk & ->).
    unfold lev_loop. cbn [fold_left].
    replace (m + 1) with (S m) in * by lia.
    assert (Hi : 1 <= S m <= order) by lia.
    replace m with (S m - 1) in Hk by lia.
    pose proof (@lev_body_refines r order (S m) a t k se sa ks Hi HL Ha Hk) as H.
    destruct (lev_body r order (S m) (a, t, k, se)) as [[[a' t'] k'] e'].
    destruct (spec_step r (S m) sa se) as [[sa' se'] sk].
    replace (S m + 1) with (S (S m)) in H by lia. exact H.
Qed.

Lemma agree_upto_eq n (a sa : list T) :
  length a = n -> agree_upto n a sa -> a = sa.
Proof.
  intros La [Ls H]. apply (nth_ext _ _ s_zero s_zero); [lia|].
  intros j Hj. apply H. lia.
Qed.

(** The solver returns what the specified recursion computes. *)
Lemma run_levinson_spec g r order :
  levinson_pre r order ->
  run_levinson g r order = Ok (spec_levinson r order).
Proof.
  intros Hpre. unfold run_levinson.
  rewrite levinson_1d_ok by exact Hpre.
  change (deref [r] 0) with r.
  pose proof (@lev_loop_refines g r order order (le_n _)) as H.
  pose proof (@lev_loop_lengths _ _ r order (range 1 (order + 1)) _
                (lev_init_lengths g r order)) as HL.
  destruct (lev_loop r order (range 1 (order + 1)) (lev_init g r order))
    as [[[a t] k] e].
  destruct (spec_levinson r order) as [[sa se] ks].
  destruct H as (Ha & Hk & ->). destruct HL as (La & Lt & Lk).
  cbn [length]. unfold deref.
  change (nth 1 ([r] ++ [a; t; k]) []) with a.
  change (nth (1 + 2) ([r] ++ [a; t; k]) []) with k.
  rewrite (agree_upto_eq La Ha), (agree_upto_eq Lk Hk). reflexivity.
Qed.

Lemma spec_levinson_head r order :
  nth 0 (fst (fst (spec_levinson r order))) s_zero = s_one.
Proof.
  induction order as [|m IH]; [reflexivity|].
  rewrite spec_levinson_S.
  destruct (spec_levinson r m) as [[a e] ks]. cbn [fst] in IH.
  unfold spec_step. cbn. exact IH.
Qed.
End LevinsonRefines.

(** ** Validation and result of the solver *)

Section LevinsonClaims.
Context {T : Type} {ST : Scalar T}.

Lemma spec_levinson_lengths (r : list T) order :
  length (fst (fst (spec_levinson r order))) = order + 1
  /\ length (snd (spec_levinson r order)) = order.
Proof.
  induction order as [|m IH]; [split; reflexivity|].
  rewrite spec_levinson_S.
  destruct (spec_levinson r m) as [[a e] ks]. cbn [fst snd] in IH.
  pose proof (@spec_step_length _ _ r (S m) a e ltac:(lia)) as H.
  destruct (spec_step r (S m) a e) as [[a' e'] k]. cbn [fst snd] in *.
  rewrite length_app. simpl. lia.
Qed.

Lemma levinson_pre_iff (r : list T) order :
  levinson_pre r order <-> ~ levinson_rejects r order.
Proof.
  unfold levinson_pre, levinson_rejects. split.
  - intros (Hn & Hreal & Hfin) [Ho | (r0 & Hr0 & Hbad)]; [lia|].
    destruct r as [|x r]; [discriminate|]. simpl in *.
    inversion Hr0; subst x.
    destruct Hbad as [Hb | Hb]; [congruence|].
    apply s_recip_finite_spec in Hb. congruence.
  - intros Hno.
    assert (Hn : order + 1 <= length r).
    { destruct (le_dec (order + 1) (length r)); auto.
      exfalso. apply Hno. left. lia. }
    split; [exact Hn|].
    destruct r as [|x r]; [simpl in Hn; lia|]. simpl.
    split.
    + destruct (s_isreal x) eqn:E; auto.
      exfalso. apply Hno. right. exists x. auto.
    + destruct (s_recip_finite x) eqn:E; auto.
      exfalso. apply Hno. right. exists x. split; auto.
      right. now apply s_recip_finite_spec.
Qed.

Lemma run_levinson_raise g (r : list T) order :
  ~ levinson_pre r order ->
  exists msg, run_levinson g r order = Raise (ValueError msg).
Proof.
  intros H. unfold run_levinson.
  destruct (@levinson_1d_raise _ _ g [r] 0 order H) as [msg ->].
  now exists msg.
Qed.
End LevinsonClaims.

(** C5. For every autocorrelation vector satisfying the preconditions
    ([r[0]] real with a finite reciprocal, [order <= n-1]) the solver returns
    exactly what the specified Levinson-Durbin recursion computes: starting
    from [a[0] = 1] and [e = r[0]], step [i] takes
    [k[i] = -(r[i] + sum_{j=1}^{i-1} a[j]*r[i-j]) / e], replaces [a[j]] by
    [a[j] + k[i]*conj(a[i-j])] for [j = 1..i-1] computed from the
    coefficients before the step, sets [a[i] = k[i]] and multiplies [e] by
    [1 - k[i]*conj(k[i])].  This holds whatever the uninitialised arrays
    contained, and the returned coefficients start with 1. *)
Theorem levinson_1d_computes_recursion
        {T : Type} {ST : Scalar T} (g : garbage T) (r : list T) (order : nat) :
  levinson_pre r order ->
  exists a e k,
    run_levinson g r order = Ok (a, e, k)
    /\ (a, e, k) = spec_levinson r order
    /\ nth_error a 0 = Some s_one
    /\ length a = order + 1 /\ length k = order.
Proof.
  intros Hpre.
  destruct (spec_levinson r order) as [[a e] k] eqn:E.
  exists a, e, k.
  pose proof (spec_levinson_head r order) as Hh.
  pose proof (spec_levinson_lengths r order) as [La Lk].
  rewrite E in Hh, La, Lk. cbn [fst snd] in *.
  split; [rewrite (run_levinson_spec g Hpre); now rewrite E|].
  split; [reflexivity|].
  split; [|split; assumption].
  rewrite (nth_error_nth_lt a s_zero) by lia. now rewrite Hh.
Qed.

Lemma levinson_pre_example : levinson_pre [2%R; 1%R] 1.
Proof.
  unfold levinson_pre. simpl. repeat split; auto.
  unfold Req_bool. destruct (Req_dec_T 2 0) as [E|_]; [exfalso; lra|reflexivity].
Defined.

Lemma levinson_1d_computes_recursion_witness :
  exists a e k,
    run_levinson zero_garbage [2%R; 1%R] 1 = Ok (a, e, k)
    /\ (a, e, k) = spec_levinson [2%R; 1%R] 1
    /\ nth_error a 0 = Some s_one
    /\ length a = 1 + 1 /\ length k = 1.
Proof.
  exact (levinson_1d_computes_recursion zero_garbage levinson_pre_example).
Defined.

(** C7. The solver fails with an invalid-input error ([ValueError]) exactly
    when [order] exceeds [n-1] (which covers the empty vector), or [r[0]] is
    not real, or the reciprocal of [r[0]] is not finite, that is [r[0]] is
    zero; on every other input it returns a prediction model. *)
Theorem levinson_1d_validation
        {T : Type} {ST : Scalar T} (g : garbage T) (r : list T) (order : nat) :
  ((exists msg, run_levinson g r order = Raise (ValueError msg))
   <-> levinson_rejects r order)
  /\ ((exists model, run_levinson g r order = Ok model)
      <-> ~ levinson_rejects r order).
Proof.
  destruct (levinson_pre_dec r order) as [Hpre | Hnpre].
  - pose proof (run_levinson_spec g Hpre) as Hrun.
    pose proof (proj1 (levinson_pre_iff r order) Hpre) as Hno.
    split; split.
    + intros [msg Hm]. congruence.
    + intros Hrej. contradiction.
    + intros _. exact Hno.
    + intros _. eexists. exact Hrun.
  - destruct (run_levinson_raise g Hnpre) as [msg Hm].
    assert (Hrej : levinson_rejects r order).
    { unfold levinson_rejects.
      destruct (Z_gt_dec (Z.of_nat order) (Z.of_nat (length r) - 1)) as [|Hle];
        [now left|].
      destruct r as [|x r]; [cbn [length] in Hle; lia|].
      right. exists x. split; [reflexivity|].
      destruct (s_isreal x) eqn:E1; [|now left].
      destruct (s_recip_finite x) eqn:E2.
      - exfalso. apply Hnpre. unfold levinson_pre. cbn [length nth] in *.
        repeat split; auto. lia.
      - right. now apply s_recip_finite_spec. }
    split; split.
    + intros _. exact Hrej.
    + intros _. now exists msg.
    + intros [model Hok]. congruence.
    + intros Hno. contradiction.
Qed.

(** ** Effects on the caller's store *)

Lemma levinson_1d_frame {T : Type} {ST : Scalar T}
      (g : garbage T) (h : heap T) (r : loc) (order : nat) :
  (exists msg, levinson_1d g r order h = (Raise (ValueError msg), h))
  \/ (exists a t k e,
        levinson_1d g r order h
        = (Ok (length h, e, length h + 2), h ++ [a; t; k])
        /\ length a = order + 1 /\ length k = order).
Proof.
  destruct (levinson_pre_dec (deref h r) order) as [Hpre | Hnpre].
  - right. rewrite (levinson_1d_ok g h r Hpre).
    pose proof (@lev_loop_lengths _ _ (deref h r) order (range 1 (order + 1)) _
                  (lev_init_lengths g (deref h r) order)) as HL.
    destruct (lev_loop _ _ _ _) as [[[a t] k] e].
    destruct HL as (La & _ & Lk). now exists a, t, k, e.
  - left. now apply levinson_1d_raise.
Qed.

(** C10. Neither [acorr_lpc] nor [levinson_1d] writes to an array of the
    caller: after the call every array the store held before is unchanged,
    the frame and the autocorrelation vector included, and the arrays that
    are returned sit at locations the store did not have before. *)
Theorem acorr_lpc_levinson_1d_preserve_inputs :
  (forall (h : heap R) (x : loc),
      let '(res, h') := acorr_lpc x h in
      (forall l, l < length h -> deref h' l = deref h l)
      /\ exists a, res = Ok a /\ length h <= a < length h')
  /\
  (forall (T : Type) (ST : Scalar T) (g : garbage T) (h : heap T)
          (r : loc) (order : nat),
      let '(res, h') := levinson_1d g r order h in
      (forall l, l < length h -> deref h' l = deref h l)
      /\ match res with
         | Ok (a, _, k) =>
             length h <= a < length h' /\ length h <= k < length h' /\ a <> k
         | Raise _ => True
         end).
Proof.
  split.
  - intros h x. unfold acorr_lpc, alloc. split.
    + intros l Hl. now apply deref_app_l.
    + exists (length h). split; [reflexivity|].
      rewrite length_app. simpl. lia.
  - intros T ST g h r order.
    destruct (levinson_1d_frame g h r order)
      as [[msg ->] | (a & t & k & e & -> & _)].
    + split; auto.
    + split.
      * intros l Hl. now apply deref_app_l.
      * rewrite length_app. simpl. lia.
Qed.

(** ** The constructors *)

(** C4, on the code: [LpcFormants.__init__] passes the literal ['gaussian']
    to the base initialiser, so an extractor built with ['hann'] is
    configured like one built with ['gaussian']: gaussian window and doubled
    window length.  The base initialiser alone keeps ['hann'] and the length
    as given. *)
Theorem LpcFormants_init_ignores_window_shape :
  (forall max_freq n win_len time_step shape,
      LpcFormants_init max_freq n win_len time_step shape
      = Formants_init max_freq n win_len time_step "gaussian")
  /\ _window_shape (LpcFormants_init 5000 2 0.025 0.01 "hann") = "gaussian"%string
  /\ _win_len (LpcFormants_init 5000 2 0.025 0.01 "hann") = (0.025 * 2)%R
  /\ (forall nperseg,
        analysis_window
          (_window_shape (LpcFormants_init 5000 2 0.025 0.01 "hann")) nperseg
        = analysis_window "gaussian" nperseg)
  /\ _window_shape (Formants_init 5000 2 0.025 0.01 "hann") = "hann"%string
  /\ _win_len (Formants_init 5000 2 0.025 0.01 "hann") = 0.025%R.
Proof.
  repeat split.
Qed.

(** ** Sorting by insertion *)

Section SortBy.
Context {A : Type} (key : A -> R).

Lemma insert_by_perm (i : A) (l : list A) :
  Permutation (insert_by key i l) (i :: l).
Proof.
  induction l as [|j l IH]; simpl; auto.
  destruct (Rle_dec (key i) (key j)); auto.
  rewrite IH. apply perm_swap.
Qed.

Lemma sort_by_perm (l : list A) : Permutation (sort_by key l) l.
Proof.
  induction l as [|i l IH]; simpl; auto.
  rewrite insert_by_perm. now constructor.
Qed.

Lemma insert_by_sorted (i : A) (l : list A) :
  StronglySorted (key_le key) l -> StronglySorted (key_le key) (insert_by key i l).
Proof.
  induction 1 as [|j l Hs IH Hall]; simpl.
  - repeat constructor.
  - destruct (Rle_dec (key i) (key j)) as [Hle | Hnle].
    + constructor; [now constructor|].
      constructor; auto.
      eapply Forall_impl; [|exact Hall].
      intros b Hb. unfold key_le in *. lra.
    + constructor; auto.
      eapply Permutation_Forall; [symmetry; apply insert_by_perm|].
      constructor; auto. unfold key_le. lra.
Qed.

Lemma sort_by_sorted (l : list A) : StronglySorted (key_le key) (sort_by key l).
Proof.
  induction l as [|i l IH]; simpl; [constructor|].
  now apply insert_by_sorted.
Qed.

Lemma sorted_map_key (l : list A) :
  StronglySorted (key_le key) l -> StronglySorted Rle (map key l).
Proof.
  induction 1 as [|j l Hs IH Hall]; simpl; constructor; auto.
  rewrite Forall_map. exact Hall.
Qed.
End SortBy.

Lemma Permutation_filter {A} (f : A -> bool) (l l' : list A) :
  Permutation l l' -> Permutation (filter f l) (filter f l').
Proof.
  induction 1 as [|x l l' H IH|x y l|l l' l'' H1 IH1 H2 IH2]; simpl; auto.
  - destruct (f x); auto.
  - destruct (f x), (f y); auto. apply perm_swap.
  - now rewrite IH1.
Qed.

Lemma combine_map_same {A B D} (f : A -> B) (h : A -> D) (l : list A) :
  combine (map f l) (map h l) = map (fun i => (f i, h i)) l.
Proof.
  induction l as [|x l IH]; simpl; auto. now rewrite IH.
Qed.

Lemma map_nth_seq {A B} (f : A -> B) (l : list A) (d : A) :
  map (fun i => f (nth i l d)) (seq 0 (length l)) = map f l.
Proof.
  induction l as [|x l IH]; simpl; auto.
  f_equal. rewrite <- seq_shift, map_map. exact IH.
Qed.

(** ** One frame: candidates *)

Local Open Scope R_scope.

Lemma frame_candidates_as_map (new_sr : R) (rts0 : list C) :
  frame_candidates new_sr rts0
  = map (fun i => candidate_of_root new_sr (nth i (retained_roots rts0) Czero))
        (argsort (map (fun a => a * (new_sr / (2 * PI)))
                      (map (fun r => np_arctan2 (Cim r) (Cre r))
                           (retained_roots rts0)))).
Proof.
  unfold frame_candidates. rewrite combine_map_same.
  set (rts := retained_roots rts0).
  set (frqs0 := map _ (map _ rts)).
  apply map_ext_in. intros i Hi. unfold candidate_of_root. f_equal.
  assert (Hlt : (i < length rts)%nat).
  { unfold argsort in Hi.
    apply (Permutation_in _ (sort_by_perm _ _)) in Hi.
    apply in_seq in Hi. unfold frqs0 in Hi. rewrite !length_map in Hi. lia. }
  unfold frqs0. rewrite map_map.
  rewrite (nth_indep _ 0 ((fun r => np_arctan2 (Cim r) (Cre r) * (new_sr / (2 * PI))) Czero))
    by (rewrite length_map; exact Hlt).
  exact (map_nth (fun r => np_arctan2 (Cim r) (Cre r) * (new_sr / (2 * PI)))
                 rts Czero i).
Qed.

Lemma frame_candidates_perm (new_sr : R) (rts0 : list C) :
  Permutation (frame_candidates new_sr rts0)
              (map (candidate_of_root new_sr) (retained_roots rts0)).
Proof.
  rewrite frame_candidates_as_map.
  set (rts := retained_roots rts0).
  rewrite <- (map_nth_seq (candidate_of_root new_sr) rts Czero).
  apply Permutation_map. unfold argsort.
  rewrite !length_map. apply sort_by_perm.
Qed.

Lemma frame_candidates_sorted (new_sr : R) (rts0 : list C) :
  StronglySorted Rle (map fst (frame_candidates new_sr rts0)).
Proof.
  unfold frame_candidates.
  set (rts := retained_roots rts0).
  set (frqs0 := map _ (map _ rts)).
  set (inds := argsort frqs0).
  assert (E : forall (l1 : list R) (l2 : list R),
             length l1 = length l2 -> map fst (combine l1 l2) = l1).
  { induction l1 as [|a l1 IH]; intros [|b l2] HL; simpl in *; try lia; auto.
    f_equal. apply IH. lia. }
  rewrite E by (now rewrite !length_map).
  apply (@sorted_map_key _ (fun i => nth i frqs0 0)).
  apply sort_by_sorted.
Qed.

Lemma retained_roots_In (rts0 : list C) (r : C) :
  In r (retained_roots rts0) <-> In r rts0 /\ 0 <= Cim r.
Proof.
  unfold retained_roots. rewrite filter_In. unfold Rle_bool.
  destruct (Rle_dec 0 (Cim r)); intuition congruence.
Qed.

(** C2, as the code has it.  Each retained root (non-negative imaginary
    part) yields one candidate with frequency
    [atan2(Im r, Re r) * workingRate/(2 pi)] and bandwidth
    [-1/2 * (workingRate/(2 pi)) * ln |r|], and the candidates are in
    ascending order of frequency. *)
Theorem frame_candidates_spec (new_sr : R) (rts0 : list C) :
  Permutation (frame_candidates new_sr rts0)
              (map (candidate_of_root new_sr) (retained_roots rts0))
  /\ (forall r, In r (retained_roots rts0) <-> In r rts0 /\ 0 <= Cim r)
  /\ (forall r, candidate_of_root new_sr r
                = (np_arctan2 (Cim r) (Cre r) * (new_sr / (2 * PI)),
                   -1 / 2 * (new_sr / (2 * PI)) * ln (Cabs r)))
  /\ StronglySorted Rle (map fst (frame_candidates new_sr rts0)).
Proof.
  split; [apply frame_candidates_perm|].
  split; [apply retained_roots_In|].
  split; [reflexivity|apply frame_candidates_sorted].
Qed.

Lemma Rle_bool_true (x y : R) : x <= y -> Rle_bool x y = true.
Proof. intros H. unfold Rle_bool. destruct (Rle_dec x y); auto; contradiction. Qed.

Lemma Rle_bool_false (x y : R) : y < x -> Rle_bool x y = false.
Proof. intros H. unfold Rle_bool. destruct (Rle_dec x y); auto; lra. Qed.

Lemma Rlt_bool_true (x y : R) : x < y -> Rlt_bool x y = true.
Proof. intros H. unfold Rlt_bool. destruct (Rlt_dec x y); auto; contradiction. Qed.

Lemma Rlt_bool_false (x y : R) : y <= x -> Rlt_bool x y = false.
Proof. intros H. unfold Rlt_bool. destruct (Rlt_dec x y); auto; lra. Qed.

Lemma frame_candidates_single (new_sr : R) (r : C) :
  0 <= Cim r ->
  frame_candidates new_sr [r] = [candidate_of_root new_sr r].
Proof.
  intros H. rewrite frame_candidates_as_map. unfold retained_roots.
  cbn [filter]. rewrite Rle_bool_true by exact H. reflexivity.
Qed.

(** C2 as stated fails: for the root [0.5i] at a working rate of 10000 Hz
    the bandwidth the code stores is not [-(workingRate/(2 pi)) * ln |r|]
    (it is half of that). *)
Lemma frame_candidates_bandwidth_counterexample :
  exists f b,
    frame_candidates 10000 [(0, 1 / 2)] = [(f, b)]
    /\ b <> - (10000 / (2 * PI)) * ln (Cabs (0, 1 / 2)).
Proof.
  rewrite frame_candidates_single by (unfold Cim; simpl; lra).
  unfold candidate_of_root. eexists. eexists. split; [reflexivity|].
  assert (Hpi := PI_RGT_0).
  assert (Habs : Cabs (0, 1 / 2) = 1 / 2).
  { unfold Cabs, Cnorm2. simpl.
    replace (0 * 0 + 1 / 2 * (1 / 2)) with ((1 / 2) * (1 / 2)) by lra.
    apply sqrt_square. lra. }
  rewrite Habs.
  assert (Hln : ln (1 / 2) <> 0) by (apply ln_neq_0; lra).
  assert (HK : 10000 / (2 * PI) <> 0).
  { apply Rmult_integral_contrapositive_currified; [lra|].
    apply Rinv_neq_0_compat. lra. }
  intros E.
  assert (E' : (10000 / (2 * PI)) * ln (1 / 2) = 0) by lra.
  apply Rmult_integral in E'. tauto.
Qed.

Local Close Scope R_scope.

(** ** One frame: the number of formants *)

Local Open Scope R_scope.

Lemma np_arctan2_real (x : R) :
  np_arctan2 0 x = 0 \/ np_arctan2 0 x = PI.
Proof.
  unfold np_arctan2.
  destruct (Rlt_dec 0 x) as [Hx|Hx].
  - left. unfold Rdiv. rewrite Rmult_0_l. apply atan_0.
  - destruct (Rlt_dec x 0) as [Hx'|Hx'].
    + right. destruct (Rle_dec 0 0) as [_|H0]; [|exfalso; lra].
      unfold Rdiv. rewrite Rmult_0_l, atan_0. lra.
    + left. destruct (Rlt_dec 0 0) as [H0|_]; [exfalso; lra|]. reflexivity.
Qed.

(** A real root lands on frequency 0 or on [max_freq]; both are outside
    the band the loop keeps. *)
Lemma real_root_out_of_band (max_freq : R) (r : C) :
  Cim r = 0 ->
  in_band max_freq (fst (candidate_of_root (2 * max_freq) r)) = false.
Proof.
  intros Him. unfold candidate_of_root, in_band. cbn [fst]. rewrite Him.
  assert (Hpi := PI_RGT_0).
  destruct (np_arctan2_real (Cre r)) as [-> | ->].
  - rewrite Rmult_0_l. rewrite Rlt_bool_true by lra. reflexivity.
  - replace (PI * (2 * max_freq / (2 * PI))) with max_freq by (field; lra).
    rewrite (@Rlt_bool_true (max_freq - 50) max_freq) by lra.
    apply andb_false_r.
Qed.

Lemma filter_length_le {A} (f h : A -> bool) (l : list A) :
  (forall x, In x l -> f x = true -> h x = true) ->
  (length (filter f l) <= length (filter h l))%nat.
Proof.
  induction l as [|x l IH]; intros H; simpl; auto.
  assert (IH' : (length (filter f l) <= length (filter h l))%nat).
  { apply IH. intros y Hy. apply H. now right. }
  destruct (f x) eqn:Ef.
  - rewrite (H x (or_introl eq_refl) Ef). simpl. lia.
  - destruct (h x); simpl; lia.
Qed.

Lemma filter_map_length {A B} (f : B -> bool) (h : A -> B) (l : list A) :
  length (filter f (map h l)) = length (filter (fun x => f (h x)) l).
Proof.
  induction l as [|x l IH]; simpl; auto.
  destruct (f (h x)); simpl; now rewrite IH.
Qed.

Lemma filter_filter_andb {A} (f h : A -> bool) (l : list A) :
  filter f (filter h l) = filter (fun x => f x && h x) l.
Proof.
  induction l as [|x l IH]; simpl; auto.
  destruct (h x); simpl.
  - rewrite andb_true_r. destruct (f x); now rewrite IH.
  - now rewrite andb_false_r.
Qed.

Lemma upper_lower_disjoint (l : list C) :
  (length (filter upper_half l) + length (filter lower_half l) <= length l)%nat.
Proof.
  induction l as [|r l IH]; simpl; auto.
  unfold upper_half at 1, lower_half at 1, Rlt_bool.
  destruct (Rlt_dec 0 (Cim r)), (Rlt_dec (Cim r) 0); simpl; try lia.
  exfalso; lra.
Qed.

Lemma conjugate_closed_upper_half (rts : list C) :
  conjugate_closed rts ->
  (2 * length (filter upper_half rts) <= length rts)%nat.
Proof.
  intros Hc.
  assert (E : length (filter upper_half rts) = length (filter lower_half rts)).
  { rewrite <- (Permutation_length (Permutation_filter upper_half Hc)).
    rewrite filter_map_length. f_equal. apply filter_ext.
    intros [x y]. unfold upper_half, lower_half, Cconj, Cim, Rlt_bool. simpl.
    destruct (Rlt_dec 0 (- y)), (Rlt_dec y 0); auto; exfalso; lra. }
  pose proof (upper_lower_disjoint rts). lia.
Qed.

Lemma frame_formants_length_gen (max_freq new_sr : R) (n : nat) (rts0 : list C) :
  length (frame_formants max_freq new_sr n rts0)
  = Nat.max n (length (survivors max_freq new_sr rts0)).
Proof.
  unfold frame_formants. fold (survivors max_freq new_sr rts0).
  rewrite length_map.
  set (L := length (survivors max_freq new_sr rts0)).
  destruct (Z.eqb_spec (Z.of_nat n - Z.of_nat L) 0) as [E|E].
  - rewrite length_map. fold L. lia.
  - rewrite length_app, repeat_length, length_map. fold L. lia.
Qed.

Lemma survivors_upper_half (max_freq : R) (rts0 : list C) :
  (length (survivors max_freq (2 * max_freq) rts0)
   <= length (filter upper_half rts0))%nat.
Proof.
  unfold survivors.
  rewrite (Permutation_length
             (Permutation_filter _ (frame_candidates_perm (2 * max_freq) rts0))).
  rewrite filter_map_length. unfold retained_roots.
  rewrite filter_filter_andb.
  apply filter_length_le. intros r _ H.
  apply andb_true_iff in H. destruct H as [Hband Hret].
  unfold upper_half. apply Rlt_bool_true.
  unfold Rle_bool in Hret. destruct (Rle_dec 0 (Cim r)) as [Hle|]; [|discriminate].
  destruct (Req_dec_T (Cim r) 0) as [E0|Hne]; [|lra].
  rewrite (real_root_out_of_band max_freq r E0) in Hband. discriminate.
Qed.

Lemma frame_formants_length (max_freq : R) (n : nat) (rts0 : list C) :
  conjugate_closed rts0 -> (length rts0 <= 2 * n)%nat ->
  length (frame_formants max_freq (2 * max_freq) n rts0) = n.
Proof.
  intros Hc Hl. rewrite frame_formants_length_gen.
  pose proof (survivors_upper_half max_freq rts0).
  pose proof (conjugate_closed_upper_half Hc). lia.
Qed.

Local Close Scope R_scope.

(** ** The extraction loop *)

Lemma run_lpc_length (g : garbage R) (X : list R) (order : nat) a e k :
  run_lpc g X order = Ok (a, e, k) -> length a = order + 1 /\ length k = order.
Proof.
  unfold run_lpc, lpc, size. unfold bind at 1.
  destruct (length (deref [X] 0) <? order); [discriminate|].
  unfold bind at 1. unfold acorr_lpc, alloc.
  set (h := [X] ++ [acorr_lpc_values (deref [X] 0)]).
  destruct (levinson_1d_frame g h (length [X]) order)
    as [[msg ->] | (a' & t' & k' & e' & -> & La & Lk)]; [discriminate|].
  intros E. inversion E; subst. unfold deref. simpl. auto.
Qed.

Lemma filter_sorted {A} (R0 : A -> A -> Prop) (f : A -> bool) (l : list A) :
  StronglySorted R0 l -> StronglySorted R0 (filter f l).
Proof.
  induction 1 as [|x l Hs IH Hall]; simpl; [constructor|].
  destruct (f x); auto. constructor; auto.
  apply Forall_forall. intros y Hy. apply filter_In in Hy.
  rewrite Forall_forall in Hall. apply Hall. tauto.
Qed.

Lemma survivors_sorted (max_freq new_sr : R) (rts0 : list C) :
  StronglySorted Rle (map fst (survivors max_freq new_sr rts0)).
Proof.
  unfold survivors.
  pose proof (frame_candidates_sorted new_sr rts0) as Hs.
  induction (frame_candidates new_sr rts0) as [|[f b] l IH]; simpl;
    [constructor|].
  inversion Hs as [|? ? Hs' Hall]; subst.
  destruct (in_band max_freq f); simpl; auto.
  constructor; auto.
  apply Forall_forall. intros y Hy. apply in_map_iff in Hy.
  destruct Hy as [[f' b'] [<- Hin]]. apply filter_In in Hin.
  rewrite Forall_forall in Hall. apply Hall. apply in_map_iff.
  exists (f', b'). tauto.
Qed.

Lemma frame_formants_padded (max_freq : R) (n : nat) (rts0 : list C) :
  conjugate_closed rts0 -> length rts0 <= 2 * n ->
  padded_frame n (frame_formants max_freq (2 * max_freq) n rts0).
Proof.
  intros Hc Hl.
  pose proof (survivors_upper_half max_freq rts0) as H1.
  pose proof (conjugate_closed_upper_half Hc) as H2.
  exists (survivors max_freq (2 * max_freq) rts0).
  split; [|split; [lia | apply survivors_sorted]].
  unfold frame_formants. fold (survivors max_freq (2 * max_freq) rts0).
  rewrite length_map.
  set (L := length (survivors max_freq (2 * max_freq) rts0)) in *.
  destruct (Z.eqb_spec (Z.of_nat n - Z.of_nat L) 0) as [E|E].
  - replace (n - L) with 0 by lia. simpl. now rewrite app_nil_r.
  - f_equal. f_equal. lia.
Qed.

Lemma padded_frame_length (n : nat) (frame : FormantFrame) :
  padded_frame n frame -> length frame = n.
Proof.
  intros (found & -> & Hle & _).
  rewrite length_app, length_map, repeat_length. lia.
Qed.

Section ProcessFacts.
Variable np_roots : list R -> list C.
Variable g : garbage R.
Hypothesis Hroots : root_finder_ok np_roots.

Lemma process_frame_padded self proc window nperseg idx frame :
  process_frame np_roots g self proc window nperseg
                (2 * snd (_freq_lims self)) idx = Ok frame ->
  padded_frame (_num_formants self) frame.
Proof.
  unfold process_frame.
  destruct (np_mul _ window) as [X|]; [|discriminate]. cbn [rbind].
  destruct (run_lpc g X (_num_formants self * 2)) as [[[a e] k]|] eqn:E;
    [|discriminate].
  cbn [rbind fst]. intros H. inversion H; subst; clear H.
  apply run_lpc_length in E. destruct E as [La _].
  destruct (Hroots a) as [Hlen Hc].
  apply frame_formants_padded; auto. lia.
Qed.

Lemma dict_set_Forall {V} (P : R * V -> Prop) key (v : V) d :
  Forall P d -> (forall k', P (k', v)) -> Forall P (dict_set key v d).
Proof.
  intros Hd Hv. induction Hd as [|[k' v'] d Hk Hd IH]; simpl.
  - constructor; auto.
  - destruct (Req_dec_T k' key); constructor; auto.
Qed.

Lemma process_frames_padded self proc window nperseg indices rep track :
  Forall (fun kv => padded_frame (_num_formants self) (snd kv)) rep ->
  process_frames np_roots g self proc window nperseg
                 (2 * snd (_freq_lims self)) indices rep = Ok track ->
  Forall (fun kv => padded_frame (_num_formants self) (snd kv)) track.
Proof.
  revert rep. induction indices as [|idx rest IH]; intros rep Hrep; simpl.
  - intros H; inversion H; subst; auto.
  - destruct (process_frame np_roots g self proc window nperseg
                            (2 * snd (_freq_lims self)) idx) as [fr|] eqn:E;
      [|discriminate].
    cbn [rbind]. apply IH.
    apply dict_set_Forall; auto.
    intros k'. cbn [snd]. eapply process_frame_padded; eauto.
Qed.

Lemma process_padded self proc track :
  process np_roots g self proc = Ok track ->
  Forall (fun kv => padded_frame (_num_formants self) (snd kv)) track.
Proof.
  unfold process.
  destruct (analysis_window _ _) as [window|]; [|discriminate]. cbn [rbind].
  destruct (np_arange _ _ _) as [indices|]; [|discriminate]. cbn [rbind].
  apply process_frames_padded. constructor.
Qed.
End ProcessFacts.

Lemma quadratic_roots_ok : root_finder_ok quadratic_roots.
Proof.
  intros A. unfold quadratic_roots, conjugate_closed.
  destruct A as [|a [|b [|c [|x A]]]]; simpl; auto; try (split; [lia|constructor]).
  destruct (Req_dec_T a 0); [split; simpl; auto; constructor|].
  destruct (Rle_dec 0 (b * b - 4 * a * c)); simpl; (split; [lia|]).
  - unfold Cconj; simpl. rewrite Ropp_0. apply Permutation_refl.
  - unfold Cconj; simpl. rewrite Ropp_involutive. apply perm_swap.
Defined.

Lemma dict_get_Some_In {V} (d : list (R * V)) (t : R) (v : V) :
  dict_get t d = Some v -> exists k, In (k, v) d.
Proof.
  induction d as [|[k' v'] d IH]; simpl; [discriminate|].
  destruct (Req_dec_T k' t).
  - intros E. injection E as <-. exists k'. now left.
  - intros E. destruct (IH E) as [k Hk]. exists k. now right.
Qed.

(** C1. Whenever the root finder returns at most as many roots as the
    degree and complex roots in conjugate pairs, every frame recorded under
    a time key by a completed extraction has exactly [num_formants] entries:
    the formants found, at most [num_formants] of them and in ascending
    frequency, then missing sentinels up to [num_formants]. *)
Theorem process_frames_have_num_formants
        (np_roots : list R -> list C) (g : garbage R)
        (self : Formants) (proc : list R)
        (track : FormantTrack) (t : R) (frame : FormantFrame) :
  root_finder_ok np_roots ->
  process np_roots g self proc = Ok track ->
  dict_get t track = Some frame ->
  length frame = _num_formants self
  /\ padded_frame (_num_formants self) frame.
Proof.
  intros Hroots Hrun Hget.
  pose proof (@process_padded np_roots g Hroots _ _ _ Hrun) as Hall.
  destruct (dict_get_Some_In _ _ Hget) as [k Hk].
  rewrite Forall_forall in Hall. specialize (Hall _ Hk). cbn [snd] in Hall.
  split; auto. now apply padded_frame_length.
Qed.

(** ** Signals shorter than the window *)

Local Open Scope R_scope.

Lemma Rtrunc_IZR (z : Z) : Rtrunc (IZR z) = z.
Proof.
  unfold Rtrunc. destruct (Rle_dec 0 (IZR z)).
  - apply ZfloorZ.
  - unfold Zceil. rewrite <- opp_IZR, ZfloorZ. lia.
Qed.

Lemma gaussian_length (M : Z) (std : R) (w : list R) :
  gaussian M std = Ok w -> length w = Z.to_nat M.
Proof.
  unfold gaussian.
  destruct (M <? 0)%Z; [discriminate|].
  destruct (M <=? 1)%Z; intros E; inversion E; subst.
  - apply repeat_length.
  - now rewrite length_map, length_seq.
Qed.

Lemma py_slice_length {A} (l : list A) (lo hi : Z) :
  (0 <= lo <= hi)%Z -> (hi <= Z.of_nat (length l))%Z ->
  length (py_slice l lo hi) = Z.to_nat (hi - lo).
Proof.
  intros H1 H2. unfold py_slice.
  replace (lo <? 0)%Z with false by (symmetry; apply Z.ltb_ge; lia).
  replace (hi <? 0)%Z with false by (symmetry; apply Z.ltb_ge; lia).
  rewrite length_firstn, length_skipn. lia.
Qed.

Lemma analysis_window_length (shape : string) (nperseg : Z) (w : list R) :
  (0 <= nperseg)%Z ->
  analysis_window shape nperseg = Ok w -> length w = Z.to_nat nperseg.
Proof.
  intros Hn. unfold analysis_window.
  destruct (String.eqb shape "gaussian").
  - destruct (gaussian _ _) as [w0|] eqn:E; [|discriminate]. cbn [rbind].
    intros H; inversion H; subst.
    apply gaussian_length in E.
    rewrite py_slice_length by lia. lia.
  - intros H; inversion H; subst.
    rewrite py_slice_length; try lia.
    unfold hanning.
    replace (nperseg + 2 <? 1)%Z with false by (symmetry; apply Z.ltb_ge; lia).
    replace (nperseg + 2 =? 1)%Z with false by (symmetry; apply Z.eqb_neq; lia).
    rewrite length_map, length_seq. lia.
Qed.

Lemma analysis_window_ok (shape : string) (nperseg : Z) :
  (0 <= nperseg)%Z -> exists w, analysis_window shape nperseg = Ok w.
Proof.
  intros Hn. unfold analysis_window, gaussian.
  destruct (String.eqb shape "gaussian"); [|eexists; reflexivity].
  replace (nperseg + 2 <? 0)%Z with false by (symmetry; apply Z.ltb_ge; lia).
  replace (nperseg + 2 <=? 1)%Z with false by (symmetry; apply Z.leb_gt; lia).
  eexists; reflexivity.
Qed.

Lemma np_arange_empty (start stop step : Z) :
  (0 < step)%Z -> (stop <= start)%Z -> np_arange start stop step = Ok [].
Proof.
  intros Hs Hle. unfold np_arange.
  replace (step =? 0)%Z with false by (symmetry; apply Z.eqb_neq; lia).
  assert (H : (0 <= (- (stop - start)) / step)%Z)
    by (apply Z.div_pos; lia).
  replace (Z.to_nat (- (- (stop - start) / step))) with 0%nat by lia.
  reflexivity.
Qed.

(** With a window of an even number of samples and a positive hop, a signal
    shorter than the window gives the empty track. *)
Lemma process_short_signal_even_window
      (np_roots : list R -> list C) (g : garbage R)
      (self : Formants) (proc : list R) :
  let new_sr := 2 * snd (_freq_lims self) in
  let nperseg := Rtrunc (_win_len self * new_sr) in
  let nperstep := Rtrunc (_time_step self * new_sr) in
  (0 <= nperseg)%Z -> Z.even nperseg = true -> (0 < nperstep)%Z ->
  (Z.of_nat (length proc) < nperseg)%Z ->
  process np_roots g self proc = Ok [].
Proof.
  intros new_sr nperseg nperstep Hn Hev Hstep Hlen.
  unfold process. cbv zeta.
  change (2 * snd (_freq_lims self)) with new_sr.
  change (Rtrunc (_win_len self * new_sr)) with nperseg.
  change (Rtrunc (_time_step self * new_sr)) with nperstep.
  destruct (analysis_window_ok (_window_shape self) Hn) as [w ->]. cbn [rbind].
  rewrite np_arange_empty; auto.
  apply Z.even_spec in Hev. destruct Hev as [q Hq].
  assert (Hh : Z.quot nperseg 2 = q).
  { rewrite Z.quot_div_nonneg by lia. rewrite Hq, Z.mul_comm.
    apply Z.div_mul. lia. }
  lia.
Qed.

(** C9, on the code: a window of three samples (gaussian shape, configured
    length 3/16384 s doubled, at the working rate 8192 Hz) and a signal of
    two samples.  The signal is shorter than the window, yet a frame of two
    samples is cut out and multiplied with the window of three, which numpy
    refuses. *)
Theorem process_short_signal_odd_window
        (np_roots : list R -> list C) (g : garbage R) (x0 x1 : R) :
  let self := LpcFormants_init 4096 2 (3 / 16384) (1 / 8192) "gaussian" in
  Rtrunc (_win_len self * (2 * snd (_freq_lims self))) = 3%Z
  /\ (Z.of_nat (length [x0; x1]) < 3)%Z
  /\ process np_roots g self [x0; x1]
     = Raise (ValueError "operands could not be broadcast together").
Proof.
  cbv zeta. split; [|split; [simpl; lia|]].
  { unfold LpcFormants_init, Formants_init.
    cbn [_freq_lims _win_len snd String.eqb Ascii.eqb Bool.eqb].
    replace (3 / 16384 * 2 * (2 * 4096)) with (IZR 3) by lra.
    apply Rtrunc_IZR. }
  unfold process, LpcFormants_init, Formants_init.
  cbn [_freq_lims _win_len _time_step _window_shape _num_formants snd String.eqb
       Ascii.eqb Bool.eqb].
  replace (3 / 16384 * 2 * (2 * 4096)) with (IZR 3) by lra.
  replace (1 / 8192 * (2 * 4096)) with (IZR 1) by lra.
  rewrite !Rtrunc_IZR.
  unfold analysis_window.
  cbn [String.eqb Ascii.eqb Bool.eqb].
  unfold gaussian. cbn [Z.add Z.ltb Z.leb Z.compare Pos.add Pos.compare
                        Pos.compare_cont Pos.succ Z.to_nat Pos.to_nat
                        Pos.iter_op Nat.add seq map rbind].
  reflexivity.
Qed.

Local Close Scope R_scope.

(** ** Projection of a track to an array *)

Lemma dict_get_In {V} (rep : list (R * V)) (t : R) :
  In t (map fst rep) -> exists v, dict_get t rep = Some v /\ In v (map snd rep).
Proof.
  induction rep as [|[k v] rep IH]; simpl; [tauto|].
  intros [E | H].
  - subst k. destruct (Req_dec_T t t); [|contradiction]. exists v. auto.
  - destruct (Req_dec_T k t); [exists v; auto|].
    destruct (IH H) as (v' & -> & Hin). exists v'. auto.
Qed.

Lemma to_array_rows_ok (rep : FormantTrack) (value : string) (L : nat)
      (times : list R) :
  value = "formant"%string \/ value = "bandwidth"%string ->
  Forall (fun kv => length (snd kv) = L) rep ->
  (forall t, In t times -> In t (map fst rep)) ->
  to_array_rows rep value L times
  = Ok (map (fun t => channel_row value (frame_at rep t)) times).
Proof.
  intros Hv Hall. induction times as [|t rest IH]; intros Hin; simpl; auto.
  rewrite IH by (intros; apply Hin; now right). clear IH.
  destruct (dict_get_In rep t (Hin t (or_introl eq_refl))) as (fr & Hget & Hfr).
  assert (Lfr : length fr = L).
  { apply in_map_iff in Hfr. destruct Hfr as ([k v] & <- & Hkv).
    rewrite Forall_forall in Hall. now apply (Hall (k, v)). }
  unfold to_array_row, channel_row, frame_at. rewrite Hget.
  unfold assign_row.
  destruct Hv as [-> | ->]; cbn [String.eqb Ascii.eqb Bool.eqb];
    rewrite length_map, Lfr, Nat.eqb_refl; reflexivity.
Qed.

(** C8, as the code has it.  For a track with at least one frame, all of
    whose frames have the same number of entries, and a channel among
    ['formant'] and ['bandwidth'], the projection returns one row per
    recorded frame, in ascending order of the time keys; row [i] holds the
    frequencies (or the bandwidths) of the frame with the [i]-th smallest
    key, a missing entry being [nan]. *)
Theorem to_array_rows_by_ascending_time
        (rep : FormantTrack) (value : string) (L : nat) :
  rep <> [] ->
  Forall (fun kv => length (snd kv) = L) rep ->
  value = "formant"%string \/ value = "bandwidth"%string ->
  let times := sort_by (fun t => t) (map fst rep) in
  to_array rep value
  = Ok (map (fun t => channel_row value (frame_at rep t)) times)
  /\ Permutation times (map fst rep)
  /\ StronglySorted Rle times
  /\ length times = length rep
  /\ Forall (fun t => length (channel_row value (frame_at rep t)) = L) times.
Proof.
  intros Hne Hall Hv times.
  assert (Hperm : Permutation times (map fst rep)) by apply sort_by_perm.
  split; [|split; [exact Hperm|split; [|split]]].
  - unfold to_array. destruct rep as [|[k ex] rep']; [contradiction|].
    pose proof (Forall_inv Hall) as Hex. cbn [snd] in Hex. rewrite Hex.
    apply to_array_rows_ok; auto.
    intros t Ht. eapply Permutation_in; [exact Hperm|exact Ht].
  - pose proof (sort_by_sorted (fun t : R => t) (map fst rep)) as Hs.
    apply sorted_map_key in Hs. now rewrite map_id in Hs.
  - rewrite (Permutation_length Hperm). apply length_map.
  - apply Forall_forall. intros t Ht.
    destruct (dict_get_In rep t (Permutation_in _ Hperm Ht)) as (fr & Hget & Hfr).
    apply in_map_iff in Hfr. destruct Hfr as ([k v] & <- & Hkv).
    rewrite Forall_forall in Hall. specialize (Hall _ Hkv).
    unfold frame_at, channel_row. rewrite Hget.
    destruct (String.eqb value "formant"); now rewrite length_map.
Qed.

Lemma to_array_rows_by_ascending_time_witness :
  let rep : FormantTrack :=
    [(2%R, [(Some 700%R, Some 80%R); (None, None)]);
     (1%R, [(Some 500%R, Some 60%R); (Some 1500%R, Some 90%R)])] in
  let times := sort_by (fun t => t) (map fst rep) in
  to_array rep "formant"
  = Ok (map (fun t => channel_row "formant" (frame_at rep t)) times)
  /\ Permutation times (map fst rep)
  /\ StronglySorted Rle times
  /\ length times = length rep
  /\ Forall (fun t => length (channel_row "formant" (frame_at rep t)) = 2) times.
Proof.
  apply to_array_rows_by_ascending_time.
  - discriminate.
  - repeat constructor.
  - left. reflexivity.
Defined.

(** C8 as stated fails on the empty track: [next(iter(...))] has nothing to
    return and the projection raises. *)
Lemma to_array_empty_track_counterexample :
  to_array [] "formant" = Raise StopIteration.
Proof. reflexivity. Qed.

(** ** Finite sums *)

Local Open Scope R_scope.

Lemma Rsum_n_ext (n : nat) (f h : nat -> R) :
  (forall k, (k < n)%nat -> f k = h k) -> Rsum_n n f = Rsum_n n h.
Proof.
  induction n as [|n IH]; intros H; simpl; auto.
  rewrite IH by (intros; apply H; lia). rewrite H by lia. reflexivity.
Qed.

Lemma Rsum_n_zero (n : nat) (f : nat -> R) :
  (forall k, (k < n)%nat -> f k = 0) -> Rsum_n n f = 0.
Proof.
  induction n as [|n IH]; intros H; simpl; auto.
  rewrite IH by (intros; apply H; lia). rewrite H by lia. lra.
Qed.

Lemma Rsum_n_plus (n : nat) (f h : nat -> R) :
  Rsum_n n (fun k => f k + h k) = Rsum_n n f + Rsum_n n h.
Proof.
  induction n as [|n IH]; simpl; [lra|]. rewrite IH. lra.
Qed.

Lemma Rsum_n_scal (n : nat) (c : R) (f : nat -> R) :
  Rsum_n n (fun k => c * f k) = c * Rsum_n n f.
Proof.
  induction n as [|n IH]; simpl; [lra|]. rewrite IH. lra.
Qed.

Lemma Rsum_n_swap (n m : nat) (f : nat -> nat -> R) :
  Rsum_n n (fun j => Rsum_n m (fun l => f j l))
  = Rsum_n m (fun l => Rsum_n n (fun j => f j l)).
Proof.
  induction n as [|n IH]; simpl.
  - symmetry. apply Rsum_n_zero. auto.
  - rewrite IH. now rewrite <- Rsum_n_plus.
Qed.

Lemma Rsum_n_mult (n m : nat) (f h : nat -> R) :
  Rsum_n n f * Rsum_n m h
  = Rsum_n n (fun j => Rsum_n m (fun l => f j * h l)).
Proof.
  induction n as [|n IH]; simpl; [lra|].
  rewrite <- IH, Rsum_n_scal. lra.
Qed.

Lemma Rsum_n_single (n c : nat) (f : nat -> R) :
  (c < n)%nat -> (forall k, (k < n)%nat -> k <> c -> f k = 0) ->
  Rsum_n n f = f c.
Proof.
  induction n as [|n IH]; intros Hc H; [lia|]. simpl.
  destruct (Nat.eq_dec c n) as [->|Hne].
  - rewrite Rsum_n_zero by (intros; apply H; lia). lra.
  - rewrite IH by (try lia; intros; apply H; lia).
    rewrite (H n) by lia. lra.
Qed.

Lemma Rsum_n_trunc (n n' : nat) (f : nat -> R) :
  (n <= n')%nat -> (forall k, (n <= k < n')%nat -> f k = 0) ->
  Rsum_n n' f = Rsum_n n f.
Proof.
  induction n' as [|n' IH]; intros Hle H.
  - now replace n with 0%nat by lia.
  - destruct (Nat.eq_dec n (S n')) as [->|Hne]; [reflexivity|].
    simpl. rewrite IH by (try lia; intros; apply H; lia).
    rewrite (H n') by lia. lra.
Qed.

Lemma Cre_Csum_n (n : nat) (f : nat -> C) :
  Cre (Csum_n n f) = Rsum_n n (fun k => Cre (f k)).
Proof.
  induction n as [|n IH]; simpl; auto. unfold Cadd, Cre in *. simpl.
  now rewrite IH.
Qed.

Lemma Cim_Csum_n (n : nat) (f : nat -> C) :
  Cim (Csum_n n f) = Rsum_n n (fun k => Cim (f k)).
Proof.
  induction n as [|n IH]; simpl; auto. unfold Cadd, Cim in *. simpl.
  now rewrite IH.
Qed.

(** ** Sums of cosines over a full period *)

Lemma sin_period_Z (x : R) (d : Z) : sin (x + 2 * IZR d * PI) = sin x.
Proof.
  destruct (Z_le_gt_dec 0 d) as [H|H].
  - rewrite <- (Z2Nat.id d H), <- INR_IZR_INZ. apply sin_period.
  - rewrite <- (sin_period (x + 2 * IZR d * PI) (Z.to_nat (- d))).
    f_equal. rewrite INR_IZR_INZ, Z2Nat.id by lia. rewrite opp_IZR. lra.
Qed.

Lemma cos_period_Z (x : R) (d : Z) : cos (x + 2 * IZR d * PI) = cos x.
Proof.
  destruct (Z_le_gt_dec 0 d) as [H|H].
  - rewrite <- (Z2Nat.id d H), <- INR_IZR_INZ. apply cos_period.
  - rewrite <- (cos_period (x + 2 * IZR d * PI) (Z.to_nat (- d))).
    f_equal. rewrite INR_IZR_INZ, Z2Nat.id by lia. rewrite opp_IZR. lra.
Qed.

(** [2 sin(t/2) * sum_{k<n} cos(k t) = sin((n - 1/2) t) + sin(t/2)] *)
Lemma cos_sum_telescope (t : R) (n : nat) :
  2 * sin (t / 2) * Rsum_n n (fun k => cos (INR k * t))
  = sin ((INR n - 1 / 2) * t) + sin (t / 2).
Proof.
  induction n as [|n IH].
  - simpl. replace ((0 - 1 / 2) * t) with (- (t / 2)) by lra.
    rewrite sin_neg. lra.
  - cbn [Rsum_n]. rewrite Rmult_plus_distr_l, IH. rewrite S_INR.
    replace ((INR n + 1 - 1 / 2) * t) with (INR n * t + t / 2) by lra.
    replace ((INR n - 1 / 2) * t) with (INR n * t - t / 2) by lra.
    rewrite sin_plus, sin_minus. lra.
Qed.

Lemma cos_sum_no_multiple (n : nat) (d : Z) :
  (0 < n)%nat -> ~ (Z.of_nat n | d)%Z ->
  Rsum_n n (fun k => cos (2 * PI * IZR d * INR k / INR n)) = 0.
Proof.
  intros Hn Hnd.
  assert (Hn0 : INR n <> 0) by (apply not_0_INR; lia).
  set (t := 2 * PI * IZR d / INR n).
  rewrite (@Rsum_n_ext n _ (fun k => cos (INR k * t)))
    by (intros k _; f_equal; unfold t; field; exact Hn0).
  pose proof (cos_sum_telescope t n) as H.
  assert (Hs : sin ((INR n - 1 / 2) * t) = - sin (t / 2)).
  { replace ((INR n - 1 / 2) * t) with (- (t / 2) + 2 * IZR d * PI)
      by (unfold t; field; exact Hn0).
    rewrite sin_period_Z. apply sin_neg. }
  rewrite Hs in H.
  assert (Hsin : sin (t / 2) <> 0).
  { intros E. apply sin_eq_0_0 in E. destruct E as [q Hq].
    apply Hnd. exists q.
    assert (Hpi := PI_RGT_0).
    assert (E : IZR d = IZR q * INR n).
    { unfold t in Hq.
      apply (Rmult_eq_reg_r PI); [|lra].
      replace (IZR d * PI) with (2 * PI * IZR d / INR n / 2 * INR n)
        by (field; exact Hn0).
      rewrite Hq. ring. }
    rewrite INR_IZR_INZ, <- mult_IZR in E. now apply eq_IZR in E. }
  assert (H0 : 2 * sin (t / 2) * Rsum_n n (fun k => cos (INR k * t)) = 0) by lra.
  apply Rmult_integral in H0. destruct H0 as [H0|H0]; [lra|exact H0].
Qed.

Lemma cos_sum_multiple (n : nat) (d : Z) :
  (0 < n)%nat -> (Z.of_nat n | d)%Z ->
  Rsum_n n (fun k => cos (2 * PI * IZR d * INR k / INR n)) = INR n.
Proof.
  intros Hn [q ->].
  assert (Hn0 : INR n <> 0) by (apply not_0_INR; lia).
  rewrite (@Rsum_n_ext n _ (fun _ => 1)).
  - clear. induction n as [|n IH]; [reflexivity|].
    cbn [Rsum_n]. rewrite IH, S_INR. reflexivity.
  - intros k _.
    replace (2 * PI * IZR (q * Z.of_nat n) * INR k / INR n)
      with (0 + 2 * IZR (q * Z.of_nat k) * PI).
    + rewrite cos_period_Z. apply cos_0.
    + rewrite !mult_IZR, <- !INR_IZR_INZ. field. exact Hn0.
Qed.

(** ** The transform of the power spectrum is the autocorrelation *)

Lemma fft_nth (x : list R) (n k : nat) :
  (k < n)%nat ->
  nth k (fft x n) Czero
  = Csum_n n (fun j => Cmul (RtoC (nth j x 0))
                            (Cexpi (- (2 * PI * INR j * INR k / INR n)))).
Proof.
  intros Hk. unfold fft.
  set (F := fun k0 : nat => Csum_n n (fun j => Cmul (RtoC (nth j x 0))
                  (Cexpi (- (2 * PI * INR j * INR k0 / INR n))))).
  rewrite (nth_indep _ Czero (F 0%nat)) by (rewrite length_map, length_seq; lia).
  rewrite (map_nth F), seq_nth by lia. reflexivity.
Qed.

Lemma length_fft (x : list R) (n : nat) : length (fft x n) = n.
Proof. unfold fft. now rewrite length_map, length_seq. Qed.

Lemma Cabs_Cmul_self (z : C) :
  Cabs (Cmul z z) = Cre z * Cre z + Cim z * Cim z.
Proof.
  destruct z as [a b]. unfold Cabs, Cnorm2, Cmul, Cre, Cim. simpl.
  replace ((a * a - b * b) * (a * a - b * b) + (a * b + b * a) * (a * b + b * a))
    with ((a * a + b * b) * (a * a + b * b)) by ring.
  apply sqrt_square. nra.
Qed.

Section PowerSpectrum.
Variables (x : list R) (n : nat).
Hypothesis Hn : (0 < n)%nat.

Let xs (j : nat) : R := nth j x 0.
Let ang (d : Z) (k : nat) : R := 2 * PI * IZR d * INR k / INR n.

Lemma INR_n_neq_0 : INR n <> 0.
Proof. apply not_0_INR. lia. Qed.

Lemma ang_nat (j k : nat) :
  2 * PI * INR j * INR k / INR n = ang (Z.of_nat j) k.
Proof. unfold ang. now rewrite <- INR_IZR_INZ. Qed.

Lemma ang_sub (a b : Z) (k : nat) : ang a k - ang b k = ang (a - b) k.
Proof. unfold ang. rewrite minus_IZR. field. apply INR_n_neq_0. Qed.

Lemma ang_add (a b : Z) (k : nat) : ang a k + ang b k = ang (a + b) k.
Proof. unfold ang. rewrite plus_IZR. field. apply INR_n_neq_0. Qed.

(** The squared magnitude of bin [k]. *)
Lemma power_spectrum (k : nat) :
  Cabs (Cmul (nth k (fft x n) Czero) (nth k (fft x n) Czero))
  = if (k <? n)%nat
    then Rsum_n n (fun j => Rsum_n n (fun l =>
           xs j * xs l * cos (ang (Z.of_nat j - Z.of_nat l) k)))
    else 0.
Proof.
  destruct (k <? n)%nat eqn:Ek.
  - apply Nat.ltb_lt in Ek.
    rewrite Cabs_Cmul_self, fft_nth by exact Ek.
    rewrite Cre_Csum_n, Cim_Csum_n.
    rewrite (@Rsum_n_ext n _ (fun j => xs j * cos (ang (Z.of_nat j) k))).
    2:{ intros j _. unfold Cmul, RtoC, Cexpi, Cre. simpl.
        rewrite cos_neg, ang_nat. fold (xs j). ring. }
    rewrite (@Rsum_n_ext n (fun k0 => Cim _)
                         (fun j => xs j * - sin (ang (Z.of_nat j) k))).
    2:{ intros j _. unfold Cmul, RtoC, Cexpi, Cim. simpl.
        rewrite sin_neg, ang_nat. fold (xs j). ring. }
    rewrite !Rsum_n_mult, <- Rsum_n_plus.
    apply Rsum_n_ext. intros j _. rewrite <- Rsum_n_plus.
    apply Rsum_n_ext. intros l _.
    rewrite <- ang_sub, cos_minus. ring.
  - apply Nat.ltb_ge in Ek.
    rewrite nth_overflow by (rewrite length_fft; lia).
    unfold Cabs, Cnorm2, Cmul, Czero. simpl.
    replace ((0 * 0 - 0 * 0) * (0 * 0 - 0 * 0)
             + (0 * 0 + 0 * 0) * (0 * 0 + 0 * 0)) with 0 by ring.
    apply sqrt_0.
Qed.

Let D (d : Z) : R := Rsum_n n (fun k => cos (ang d k)).

Lemma D_zero : D 0 = INR n.
Proof. unfold D, ang. apply cos_sum_multiple; auto. apply Z.divide_0_r. Qed.

Lemma D_small (d : Z) :
  d <> 0%Z -> (- Z.of_nat n < d < Z.of_nat n)%Z -> D d = 0.
Proof.
  intros Hd Hr. unfold D, ang. apply cos_sum_no_multiple; auto.
  intros [q Hq]. destruct (Z.eq_dec q 0) as [->|Hq0]; [lia|]. nia.
Qed.

(** Summing the product of two cosines over a period. *)
Lemma cos_cos_sum (d m : Z) :
  Rsum_n n (fun k => cos (ang d k) * cos (ang m k))
  = (D (d - m) + D (d + m)) / 2.
Proof.
  unfold D. rewrite <- Rsum_n_plus.
  unfold Rdiv. rewrite Rmult_comm, <- Rsum_n_scal.
  apply Rsum_n_ext. intros k _.
  rewrite <- ang_sub, <- ang_add, cos_minus, cos_plus. lra.
Qed.

Variable m : nat.
Hypothesis Hm : (length x + m <= n)%nat.

Lemma xs_overflow (j : nat) : (length x <= j)%nat -> xs j = 0.
Proof. intros H. unfold xs. now apply nth_overflow. Qed.

Lemma shifted_sum_forward (l : nat) :
  (l < n)%nat ->
  Rsum_n n (fun j => xs j * xs l
                     * D (Z.of_nat j - Z.of_nat l - Z.of_nat m))
  = INR n * (xs l * xs (l + m)).
Proof.
  intros Hl.
  destruct (Nat.lt_ge_cases l (length x)) as [Hlx|Hlx].
  - rewrite (@Rsum_n_single n (l + m)%nat) by
      (try lia; intros j Hj Hne; rewrite D_small by lia; ring).
    replace (Z.of_nat (l + m) - Z.of_nat l - Z.of_nat m)%Z with 0%Z by lia.
    rewrite D_zero. ring.
  - rewrite (xs_overflow Hlx).
    rewrite Rsum_n_zero by (intros; ring). ring.
Qed.

Lemma shifted_sum_backward (j : nat) :
  (j < n)%nat ->
  Rsum_n n (fun l => xs j * xs l
                     * D (Z.of_nat j - Z.of_nat l + Z.of_nat m))
  = INR n * (xs j * xs (j + m)).
Proof.
  intros Hj.
  destruct (Nat.lt_ge_cases j (length x)) as [Hjx|Hjx].
  - rewrite (@Rsum_n_single n (j + m)%nat) by
      (try lia; intros l Hl Hne; rewrite D_small by lia; ring).
    replace (Z.of_nat j - Z.of_nat (j + m) + Z.of_nat m)%Z with 0%Z by lia.
    rewrite D_zero. ring.
  - rewrite (xs_overflow Hjx).
    rewrite Rsum_n_zero by (intros; ring). ring.
Qed.

Lemma lagged_products_sum :
  Rsum_n n (fun l => xs l * xs (l + m)) = acorr_direct x m.
Proof.
  unfold acorr_direct.
  apply Rsum_n_trunc; [lia|]. intros k Hk. cbv beta.
  destruct (Nat.lt_ge_cases k (length x)) as [Hkx|Hkx].
  - rewrite (nth_overflow x 0 (n := k + m)) by lia. ring.
  - rewrite (nth_overflow x 0 Hkx). ring.
Qed.

(** The inverse transform of the power spectrum, before the division by
    [n] and the extraction of the real part. *)
Lemma spectrum_cos_sum :
  Rsum_n n (fun k =>
    Rsum_n n (fun j => Rsum_n n (fun l =>
      xs j * xs l * cos (ang (Z.of_nat j - Z.of_nat l) k)))
    * cos (ang (Z.of_nat m) k))
  = INR n * acorr_direct x m.
Proof.
  rewrite (@Rsum_n_ext n _ (fun k => Rsum_n n (fun j => Rsum_n n (fun l =>
             xs j * xs l * (cos (ang (Z.of_nat j - Z.of_nat l) k)
                            * cos (ang (Z.of_nat m) k)))))).
  2:{ intros k _. rewrite Rmult_comm, <- Rsum_n_scal.
      apply Rsum_n_ext. intros j _. rewrite <- Rsum_n_scal.
      apply Rsum_n_ext. intros l _. ring. }
  rewrite Rsum_n_swap.
  rewrite (@Rsum_n_ext n _ (fun j => Rsum_n n (fun l =>
             xs j * xs l * ((D (Z.of_nat j - Z.of_nat l - Z.of_nat m)
                             + D (Z.of_nat j - Z.of_nat l + Z.of_nat m)) / 2)))).
  2:{ intros j _. rewrite Rsum_n_swap.
      apply Rsum_n_ext. intros l _.
      rewrite Rsum_n_scal, cos_cos_sum. reflexivity. }
  rewrite (@Rsum_n_ext n _ (fun j =>
             Rsum_n n (fun l => / 2 * (xs j * xs l
                                * D (Z.of_nat j - Z.of_nat l - Z.of_nat m)))
             + / 2 * (INR n * (xs j * xs (j + m))))).
  2:{ intros j Hj. rewrite <- (shifted_sum_backward Hj).
      rewrite <- Rsum_n_scal, <- Rsum_n_plus.
      apply Rsum_n_ext. intros l _. field. }
  rewrite Rsum_n_plus, Rsum_n_swap.
  rewrite (@Rsum_n_ext n (fun l => Rsum_n n _)
                       (fun l => / 2 * (INR n * (xs l * xs (l + m))))).
  2:{ intros l Hl. rewrite Rsum_n_scal, (shifted_sum_forward Hl).
      reflexivity. }
  rewrite <- Rsum_n_plus.
  rewrite (@Rsum_n_ext n _ (fun l => INR n * (xs l * xs (l + m))))
    by (intros; field).
  rewrite Rsum_n_scal, lagged_products_sum. reflexivity.
Qed.
End PowerSpectrum.

(** ** The estimator against the direct autocorrelation *)

Lemma length_ifft (y : list C) : length (ifft y) = length y.
Proof. unfold ifft. now rewrite length_map, length_seq. Qed.

Lemma ifft_nth (y : list C) (m : nat) :
  (m < length y)%nat ->
  nth m (ifft y) Czero
  = Cscal_div
      (Csum_n (length y) (fun k =>
         Cmul (nth k y Czero)
              (Cexpi (2 * PI * INR k * INR m / INR (length y)))))
      (INR (length y)).
Proof.
  intros Hm. unfold ifft.
  set (F := fun m0 : nat => Cscal_div
      (Csum_n (length y) (fun k =>
         Cmul (nth k y Czero)
              (Cexpi (2 * PI * INR k * INR m0 / INR (length y)))))
      (INR (length y))).
  rewrite (nth_indep _ Czero (F 0%nat)) by (rewrite length_map, length_seq; lia).
  rewrite (map_nth F), seq_nth by lia. reflexivity.
Qed.

Lemma length_acorr_last_axis (x : list R) (nfft maxlag : nat) :
  length (_acorr_last_axis x nfft maxlag) = Nat.min (maxlag + 1) nfft.
Proof.
  unfold _acorr_last_axis.
  now rewrite length_map, length_firstn, length_map, length_ifft, length_map,
    length_fft.
Qed.

(** Every lag the transform can hold without wrapping around equals the
    direct sum. *)
Lemma acorr_last_axis_nth (x : list R) (nfft maxlag m : nat) :
  (m <= maxlag)%nat -> (m < nfft)%nat -> (length x + m <= nfft)%nat ->
  nth m (_acorr_last_axis x nfft maxlag) 0 = acorr_biased x m.
Proof.
  intros Hml Hmn Hwrap.
  assert (Hn : (0 < nfft)%nat) by lia.
  assert (Hn0 : INR nfft <> 0) by (apply not_0_INR; lia).
  unfold _acorr_last_axis, acorr_biased.
  set (Y := map (fun z => RtoC (Cabs (Cmul z z))) (fft x nfft)).
  assert (LY : length Y = nfft) by (unfold Y; now rewrite length_map, length_fft).
  set (N := INR (length x)).
  rewrite (nth_indep _ 0 ((fun v => v / N) 0))
    by (rewrite length_map, length_firstn, length_map, length_ifft, LY; lia).
  rewrite (map_nth (fun v => v / N)). f_equal.
  rewrite nth_firstn.
  replace (m <? maxlag + 1)%nat with true by (symmetry; apply Nat.ltb_lt; lia).
  change 0 with (Cre Czero). rewrite (map_nth Cre).
  rewrite ifft_nth by lia. rewrite LY.
  unfold Cscal_div, Cre at 1. cbn [fst].
  change (fst ?z) with (Cre z). rewrite Cre_Csum_n.
  rewrite (@Rsum_n_ext nfft _ (fun k =>
     Rsum_n nfft (fun j => Rsum_n nfft (fun l =>
        nth j x 0 * nth l x 0
        * cos (2 * PI * IZR (Z.of_nat j - Z.of_nat l) * INR k / INR nfft)))
     * cos (2 * PI * IZR (Z.of_nat m) * INR k / INR nfft))).
  - rewrite (spectrum_cos_sum x Hn m Hwrap). field. exact Hn0.
  - intros k Hk. unfold Y.
    rewrite (nth_indep _ Czero ((fun z => RtoC (Cabs (Cmul z z))) Czero))
      by (rewrite length_map, length_fft; lia).
    rewrite (map_nth (fun z => RtoC (Cabs (Cmul z z)))).
    rewrite (power_spectrum x Hn k).
    replace (k <? nfft)%nat with true by (symmetry; apply Nat.ltb_lt; lia).
    unfold Cmul, RtoC, Cexpi, Cre. cbn [fst snd].
    rewrite <- INR_IZR_INZ.
    replace (2 * PI * INR k * INR m / INR nfft)
      with (2 * PI * INR m * INR k / INR nfft) by (field; exact Hn0).
    ring.
Qed.

Lemma nextpow2_odd_bound (N : nat) :
  (2 <= N)%nat -> (2 * N <= 2 ^ nextpow2 (2 * Z.of_nat N - 1))%nat.
Proof.
  intros HN. unfold nextpow2.
  set (a := (2 * Z.of_nat N - 1)%Z).
  assert (Ha : (1 < a)%Z) by (unfold a; lia).
  pose proof (Z.log2_up_spec a Ha) as [_ Hup].
  pose proof (Z.log2_up_nonneg a) as Hp.
  set (p := Z.log2_up a) in *.
  assert (Hp1 : (1 <= p)%Z).
  { destruct (Z.eq_dec p 0) as [E|]; [|lia].
    rewrite E in Hup. simpl in Hup. lia. }
  assert (Hpow : (2 ^ p = 2 * 2 ^ (p - 1))%Z).
  { rewrite <- Z.pow_succ_r by lia. f_equal. lia. }
  apply Nat2Z.inj_le. rewrite Nat2Z.inj_pow, Z2Nat.id by lia.
  change (Z.of_nat 2) with 2%Z. unfold a in Hup. lia.
Qed.

Lemma length_acorr_lpc_values (x : list R) :
  (2 <= length x)%nat -> length (acorr_lpc_values x) = (length x + 1)%nat.
Proof.
  intros HN. unfold acorr_lpc_values.
  rewrite length_acorr_last_axis.
  pose proof (nextpow2_odd_bound HN). lia.
Qed.

Lemma acorr_lpc_values_nth (x : list R) (m : nat) :
  (m < length (acorr_lpc_values x))%nat ->
  nth m (acorr_lpc_values x) 0 = acorr_biased x m.
Proof.
  unfold acorr_lpc_values. rewrite length_acorr_last_axis. intros Hm.
  apply acorr_last_axis_nth; try lia.
  destruct (length x) as [|[|N]] eqn:EN.
  - lia.
  - change (2 ^ nextpow2 (2 * Z.of_nat 1 - 1))%nat with 1%nat in *. lia.
  - pose proof (@nextpow2_odd_bound (S (S N)) ltac:(lia)). lia.
Qed.

Lemma acorr_lpc_values_nth_all (x : list R) :
  (2 <= length x)%nat ->
  acorr_lpc_values x = map (acorr_biased x) (seq 0 (length x + 1)).
Proof.
  intros HN.
  apply (nth_ext _ _ 0 (acorr_biased x 0%nat)).
  - now rewrite length_map, length_seq, length_acorr_lpc_values.
  - intros m Hm. rewrite (map_nth (acorr_biased x)).
    rewrite length_acorr_lpc_values in Hm by exact HN.
    rewrite seq_nth by exact Hm. apply acorr_lpc_values_nth.
    rewrite length_acorr_lpc_values by exact HN. exact Hm.
Qed.

(** The reference routine [lpc_ref] gets its lags from [np.correlate]:
    they are the direct sums. *)
Lemma np_correlate_full_lag (x : list R) (m : nat) :
  (m < length x)%nat ->
  nth (length x - 1 + m) (np_correlate_full x x) 0 = acorr_direct x m.
Proof.
  intros Hm. unfold np_correlate_full, acorr_direct.
  set (N := length x) in *.
  set (F := fun idx : nat => Rsum_n N (fun j =>
             if (N - 1 <=? j + idx)%nat
             then nth (j + idx - (N - 1)) x 0 * nth j x 0 else 0)).
  rewrite (nth_indep _ 0 (F 0%nat)) by (rewrite length_map, length_seq; lia).
  rewrite (map_nth F), seq_nth by lia. unfold F. cbn [Nat.add].
  rewrite (@Rsum_n_ext N _ (fun j => nth j x 0 * nth (j + m) x 0)).
  - apply Rsum_n_trunc; [lia|]. intros k Hk. cbv beta.
    rewrite (nth_overflow x 0 (n := k + m)) by (fold N; lia). ring.
  - intros j _.
    replace (N - 1 <=? j + (N - 1 + m))%nat with true
      by (symmetry; apply Nat.leb_le; lia).
    replace (j + (N - 1 + m) - (N - 1))%nat with (j + m)%nat by lia. ring.
Qed.

Lemma length_np_correlate_full (x : list R) :
  length (np_correlate_full x x) = (2 * length x - 1)%nat.
Proof. unfold np_correlate_full. now rewrite length_map, length_seq. Qed.

Lemma lpc_ref_r_nth (x : list R) (order m : nat) :
  (order <= length x)%nat -> (m <= order)%nat ->
  nth m (lpc_ref_r x order) 0 = acorr_direct x m.
Proof.
  intros Ho Hm. unfold lpc_ref_r.
  set (N := length x) in *.
  set (c := np_correlate_full x x).
  assert (Lc : length c = (2 * N - 1)%nat) by apply length_np_correlate_full.
  destruct (Nat.lt_ge_cases m N) as [HmN | HmN].
  - assert (Hpart : py_slice c (Z.of_nat N - 1) (Z.of_nat N + Z.of_nat order)
                    = firstn (Nat.min (N + order) (2 * N - 1) - (N - 1))
                             (skipn (N - 1) c)).
    { unfold py_slice. rewrite Lc.
      replace (Z.of_nat N - 1 <? 0)%Z with false
        by (symmetry; apply Z.ltb_ge; lia).
      replace (Z.of_nat N + Z.of_nat order <? 0)%Z with false
        by (symmetry; apply Z.ltb_ge; lia).
      f_equal; [|f_equal]; lia. }
    rewrite Hpart.
    rewrite app_nth1
      by (rewrite !length_firstn, length_skipn, Lc; lia).
    rewrite !nth_firstn.
    replace (m <? Nat.min (order + 1) N)%nat with true
      by (symmetry; apply Nat.ltb_lt; lia).
    replace (m <? Nat.min (N + order) (2 * N - 1) - (N - 1))%nat with true
      by (symmetry; apply Nat.ltb_lt; lia).
    rewrite nth_skipn. unfold c. now apply np_correlate_full_lag.
  - assert (E : m = N) by lia. subst m.
    rewrite app_nth2 by (rewrite length_firstn; lia).
    unfold acorr_direct. fold N. rewrite Nat.sub_diag. cbn [Rsum_n].
    destruct (nth_in_or_default (N - length (firstn (Nat.min (order + 1) N)
                 (py_slice c (Z.of_nat N - 1) (Z.of_nat N + Z.of_nat order))))
                (repeat 0 (order + 1 - Nat.min (order + 1) N)) 0) as [Hin|Hd];
      [|exact Hd].
    now apply repeat_spec in Hin.
Qed.

(** C6, as the code has it.  Every entry of the estimate computed through
    the Fourier transform (zero-padding to the next power of two, transform,
    squared magnitude, inverse transform, real part, truncation, division by
    the frame length) equals the direct time-domain biased autocorrelation
    of the frame at that lag; for frames of two samples or more these are
    the lags [0..maxlag] with [maxlag] the frame length, and they agree with
    the lags the reference routine [lpc_ref] takes from [np.correlate],
    divided by the frame length. *)
Theorem acorr_lpc_equals_direct (x : list R) :
  acorr_lpc_values x
  = map (acorr_biased x) (seq 0 (length (acorr_lpc_values x)))
  /\ ((2 <= length x)%nat ->
      acorr_lpc_values x = map (acorr_biased x) (seq 0 (length x + 1))
      /\ forall order m, (order <= length x)%nat -> (m <= order)%nat ->
           nth m (acorr_lpc_values x) 0
           = nth m (lpc_ref_r x order) 0 / INR (length x)).
Proof.
  assert (E : acorr_lpc_values x
              = map (acorr_biased x) (seq 0 (length (acorr_lpc_values x)))).
  { apply (nth_ext _ _ 0 (acorr_biased x 0%nat)).
    - now rewrite length_map, length_seq.
    - intros m Hm. rewrite (map_nth (acorr_biased x)), seq_nth by exact Hm.
      now apply acorr_lpc_values_nth. }
  split; [exact E|].
  intros HN. split.
  - rewrite E at 1. now rewrite length_acorr_lpc_values.
  - intros order m Ho Hm. rewrite lpc_ref_r_nth by assumption.
    apply acorr_lpc_values_nth.
    rewrite length_acorr_lpc_values by exact HN. lia.
Qed.

Lemma acorr_lpc_equals_direct_witness :
  acorr_lpc_values [1; 2; 3] = map (acorr_biased [1; 2; 3]) (seq 0 (3 + 1))
  /\ forall order m, (order <= 3)%nat -> (m <= order)%nat ->
       nth m (acorr_lpc_values [1; 2; 3]) 0
       = nth m (lpc_ref_r [1; 2; 3] order) 0 / INR 3.
Proof.
  apply (proj2 (acorr_lpc_equals_direct [1; 2; 3])). simpl. lia.
Defined.

(** C6 as stated fails on a frame of one sample: the lag bound is the
    frame length 1, the direct biased autocorrelation over the lags [0..1]
    has the two entries 25 and 0, and the estimate computed through the
    transform (a single bin) has one entry only, so the two differ. *)
Lemma acorr_lpc_one_sample_counterexample :
  length (acorr_lpc_values [5]) = 1%nat
  /\ map (acorr_biased [5]) (seq 0 (length [5] + 1)) = [25; 0]
  /\ acorr_lpc_values [5] <> map (acorr_biased [5]) (seq 0 (length [5] + 1)).
Proof.
  assert (L : length (acorr_lpc_values [5]) = 1%nat)
    by (unfold acorr_lpc_values; rewrite length_acorr_last_axis; reflexivity).
  split; [exact L|]. split.
  - cbn [length Nat.add seq map]. unfold acorr_biased, acorr_direct.
    cbn [length Nat.sub Rsum_n nth Nat.add INR].
    f_equal; [field|]. f_equal. field.
  - intros E. apply (f_equal (@length R)) in E.
    rewrite L, length_map, length_seq in E. discriminate.
Qed.

(** C3, as the code has it.  For a frame of [N >= 2] samples the estimator
    returns exactly [N + 1] entries, whatever the order of the prediction:
    the lag bound is the frame length.  Entry [m], [m = 0..N], is the
    autocorrelation at lag [m] divided by [N], entry 0 being the zero-lag
    term. *)
Theorem acorr_lpc_length_and_entries (x : list R) :
  (2 <= length x)%nat ->
  length (acorr_lpc_values x) = (length x + 1)%nat
  /\ forall m, (m <= length x)%nat ->
       nth m (acorr_lpc_values x) 0
       = Rsum_n (length x - m) (fun j => nth j x 0 * nth (j + m) x 0)
         / INR (length x).
Proof.
  intros HN. split; [now apply length_acorr_lpc_values|].
  intros m Hm. apply acorr_lpc_values_nth.
  rewrite length_acorr_lpc_values by exact HN. lia.
Qed.

Lemma acorr_lpc_length_and_entries_witness :
  length (acorr_lpc_values [1; 2; 3]) = 4%nat
  /\ forall m, (m <= 3)%nat ->
       nth m (acorr_lpc_values [1; 2; 3]) 0
       = Rsum_n (3 - m) (fun j => nth j [1; 2; 3] 0 * nth (j + m) [1; 2; 3] 0)
         / INR 3.
Proof.
  apply (acorr_lpc_length_and_entries [1; 2; 3]). simpl. lia.
Defined.

(** C3 as stated fails: [lpc] analyses a frame of four samples at order 2
    with an autocorrelation vector of five entries, not three; and for a
    frame of one sample, where the lag bound is 1, the transform has a single
    bin and a single entry comes back, not two. *)
Lemma acorr_lpc_length_counterexample :
  length (acorr_lpc_values [1; 2; 3; 4]) = 5%nat
  /\ length (deref (snd (lpc zero_garbage 0%nat 2%nat [[1; 2; 3; 4]])) 1%nat)
     = 5%nat
  /\ 5%nat <> (2 + 1)%nat
  /\ length (acorr_lpc_values [1]) = 1%nat.
Proof.
  assert (L : length (acorr_lpc_values [1; 2; 3; 4]) = 5%nat)
    by (apply length_acorr_lpc_values; simpl; lia).
  split; [exact L|]. split; [|split; [lia|]].
  - unfold lpc, size. unfold bind at 1.
    unfold bind at 1. unfold acorr_lpc, alloc.
    replace (Nat.ltb (length (deref [[1; 2; 3; 4]] 0%nat)) 2%nat) with false
      by reflexivity.
    cbv beta iota.
    set (h := [[1; 2; 3; 4]] ++ [acorr_lpc_values (deref [[1; 2; 3; 4]] 0%nat)]).
    destruct (levinson_1d_frame zero_garbage h (length [[1; 2; 3; 4]]) 2)
      as [[msg ->] | (a & t & k & e & -> & _)]; exact L.
  - unfold acorr_lpc_values. rewrite length_acorr_last_axis. reflexivity.
Qed.

Local Close Scope R_scope.

(** ** A complete extraction, evaluated *)

Lemma run_lpc_spec (g : garbage R) (X : list R) (order : nat) :
  order <= length X ->
  levinson_pre (acorr_lpc_values X) order ->
  run_lpc g X order = Ok (spec_levinson (acorr_lpc_values X) order).
Proof.
  intros Hlen Hpre. unfold run_lpc, lpc, size. unfold bind at 1.
  replace (length (deref [X] 0) <? order) with false
    by (symmetry; apply Nat.ltb_ge; exact Hlen).
  unfold bind at 1. unfold acorr_lpc, alloc.
  change (deref [X] 0) with X.
  set (h := [X] ++ [acorr_lpc_values X]).
  assert (Hd : deref h (length [X]) = acorr_lpc_values X) by reflexivity.
  rewrite levinson_1d_ok by (rewrite Hd; exact Hpre).
  rewrite Hd.
  pose proof (run_levinson_spec g Hpre) as Hrun.
  unfold run_levinson in Hrun.
  rewrite levinson_1d_ok in Hrun by exact Hpre.
  change (deref [acorr_lpc_values X] 0) with (acorr_lpc_values X) in Hrun.
  destruct (lev_loop _ _ _ _) as [[[a t] k] e].
  unfold deref in *. simpl in Hrun. simpl. exact Hrun.
Qed.

Local Open Scope R_scope.

Lemma example_window :
  analysis_window "gaussian" 2 = Ok [example_weight; example_weight].
Proof.
  unfold analysis_window.
  cbn [String.eqb Ascii.eqb Bool.eqb].
  unfold gaussian. cbn [Z.add Z.ltb Z.leb Z.compare Pos.add Pos.compare
                        Pos.compare_cont Pos.succ rbind].
  set (F := fun n : nat => exp _).
  match goal with
  | |- Ok ?s = _ => change s with [F 1%nat; F 2%nat]
  end.
  unfold F, example_weight. f_equal. f_equal.
  - f_equal. simpl INR. f_equal. lra.
  - f_equal. f_equal. simpl INR. f_equal. f_equal. lra.
Qed.

Lemma example_acorr (w : R) :
  acorr_lpc_values [1 * w; -1 * w] = [w * w; - (w * w) / 2; 0].
Proof.
  rewrite (@acorr_lpc_values_nth_all [1 * w; -1 * w]) by (simpl; lia).
  cbn [length Nat.add seq map].
  unfold acorr_biased, acorr_direct. cbn [length Nat.sub Rsum_n nth Nat.add].
  simpl INR. f_equal; [lra|]. f_equal; [lra|]. f_equal. lra.
Qed.

Lemma example_lpc (g : garbage R) (w : R) :
  w <> 0 ->
  run_lpc g [1 * w; -1 * w] 2 = Ok ([1; 2 / 3; 1 / 3], 2 * (w * w) / 3, [1 / 2; 1 / 3]).
Proof.
  intros Hw.
  assert (Hww : w * w <> 0) by (apply Rmult_integral_contrapositive_currified; auto).
  rewrite run_lpc_spec.
  - rewrite example_acorr. unfold spec_levinson.
    cbn [range Nat.add Nat.sub seq fold_left nth].
    unfold spec_step. cbn [range Nat.sub seq map nth app].
    unfold spec_sigma. cbn [range Nat.sub seq fold_left nth].
    cbn [s_zero s_one s_add s_sub s_mul s_div s_neg s_conj Scalar_R].
    replace (- (- (w * w) / 2) / (w * w)) with (1 / 2) by (field; exact Hw).
    replace (- (0 + 1 / 2 * (- (w * w) / 2)) / (w * w * (1 - 1 / 2 * (1 / 2))))
      with (1 / 3) by (field; exact Hw).
    replace (1 / 2 + 1 / 3 * (1 / 2)) with (2 / 3) by lra.
    replace (w * w * (1 - 1 / 2 * (1 / 2)) * (1 - 1 / 3 * (1 / 3)))
      with (2 * (w * w) / 3) by lra.
    reflexivity.
  - simpl. lia.
  - rewrite example_acorr. unfold levinson_pre. cbn [length nth].
    split; [lia|]. split; [reflexivity|].
    cbn [s_recip_finite Scalar_R]. unfold Req_bool.
    destruct (Req_dec_T (w * w) 0); [contradiction|reflexivity].
Qed.

Lemma example_roots :
  quadratic_roots [1; 2 / 3; 1 / 3] = [example_root; Cconj example_root].
Proof.
  unfold quadratic_roots.
  destruct (Req_dec_T 1 0) as [E|_]; [exfalso; lra|].
  destruct (Rle_dec 0 (2 / 3 * (2 / 3) - 4 * 1 * (1 / 3))) as [E|_];
    [exfalso; lra|].
  reflexivity.
Qed.

Lemma example_root_parts :
  Cre example_root = - (1 / 3) /\ 1 / 3 < Cim example_root.
Proof.
  unfold example_root, Cre, Cim. cbn [fst snd]. split; [lra|].
  assert (H : 2 / 3 < sqrt (- (2 / 3 * (2 / 3) - 4 * 1 * (1 / 3)))).
  { rewrite <- (sqrt_square (2 / 3)) at 1 by lra.
    apply sqrt_lt_1_alt. lra. }
  lra.
Qed.

Lemma example_frequency :
  let f := fst (candidate_of_root (2 * 4096) example_root) in
  2048 < f < 3072.
Proof.
  destruct example_root_parts as [Hre Him].
  unfold candidate_of_root. cbn [fst]. rewrite Hre.
  assert (Hpi := PI_RGT_0).
  unfold np_arctan2.
  destruct (Rlt_dec 0 (- (1 / 3))) as [E|_]; [exfalso; lra|].
  destruct (Rlt_dec (- (1 / 3)) 0) as [_|E]; [|exfalso; lra].
  destruct (Rle_dec 0 (Cim example_root)) as [_|E]; [|exfalso; lra].
  set (y := Cim example_root / - (1 / 3)).
  assert (Hy : y < -1).
  { unfold y. apply (Rmult_lt_reg_r (1 / 3)); [lra|].
    replace (Cim example_root / - (1 / 3) * (1 / 3)) with (- Cim example_root)
      by (field). lra. }
  assert (H1 : atan y < - (PI / 4)).
  { rewrite <- atan_1, <- atan_opp. apply atan_increasing. lra. }
  destruct (atan_bound y) as [H2 _].
    split.
  - apply (Rmult_lt_reg_r (2 * PI)); [lra|].
    replace ((atan y + PI) * (2 * 4096 / (2 * PI)) * (2 * PI))
      with ((atan y + PI) * 8192) by (field; lra).
    nra.
  - apply (Rmult_lt_reg_r (2 * PI)); [lra|].
    replace ((atan y + PI) * (2 * 4096 / (2 * PI)) * (2 * PI))
      with ((atan y + PI) * 8192) by (field; lra).
    nra.
Qed.

Lemma frame_candidates_one_retained (new_sr : R) (rts0 : list C) (r : C) :
  retained_roots rts0 = [r] ->
  frame_candidates new_sr rts0 = [candidate_of_root new_sr r].
Proof.
  intros H. rewrite frame_candidates_as_map, H. reflexivity.
Qed.

Lemma example_frame_formants :
  frame_formants 4096 (2 * 4096) 1 [example_root; Cconj example_root]
  = example_frame.
Proof.
  destruct example_root_parts as [Hre Him].
  pose proof example_frequency as Hf. cbv zeta in Hf.
  unfold frame_formants, survivors.
  rewrite (@frame_candidates_one_retained _ _ example_root).
  - cbn [filter]. unfold in_band.
    rewrite Rlt_bool_false by lra. rewrite Rlt_bool_false by lra.
    reflexivity.
  - unfold retained_roots. cbn [filter].
    rewrite Rle_bool_true by lra.
    rewrite Rle_bool_false by (unfold Cconj, Cim in *; cbn [snd] in *; lra).
    reflexivity.
Qed.

(** The extraction completes with one frame, centred on sample 1, holding
    one formant between 2048 and 3072 Hz. *)
Lemma example_extraction (g : garbage R) :
  process quadratic_roots g example_extractor example_signal
  = Ok [(1 / (2 * 4096), example_frame)].
Proof.
  unfold process, example_extractor, example_signal, LpcFormants_init,
    Formants_init.
  cbn [_freq_lims _win_len _time_step _window_shape _num_formants snd String.eqb
       Ascii.eqb Bool.eqb].
  replace (1 / 8192 * 2 * (2 * 4096)) with (IZR 2) by lra.
  replace (1 / 8192 * (2 * 4096)) with (IZR 1) by lra.
  rewrite !Rtrunc_IZR, example_window. cbn [rbind].
  change (np_arange _ _ _) with (Ok [1%Z]). cbn [rbind process_frames].
  unfold process_frame. cbn [_freq_lims _num_formants snd].
  change (np_mul _ _) with (Ok [1 * example_weight; -1 * example_weight]).
  cbn [rbind].
  rewrite example_lpc by (apply Rgt_not_eq, exp_pos).
  cbn [rbind fst]. rewrite example_roots, example_frame_formants.
  reflexivity.
Qed.

Local Close Scope R_scope.

Lemma process_frames_have_num_formants_witness :
  length example_frame = 1 /\ padded_frame 1 example_frame.
Proof.
  apply (@process_frames_have_num_formants
           quadratic_roots zero_garbage example_extractor example_signal
           [((1 / (2 * 4096))%R, example_frame)] (1 / (2 * 4096))%R example_frame
           quadratic_roots_ok (example_extraction zero_garbage)).
  simpl. destruct (Req_dec_T (1 / (2 * 4096)) (1 / (2 * 4096))) as [_|E];
    [reflexivity|exfalso; apply E; reflexivity].
Defined.

(* ================================================================== *)
(** * Part III: further properties of the code *)
(* ================================================================== *)

(** ** The residual energy and the reflection coefficients *)

Lemma spec_levinson_energy {T} {ST : Scalar T} (r : list T) (order : nat) :
  snd (fst (spec_levinson r order))
  = energy_from_reflections (nth 0 r s_zero) (snd (spec_levinson r order)).
Proof.
  induction order as [|m IH]; [reflexivity|].
  rewrite spec_levinson_S.
  destruct (spec_levinson r m) as [[a e] ks]. cbn [fst snd] in IH.
  unfold spec_step. cbn [fst snd].
  unfold energy_from_reflections in *. rewrite fold_left_app. cbn [fold_left].
  now rewrite <- IH.
Qed.

Lemma spec_levinson_first_reflection {T} {ST : Scalar T} (r : list T) (m : nat) :
  1 <= m ->
  nth_error (snd (spec_levinson r m)) 0
  = Some (s_div (s_neg (nth 1 r s_zero)) (nth 0 r s_zero)).
Proof.
  induction m as [|m IH]; [lia|]. intros _.
  rewrite spec_levinson_S.
  destruct m as [|m].
  - reflexivity.
  - specialize (IH ltac:(lia)).
    destruct (spec_levinson r (S m)) as [[a0 e0] ks0]. cbn [snd] in *.
    destruct (spec_step r (S (S m)) a0 e0) as [[a1 e1] k1]. cbn [snd].
    destruct ks0; [discriminate|exact IH].
Qed.

(** X1. Whenever the solver returns, the residual energy it returns is
    [r[0]] multiplied by [1 - k*conj(k)] for each reflection coefficient
    [k] in turn, and the first reflection coefficient (if any) is
    [-r[1]/r[0]]. *)
Theorem levinson_1d_energy_from_reflections
        {T : Type} {ST : Scalar T} (g : garbage T) (r : list T) (order : nat)
        (a : list T) (e : T) (k : list T) :
  run_levinson g r order = Ok (a, e, k) ->
  e = energy_from_reflections (nth 0 r s_zero) k
  /\ (1 <= order ->
      nth_error k 0 = Some (s_div (s_neg (nth 1 r s_zero)) (nth 0 r s_zero))).
Proof.
  intros Hrun.
  destruct (levinson_pre_dec r order) as [Hpre | Hnpre].
  - rewrite (run_levinson_spec g Hpre) in Hrun.
    injection Hrun as Hs. split.
    + pose proof (spec_levinson_energy r order) as H.
      rewrite Hs in H. exact H.
    + intros Ho.
      pose proof (@spec_levinson_first_reflection _ _ r order Ho) as Hk.
      now rewrite Hs in Hk.
  - destruct (run_levinson_raise g Hnpre) as [msg Hm]. congruence.
Qed.

Lemma levinson_1d_energy_from_reflections_witness :
  (2 * (1 - - (1) / 2 * (- (1) / 2)))%R
  = energy_from_reflections (nth 0 [2%R; 1%R] s_zero) [(- (1) / 2)%R]
  /\ (1 <= 1 ->
      nth_error [(- (1) / 2)%R] 0
      = Some (s_div (s_neg (nth 1 [2%R; 1%R] s_zero)) (nth 0 [2%R; 1%R] s_zero))).
Proof.
  apply (@levinson_1d_energy_from_reflections R _ zero_garbage [2%R; 1%R] 1
           [1%R; (- (1) / 2)%R]).
  rewrite (run_levinson_spec zero_garbage levinson_pre_example).
  reflexivity.
Defined.

(** ** The solver solves the Toeplitz system *)

Local Open Scope R_scope.

Lemma Rsum_n_S_l (n : nat) (f : nat -> R) :
  Rsum_n (S n) f = f 0%nat + Rsum_n n (fun j => f (S j)).
Proof.
  induction n as [|n IH]; cbn [Rsum_n]; [lra|].
  cbn [Rsum_n] in IH. rewrite IH. lra.
Qed.

Lemma Rsum_n_rev (n : nat) (f : nat -> R) :
  Rsum_n n (fun j => f (n - 1 - j)%nat) = Rsum_n n f.
Proof.
  revert f. induction n as [|n IH]; intros f; [reflexivity|].
  rewrite (Rsum_n_S_l n f). cbn [Rsum_n].
  assert (E : Rsum_n n (fun j => f (S n - 1 - j)%nat)
              = Rsum_n n (fun j => f (S j))).
  { rewrite <- (IH (fun i => f (S i))).
    apply Rsum_n_ext. intros k Hk. f_equal. lia. }
  rewrite E. replace (S n - 1 - n)%nat with 0%nat by lia. lra.
Qed.

Lemma fold_left_add_seq (f : nat -> R) (lo len : nat) (x0 : R) :
  fold_left (fun s j => s + f j) (seq lo len) x0
  = x0 + Rsum_n len (fun j => f (lo + j)%nat).
Proof.
  revert x0. induction len as [|len IH]; intros x0.
  - simpl. lra.
  - rewrite seq_S, fold_left_app. cbn [fold_left Rsum_n]. rewrite IH. lra.
Qed.

Lemma absdiff_flip (p i j : nat) :
  (i <= p)%nat -> (j <= p)%nat -> absdiff i (p - j) = absdiff (p - i) j.
Proof. unfold absdiff. lia. Qed.

Lemma toeplitz_row_extend (r a : list R) (p m : nat) :
  length a = (p + 1)%nat ->
  toeplitz_row r a (S p) m = toeplitz_row r a p m.
Proof.
  intros La. unfold toeplitz_row.
  replace (S p + 1)%nat with (S (p + 1)) by lia. cbn [Rsum_n].
  rewrite (nth_overflow a) by lia. lra.
Qed.

Lemma spec_sigma_toeplitz_row (r a : list R) (m : nat) :
  nth 0 a 0 = 1 ->
  spec_sigma r a (S m) = toeplitz_row r a m (S m).
Proof.
  intros H0. unfold spec_sigma, toeplitz_row, range.
  cbn [s_add s_mul s_zero Scalar_R].
  rewrite (fold_left_add_seq (fun j => nth j a 0 * nth (S m - j) r 0)).
  replace (m + 1)%nat with (S m) by lia.
  rewrite Rsum_n_S_l, H0.
  replace (S m - 1)%nat with m by lia.
  replace (absdiff (S m) 0) with (S m) by (unfold absdiff; lia).
  rewrite Rmult_1_l. f_equal.
  apply Rsum_n_ext. intros j Hj. f_equal. f_equal. unfold absdiff. lia.
Qed.

(** The invariant of the recursion: after [m] steps the coefficients
    annihilate the rows [1..m] of the system and row 0 gives the error. *)
Lemma spec_levinson_normal_equations (r : list R) (m : nat) :
  nondegenerate r m ->
  let '(a, e, _) := spec_levinson r m in
  length a = (m + 1)%nat /\ nth 0 a 0 = 1
  /\ (forall i, (1 <= i <= m)%nat -> toeplitz_row r a m i = 0)
  /\ toeplitz_row r a m 0 = e.
Proof.
  induction m as [|m IH]; intros Hnd.
  - cbn. unfold toeplitz_row. cbn. repeat split; try lra. intros i Hi. lia.
  - assert (Hnd' : nondegenerate r m) by (intros i Hi; apply Hnd; lia).
    specialize (IH Hnd').
    pose proof (Hnd m ltac:(lia)) as He.
    rewrite spec_levinson_S.
    destruct (spec_levinson r m) as [[a e] ks]. cbn [fst snd] in He.
    destruct IH as (La & H0 & Hrows & Hrow0).
    pose proof (@spec_step_length _ _ r (S m) a e ltac:(lia)) as Hlen.
    pose proof (fun j => @spec_step_nth _ _ r (S m) a e j ltac:(lia)) as Hnth.
    pose proof (spec_sigma_toeplitz_row r a m H0) as Hsig.
    assert (Hk : snd (spec_step r (S m) a e) * e = - toeplitz_row r a m (S m)).
    { unfold spec_step. cbn [snd s_div s_neg Scalar_R]. rewrite Hsig.
      field. exact He. }
    assert (He' : snd (fst (spec_step r (S m) a e))
                  = e * (1 - snd (spec_step r (S m) a e)
                             * snd (spec_step r (S m) a e)))
      by reflexivity.
    destruct (spec_step r (S m) a e) as [[a' e'] k]. cbn [fst snd] in *.
    assert (Ha' : forall j, (j <= S m)%nat ->
                  nth j a' 0 = nth j a 0 + k * nth (S m - j) a 0).
    { intros j Hj. change 0 with (@s_zero R _) at 1. rewrite Hnth by lia.
      cbn [s_zero s_add s_mul s_conj Scalar_R].
      destruct (Nat.eqb_spec j 0) as [->|Hj0].
      - rewrite (nth_overflow a (n := S m - 0)) by lia. lra.
      - destruct (Nat.ltb_spec j (S m)) as [Hlt|Hge]; [reflexivity|].
        replace j with (S m) by lia.
        rewrite (nth_overflow a (n := S m)) by lia.
        rewrite Nat.sub_diag, H0. lra. }
    assert (Hrow : forall i, (i <= S m)%nat ->
                   toeplitz_row r a' (S m) i
                   = toeplitz_row r a m i + k * toeplitz_row r a m (S m - i)).
    { intros i Hi.
      rewrite <- (@toeplitz_row_extend r a m i La).
      rewrite <- (@toeplitz_row_extend r a m (S m - i) La).
      unfold toeplitz_row.
      rewrite <- (Rsum_n_rev (S m + 1)
                   (fun j => nth j a 0 * nth (absdiff (S m - i) j) r 0)).
      rewrite <- Rsum_n_scal, <- Rsum_n_plus.
      apply Rsum_n_ext. intros j Hj. rewrite Ha' by lia.
      replace (S m + 1 - 1 - j)%nat with (S m - j)%nat by lia.
      rewrite <- (@absdiff_flip (S m) i (S m - j)) by lia.
      replace (S m - (S m - j))%nat with j by lia. ring. }
    split; [exact Hlen|]. split.
    { rewrite Ha' by lia. rewrite (nth_overflow a (n := S m - 0)) by lia. lra. }
    split.
    + intros i Hi. rewrite Hrow by lia.
      destruct (Nat.eq_dec i (S m)) as [->|Hne].
      * rewrite Nat.sub_diag, Hrow0. lra.
      * rewrite Hrows by lia. rewrite Hrows by lia. lra.
    + rewrite Hrow by lia. rewrite Nat.sub_0_r, Hrow0, He'.
      replace (e * (1 - k * k)) with (e - k * (k * e)) by ring.
      rewrite Hk. ring.
Qed.

Lemma spec_levinson_ks_prefix {T} {ST : Scalar T} (r : list T) (m n : nat) :
  (m <= n)%nat ->
  firstn m (snd (spec_levinson r n)) = snd (spec_levinson r m).
Proof.
  induction n as [|n IH]; intros Hmn.
  - replace m with 0%nat by lia. reflexivity.
  - destruct (Nat.eq_dec m (S n)) as [->|Hne].
    + apply firstn_all2. destruct (spec_levinson_lengths r (S n)) as [_ L]. lia.
    + rewrite <- IH by lia. rewrite spec_levinson_S.
      destruct (spec_levinson_lengths r n) as [_ L].
      destruct (spec_levinson r n) as [[a e] ks]. cbn [fst snd] in *.
      destruct (spec_step r (S n) a e) as [[a' e'] k]. cbn [snd].
      rewrite firstn_app. replace (m - length ks)%nat with 0%nat by lia.
      cbn [firstn]. now rewrite app_nil_r.
Qed.

Lemma energy_from_reflections_nonzero (r0 : R) (ks : list R) :
  r0 <> 0 -> Forall (fun k => k * k <> 1) ks ->
  energy_from_reflections r0 ks <> 0.
Proof.
  unfold energy_from_reflections. revert r0.
  induction ks as [|k ks IH]; intros r0 H0 Hk; [exact H0|].
  inversion Hk as [|? ? Hk1 Hk2]; subst. cbn [fold_left].
  apply IH; [|exact Hk2]. cbn [s_mul s_sub s_one s_conj Scalar_R].
  apply Rmult_integral_contrapositive_currified; [exact H0|lra].
Qed.

Lemma nondegenerate_of_reflections (r : list R) (order : nat) :
  nth 0 r 0 <> 0 ->
  (forall i, (i + 1 < order)%nat ->
     nth i (snd (spec_levinson r order)) 0
     * nth i (snd (spec_levinson r order)) 0 <> 1) ->
  nondegenerate r order.
Proof.
  intros H0 Hk m Hm. rewrite spec_levinson_energy.
  apply energy_from_reflections_nonzero; [exact H0|].
  rewrite <- (@spec_levinson_ks_prefix _ _ r m order) by lia.
  apply Forall_forall. intros x Hx.
  destruct (In_nth _ _ 0 Hx) as (i & Hi & <-).
  destruct (spec_levinson_lengths r order) as [_ L].
  rewrite length_firstn in Hi.
  rewrite nth_firstn.
  replace (i <? m)%nat with true by (symmetry; apply Nat.ltb_lt; lia).
  apply Hk. lia.
Qed.

Lemma toeplitz_row_system (r a : list R) (p : nat) :
  nth 0 a 0 = 1 ->
  (forall i, (1 <= i <= p)%nat -> toeplitz_row r a p i = 0) ->
  levinson_system r a p.
Proof.
  intros H0 Hrows m Hm. specialize (Hrows m Hm).
  unfold toeplitz_row in Hrows.
  replace (p + 1)%nat with (S p) in Hrows by lia.
  rewrite Rsum_n_S_l, H0 in Hrows.
  replace (absdiff m 0) with m in Hrows by (unfold absdiff; lia).
  rewrite (@Rsum_n_ext p _ (fun j => nth (S j) a 0 * nth (absdiff m (S j)) r 0))
    by (intros; apply Rmult_comm).
  lra.
Qed.

Lemma levinson_pre_nonzero (r : list R) (order : nat) :
  levinson_pre r order -> nth 0 r 0 <> 0.
Proof.
  intros (_ & _ & Hfin) E.
  pose proof (proj2 (@s_recip_finite_spec R _ (nth 0 r 0)) E) as F.
  cbn [s_zero Scalar_R] in Hfin. congruence.
Qed.

(** X2. Over the reals, when the solver returns and none of the reflection
    coefficients before the last has square 1 (so that no running error
    vanishes), the coefficients it returns start with 1 and solve the
    Toeplitz system of its docstring,
    [sum_{j=1..p} R[|m-j|] a[j] = -R[m]] for [m = 1..p], and the error
    returned is [sum_{j=0..p} a[j] R[j]]. *)
Theorem levinson_1d_solves_toeplitz_system
        (g : garbage R) (r : list R) (order : nat)
        (a : list R) (e : R) (k : list R) :
  run_levinson g r order = Ok (a, e, k) ->
  (forall i, (i + 1 < order)%nat -> nth i k 0 * nth i k 0 <> 1) ->
  nth 0 a 0 = 1
  /\ levinson_system r a order
  /\ e = Rsum_n (order + 1) (fun j => nth j a 0 * nth j r 0).
Proof.
  intros Hrun Hk.
  destruct (levinson_pre_dec r order) as [Hpre | Hnpre].
  2:{ destruct (run_levinson_raise g Hnpre) as [msg Hm]. congruence. }
  rewrite (run_levinson_spec g Hpre) in Hrun. injection Hrun as Hs.
  assert (Hnd : nondegenerate r order).
  { apply nondegenerate_of_reflections.
    - exact (levinson_pre_nonzero Hpre).
    - rewrite Hs. exact Hk. }
  pose proof (spec_levinson_normal_equations Hnd) as H.
  rewrite Hs in H. destruct H as (_ & H0 & Hrows & Hrow0).
  split; [exact H0|]. split.
  - apply toeplitz_row_system; assumption.
  - rewrite <- Hrow0. unfold toeplitz_row.
    apply Rsum_n_ext. intros j Hj. do 2 f_equal. unfold absdiff. lia.
Qed.

Lemma levinson_pre_example2 : levinson_pre [2; 1; 0] 2.
Proof.
  unfold levinson_pre. simpl. repeat split; auto.
  unfold Req_bool. destruct (Req_dec_T 2 0) as [E|_]; [exfalso; lra|reflexivity].
Qed.

Lemma spec_levinson_example2 :
  spec_levinson [2; 1; 0] 2 = ([1; - (2 / 3); 1 / 3], 4 / 3, [- (1 / 2); 1 / 3]).
Proof.
  unfold spec_levinson, range. cbn [seq Nat.add Nat.sub fold_left].
  unfold spec_step, spec_sigma, range.
  cbn [seq Nat.add Nat.sub fold_left map app nth s_zero s_one s_add s_sub s_mul
       s_div s_neg s_conj Scalar_R].
  repeat first [apply (f_equal2 (@pair _ _)) | apply (f_equal2 (@cons R))];
    try reflexivity; field.
Qed.

Lemma levinson_1d_solves_toeplitz_system_witness :
  nth 0 [1; - (2 / 3); 1 / 3] 0 = 1
  /\ levinson_system [2; 1; 0] [1; - (2 / 3); 1 / 3] 2
  /\ 4 / 3 = Rsum_n (2 + 1) (fun j => nth j [1; - (2 / 3); 1 / 3] 0
                                      * nth j [2; 1; 0] 0).
Proof.
  apply (@levinson_1d_solves_toeplitz_system zero_garbage [2; 1; 0] 2
           [1; - (2 / 3); 1 / 3] (4 / 3) [- (1 / 2); 1 / 3]).
  - rewrite (run_levinson_spec zero_garbage levinson_pre_example2).
    now rewrite spec_levinson_example2.
  - intros i Hi. assert (i = 0%nat) as -> by lia. cbn [nth]. lra.
Defined.

Local Close Scope R_scope.

(** ** The outcome of a call of the solver and of [lpc] *)

Lemma levinson_check_None {T} {ST : Scalar T} (r : list T) (order : nat) :
  levinson_check r order = None <-> levinson_pre r order.
Proof.
  unfold levinson_check, levinson_pre.
  destruct (Nat.ltb_spec (length r) 1); [split; [discriminate|lia]|].
  destruct (Nat.ltb_spec (length r - 1) order); [split; [discriminate|lia]|].
  destruct (s_isreal (nth 0 r s_zero)); cbn [negb];
    [|split; [discriminate|intuition congruence]].
  destruct (s_recip_finite (nth 0 r s_zero)); cbn [negb];
    [|split; [discriminate|intuition congruence]].
  split; auto. intros _. split; [lia|auto].
Qed.

Lemma levinson_1d_rejects_with {T} {ST : Scalar T}
      (g : garbage T) (h : heap T) (lr : loc) (order : nat) (msg : string) :
  levinson_check (deref h lr) order = Some msg ->
  levinson_1d g lr order h = (Raise (ValueError msg), h).
Proof.
  unfold levinson_check, levinson_1d, size. unfold bind at 1.
  destruct (length (deref h lr) <? 1) eqn:E1;
    [intros E; injection E as <-; reflexivity|].
  destruct (length (deref h lr) - 1 <? order) eqn:E2;
    [intros E; injection E as <-; reflexivity|].
  apply Nat.ltb_ge in E1, E2.
  unfold bind at 1. unfold load at 1.
  rewrite (nth_error_nth_lt _ s_zero) by lia.
  destruct (s_isreal (nth 0 (deref h lr) s_zero)); cbn [negb];
    [|intros E; injection E as <-; reflexivity].
  destruct (s_recip_finite (nth 0 (deref h lr) s_zero)); cbn [negb];
    [discriminate|intros E; injection E as <-; reflexivity].
Qed.

Lemma run_levinson_outcome {T} {ST : Scalar T}
      (g : garbage T) (r : list T) (order : nat) :
  run_levinson g r order
  = match levinson_check r order with
    | Some msg => Raise (ValueError msg)
    | None => Ok (spec_levinson r order)
    end.
Proof.
  destruct (levinson_check r order) as [msg|] eqn:E.
  - unfold run_levinson.
    now rewrite (@levinson_1d_rejects_with _ _ g [r] 0 order msg E).
  - apply run_levinson_spec. now apply levinson_check_None.
Qed.

Lemma run_lpc_outcome (g : garbage R) (X : list R) (order : nat) :
  run_lpc g X order
  = if length X <? order
    then Raise (ValueError "Input signal must have length >= order")
    else match levinson_check (acorr_lpc_values X) order with
         | Some msg => Raise (ValueError msg)
         | None => Ok (spec_levinson (acorr_lpc_values X) order)
         end.
Proof.
  destruct (Nat.ltb_spec (length X) order) as [Hlt|Hge].
  - unfold run_lpc, lpc, size. unfold bind at 1. change (deref [X] 0) with X.
    replace (length X <? order) with true by (symmetry; apply Nat.ltb_lt; lia).
    reflexivity.
  - destruct (levinson_check (acorr_lpc_values X) order) as [msg|] eqn:E.
    + unfold run_lpc, lpc, size. unfold bind at 1. change (deref [X] 0) with X.
      replace (length X <? order) with false
        by (symmetry; apply Nat.ltb_ge; lia).
      unfold bind at 1. unfold acorr_lpc, alloc. change (deref [X] 0) with X.
      now rewrite (@levinson_1d_rejects_with _ _ g
                     ([X] ++ [acorr_lpc_values X]) (length [X]) order msg E).
    + apply run_lpc_spec; [lia|now apply levinson_check_None].
Qed.

Local Open Scope R_scope.

Lemma Rsum_n_nonneg (n : nat) (f : nat -> R) :
  (forall k, (k < n)%nat -> 0 <= f k) -> 0 <= Rsum_n n f.
Proof.
  induction n as [|n IH]; intros H; cbn [Rsum_n]; [lra|].
  pose proof (IH ltac:(intros; apply H; lia)). pose proof (H n ltac:(lia)). lra.
Qed.

Lemma Rsum_n_squares_zero (n : nat) (f : nat -> R) :
  Rsum_n n (fun j => f j * f j) = 0 -> forall j, (j < n)%nat -> f j = 0.
Proof.
  induction n as [|n IH]; intros H j Hj; [lia|]. cbn [Rsum_n] in H.
  assert (H1 : 0 <= Rsum_n n (fun j => f j * f j))
    by (apply Rsum_n_nonneg; intros; nra).
  assert (H2 : 0 <= f n * f n) by nra.
  destruct (Nat.eq_dec j n) as [->|Hne]; [nra|].
  apply IH; [lra|lia].
Qed.

Lemma forallb_zero (X : list R) :
  forallb (fun v => Req_bool v 0) X = true
  <-> forall j, (j < length X)%nat -> nth j X 0 = 0.
Proof.
  rewrite forallb_forall. split.
  - intros H j Hj. apply Req_bool_true. apply H. now apply nth_In.
  - intros H v Hv. apply Req_bool_true.
    destruct (In_nth _ _ 0 Hv) as (j & Hj & <-). now apply H.
Qed.

Lemma acorr_direct_0 (X : list R) :
  acorr_direct X 0 = Rsum_n (length X) (fun j => nth j X 0 * nth j X 0).
Proof.
  unfold acorr_direct. rewrite Nat.sub_0_r.
  apply Rsum_n_ext. intros j _. now rewrite Nat.add_0_r.
Qed.

Lemma acorr_biased_0_zero (X : list R) :
  X <> [] ->
  (acorr_biased X 0 = 0 <-> forallb (fun v => Req_bool v 0) X = true).
Proof.
  intros Hne.
  assert (HN : INR (length X) <> 0)
    by (apply not_0_INR; destruct X; [contradiction|simpl; lia]).
  unfold acorr_biased. rewrite acorr_direct_0, forallb_zero. split.
  - intros H. apply Rsum_n_squares_zero.
    unfold Rdiv in H. apply Rmult_integral in H.
    destruct H as [H|H]; [exact H|].
    exfalso. exact (Rinv_neq_0_compat _ HN H).
  - intros H. rewrite Rsum_n_zero; [unfold Rdiv; apply Rmult_0_l|].
    intros j Hj. rewrite H by exact Hj. apply Rmult_0_l.
Qed.

Lemma levinson_check_acorr (X : list R) (order : nat) :
  (2 <= length X)%nat -> (order <= length X)%nat ->
  levinson_check (acorr_lpc_values X) order
  = if forallb (fun v => Req_bool v 0) X
    then Some "First item should be != 0"%string else None.
Proof.
  intros HN Ho. unfold levinson_check.
  rewrite length_acorr_lpc_values by exact HN.
  replace (length X + 1 <? 1)%nat with false
    by (symmetry; apply Nat.ltb_ge; lia).
  replace (length X + 1 - 1 <? order)%nat with false
    by (symmetry; apply Nat.ltb_ge; lia).
  cbn [s_isreal s_recip_finite s_zero Scalar_R negb].
  rewrite acorr_lpc_values_nth by (rewrite length_acorr_lpc_values; lia).
  assert (Hne : X <> []) by (intros ->; simpl in HN; lia).
  pose proof (acorr_biased_0_zero Hne) as Hz.
  destruct (forallb (fun v => Req_bool v 0) X).
  - replace (Req_bool (acorr_biased X 0) 0) with true
      by (symmetry; apply Req_bool_true; now apply Hz).
    reflexivity.
  - destruct (Req_bool (acorr_biased X 0) 0) eqn:E; [|reflexivity].
    apply Req_bool_true in E. apply Hz in E. discriminate.
Qed.

(** X3. For a frame of at least two samples, [lpc] raises
    [ValueError("Input signal must have length >= order")] when the order
    exceeds the frame length; otherwise it raises
    [ValueError("First item should be != 0")] exactly when every sample of
    the frame is zero, and in all other cases it returns the outcome of the
    Levinson-Durbin recursion on the biased autocorrelation lags
    [0..N] of the frame. *)
Theorem lpc_outcome (g : garbage R) (X : list R) (order : nat) :
  (2 <= length X)%nat ->
  run_lpc g X order
  = if (length X <? order)%nat
    then Raise (ValueError "Input signal must have length >= order")
    else if forallb (fun v => Req_bool v 0) X
         then Raise (ValueError "First item should be != 0")
         else Ok (spec_levinson
                    (map (acorr_biased X) (seq 0 (length X + 1))) order).
Proof.
  intros HN. rewrite run_lpc_outcome.
  destruct (Nat.ltb_spec (length X) order) as [Hlt|Hge]; [reflexivity|].
  rewrite levinson_check_acorr by assumption.
  destruct (forallb (fun v => Req_bool v 0) X); [reflexivity|].
  now rewrite acorr_lpc_values_nth_all.
Qed.

Lemma lpc_outcome_witness :
  run_lpc zero_garbage [0; 0] 1
  = if (length [0; 0] <? 1)%nat
    then Raise (ValueError "Input signal must have length >= order")
    else if forallb (fun v => Req_bool v 0) [0; 0]
         then Raise (ValueError "First item should be != 0")
         else Ok (spec_levinson
                    (map (acorr_biased [0; 0]) (seq 0 (length [0; 0] + 1))) 1).
Proof.
  apply (@lpc_outcome zero_garbage [0; 0] 1). simpl. lia.
Defined.

Local Close Scope R_scope.

(** ** The reference routine *)

Local Open Scope R_scope.

Lemma nth_map_seq {A} (f : nat -> A) (n i : nat) (d : A) :
  (i < n)%nat -> nth i (map f (seq 0 n)) d = f i.
Proof.
  intros Hi.
  rewrite (nth_indep _ d (f 0%nat)) by (rewrite length_map, length_seq; lia).
  rewrite (map_nth f), seq_nth by lia. reflexivity.
Qed.

Lemma nth_tl {A} (l : list A) (j : nat) (d : A) : nth j (tl l) d = nth (S j) l d.
Proof. destruct l; destruct j; reflexivity. Qed.

Lemma length_tl {A} (l : list A) : length (tl l) = (length l - 1)%nat.
Proof. destruct l; simpl; lia. Qed.

Lemma nth_removelast_lt {A} (l : list A) (i : nat) (d : A) :
  (i + 1 < length l)%nat -> nth i (removelast l) d = nth i l d.
Proof.
  intros Hi. rewrite removelast_firstn_len, nth_firstn.
  now replace (i <? Nat.pred (length l))%nat with true
    by (symmetry; apply Nat.ltb_lt; lia).
Qed.

Lemma length_removelast {A} (l : list A) :
  length (removelast l) = (length l - 1)%nat.
Proof. rewrite removelast_firstn_len, length_firstn. lia. Qed.

Lemma length_lpc_ref_r (X : list R) (order : nat) :
  (1 <= length X)%nat -> (order <= length X)%nat ->
  length (lpc_ref_r X order) = (order + 1)%nat.
Proof.
  intros HN Ho. unfold lpc_ref_r, py_slice.
  rewrite length_app, !length_firstn, length_skipn, repeat_length,
    length_np_correlate_full.
  replace (Z.of_nat (length X) - 1 <? 0)%Z with false
    by (symmetry; apply Z.ltb_ge; lia).
  replace (Z.of_nat (length X) + Z.of_nat order <? 0)%Z with false
    by (symmetry; apply Z.ltb_ge; lia).
  lia.
Qed.

Lemma length_acorr_lpc_values_short (X : list R) :
  (length X < 2)%nat -> length (acorr_lpc_values X) = 1%nat.
Proof.
  intros H. unfold acorr_lpc_values. rewrite length_acorr_last_axis.
  destruct X as [|x [|y X]]; [reflexivity|reflexivity|simpl in H; lia].
Qed.

Lemma length_toeplitz (c : list R) : length (toeplitz c) = length c.
Proof. unfold toeplitz. now rewrite length_map, length_seq. Qed.

Lemma length_dot_mv (M : list (list R)) (v : list R) :
  length (dot_mv M v) = length M.
Proof. unfold dot_mv. apply length_map. Qed.

Lemma dot_mv_toeplitz_nth (c v : list R) (i : nat) :
  (i < length c)%nat -> length v = length c ->
  nth i (dot_mv (toeplitz c) v) 0
  = Rsum_n (length c) (fun j => nth (absdiff i j) c 0 * nth j v 0).
Proof.
  intros Hi Lv. unfold dot_mv, toeplitz. rewrite map_map.
  rewrite nth_map_seq by exact Hi. rewrite Lv.
  apply Rsum_n_ext. intros j Hj. now rewrite nth_map_seq by exact Hj.
Qed.

(** The coefficients that solve the system on the biased lags solve the
    system [lpc_ref] inverts. *)
Lemma lpc_ref_system (X : list R) (order : nat) (a : list R) :
  (2 <= length X)%nat -> (order <= length X)%nat ->
  length a = (order + 1)%nat ->
  levinson_system (acorr_lpc_values X) a order ->
  dot_mv (toeplitz (removelast (lpc_ref_r X order))) (tl a)
  = map Ropp (tl (lpc_ref_r X order)).
Proof.
  intros HN Ho La Hsys.
  set (r := lpc_ref_r X order).
  assert (Lr : length r = (order + 1)%nat) by (apply length_lpc_ref_r; lia).
  assert (Lc : length (removelast r) = order)
    by (rewrite length_removelast; lia).
  assert (HN0 : INR (length X) <> 0) by (apply not_0_INR; lia).
  assert (Hr : forall t, (t <= order)%nat ->
               nth t r 0 = INR (length X) * nth t (acorr_lpc_values X) 0).
  { intros t Ht. unfold r. rewrite lpc_ref_r_nth by lia.
    rewrite acorr_lpc_values_nth by (rewrite length_acorr_lpc_values; lia).
    unfold acorr_biased. field. exact HN0. }
  apply (nth_ext _ _ 0 0).
  - rewrite length_dot_mv, length_toeplitz, length_map, length_tl. lia.
  - intros i Hi. rewrite length_dot_mv, length_toeplitz, Lc in Hi.
    rewrite dot_mv_toeplitz_nth by (rewrite ?length_tl; lia).
    rewrite Lc.
    rewrite (nth_indep _ 0 (- 0)) by (rewrite length_map, length_tl; lia).
    rewrite (map_nth Ropp), nth_tl, Hr by lia.
    replace (- (INR (length X) * nth (S i) (acorr_lpc_values X) 0))
      with (INR (length X) * - nth (S i) (acorr_lpc_values X) 0) by ring.
    rewrite <- (Hsys (S i)) by lia.
    rewrite <- Rsum_n_scal. apply Rsum_n_ext. intros j Hj.
    rewrite nth_tl, nth_removelast_lt by (unfold absdiff; lia).
    rewrite Hr by (unfold absdiff; lia).
    replace (absdiff (S i) (S j)) with (absdiff i j) by (unfold absdiff; lia).
    ring.
Qed.

(** X4. Whenever [lpc] returns on a frame (with no reflection coefficient
    of square 1 before the last) and the matrix inverse used by [lpc_ref]
    is a left inverse of its Toeplitz matrix, [lpc_ref] returns the very
    coefficients [lpc] returns: the direct inversion and the
    Levinson-Durbin recursion agree. *)
Theorem lpc_ref_agrees_with_lpc
        (inv : list (list R) -> list (list R)) (g : garbage R)
        (signal : list R) (order : nat) (a : list R) (e : R) (k : list R) :
  run_lpc g signal order = Ok (a, e, k) ->
  (forall i, (i + 1 < order)%nat -> nth i k 0 * nth i k 0 <> 1) ->
  inverts (inv (toeplitz (removelast (lpc_ref_r signal order))))
          (toeplitz (removelast (lpc_ref_r signal order))) ->
  lpc_ref inv signal order = Ok a.
Proof.
  intros Hrun Hk [Linv Hinv]. rewrite run_lpc_outcome in Hrun. unfold lpc_ref.
  destruct (length signal <? order)%nat eqn:Elen; [discriminate|].
  apply Nat.ltb_ge in Elen.
  destruct (levinson_check (acorr_lpc_values signal) order) as [msg|] eqn:E;
    [discriminate|].
  injection Hrun as Hs. apply levinson_check_None in E.
  destruct order as [|p].
  - cbn in Hs. injection Hs as <- _ _. reflexivity.
  - change (0 <? S p)%nat with true. cbv iota zeta.
    assert (HN : (2 <= length signal)%nat).
    { destruct (le_lt_dec 2 (length signal)) as [|Hlt]; [assumption|].
      destruct E as [E _].
      rewrite (length_acorr_lpc_values_short _ Hlt) in E. lia. }
    assert (Hnd : nondegenerate (acorr_lpc_values signal) (S p)).
    { apply nondegenerate_of_reflections.
      - exact (levinson_pre_nonzero E).
      - rewrite Hs. exact Hk. }
    pose proof (spec_levinson_normal_equations Hnd) as H.
    rewrite Hs in H. destruct H as (La & H0 & Hrows & _).
    pose proof (@toeplitz_row_system _ _ _ H0 Hrows) as Hsys.
    rewrite <- (@lpc_ref_system _ _ _ HN Elen La Hsys).
    rewrite Hinv
      by (rewrite length_toeplitz, length_removelast, length_tl,
            length_lpc_ref_r; lia).
    destruct a as [|a0 a']; [simpl in La; lia|].
    cbn [nth tl] in *. now subst a0.
Qed.

Lemma example_lpc_order1 (g : garbage R) :
  run_lpc g [1; -1] 1 = Ok ([1; 1 / 2], 3 / 4, [1 / 2]).
Proof.
  rewrite run_lpc_outcome. cbn [length Nat.ltb Nat.leb].
  rewrite levinson_check_acorr by (simpl; lia).
  cbn [forallb]. unfold Req_bool.
  destruct (Req_dec_T 1 0) as [E|_]; [exfalso; lra|]. cbn [andb].
  rewrite acorr_lpc_values_nth_all by (simpl; lia).
  cbn [length Nat.add seq map].
  unfold spec_levinson, range. cbn [seq Nat.add Nat.sub fold_left].
  unfold spec_step, spec_sigma, range.
  cbn [seq Nat.add Nat.sub fold_left map app nth s_zero s_one s_add s_sub s_mul
       s_div s_neg s_conj Scalar_R].
  unfold acorr_biased, acorr_direct.
  cbn [length Nat.sub Nat.add Rsum_n nth INR].
  repeat first [apply (f_equal (@Ok _))
               | apply (f_equal2 (@pair _ _)) | apply (f_equal2 (@cons R))];
    try reflexivity; field.
Qed.

Lemma example_lpc_ref_r : lpc_ref_r [1; -1] 1 = [2; -1].
Proof.
  apply (nth_ext _ _ 0 0).
  - rewrite length_lpc_ref_r by (simpl; lia). reflexivity.
  - rewrite length_lpc_ref_r by (simpl; lia). intros m Hm.
    rewrite lpc_ref_r_nth by (simpl; lia).
    unfold acorr_direct.
    destruct m as [|[|m]]; [| |simpl in Hm; lia];
      cbn [length Nat.sub Nat.add Rsum_n nth]; lra.
Qed.

Lemma example_inverts :
  inverts (inv_1x1 (toeplitz (removelast (lpc_ref_r [1; -1] 1))))
          (toeplitz (removelast (lpc_ref_r [1; -1] 1))).
Proof.
  rewrite example_lpc_ref_r.
  change (toeplitz (removelast [2; -1])) with [[2]].
  split; [reflexivity|]. intros v Lv.
  destruct v as [|x [|y v]]; try discriminate.
  unfold inv_1x1, dot_mv. cbn [map length Rsum_n nth]. f_equal. field.
Qed.

Lemma lpc_ref_agrees_with_lpc_witness :
  lpc_ref inv_1x1 [1; -1] 1 = Ok [1; 1 / 2].
Proof.
  apply (@lpc_ref_agrees_with_lpc inv_1x1 zero_garbage [1; -1] 1
           [1; 1 / 2] (3 / 4) [1 / 2]).
  - apply example_lpc_order1.
  - intros i Hi. lia.
  - apply example_inverts.
Defined.

Local Close Scope R_scope.

(** ** The zero lag dominates the autocorrelation *)

Local Open Scope R_scope.

Lemma Rsum_n_le (n : nat) (f h : nat -> R) :
  (forall k, (k < n)%nat -> f k <= h k) -> Rsum_n n f <= Rsum_n n h.
Proof.
  induction n as [|n IH]; intros H; cbn [Rsum_n]; [lra|].
  pose proof (IH ltac:(intros; apply H; lia)). pose proof (H n ltac:(lia)). lra.
Qed.

Lemma Rsum_n_mono (n n' : nat) (f : nat -> R) :
  (n <= n')%nat -> (forall k, 0 <= f k) -> Rsum_n n f <= Rsum_n n' f.
Proof.
  intros Hle Hf. induction Hle as [|n' Hle IH]; [lra|].
  cbn [Rsum_n]. pose proof (Hf n'). lra.
Qed.

Lemma Rsum_n_shift_le (n m : nat) (f : nat -> R) :
  (forall k, 0 <= f k) ->
  Rsum_n n (fun j => f (j + m)%nat) <= Rsum_n (n + m) f.
Proof.
  intros Hf. induction n as [|n IH].
  - cbn [Rsum_n]. apply Rsum_n_nonneg. intros; apply Hf.
  - cbn [Rsum_n Nat.add]. lra.
Qed.

Lemma prod_le_half_squares (a b : R) :
  - (/ 2 * (a * a) + / 2 * (b * b)) <= a * b <= / 2 * (a * a) + / 2 * (b * b).
Proof.
  pose proof (Rle_0_sqr (a - b)) as H1. pose proof (Rle_0_sqr (a + b)) as H2.
  unfold Rsqr in *. lra.
Qed.

Lemma acorr_direct_bound (X : list R) (m : nat) :
  Rabs (acorr_direct X m) <= acorr_direct X 0.
Proof.
  rewrite acorr_direct_0. unfold acorr_direct.
  set (sq := fun j => nth j X 0 * nth j X 0).
  assert (Hsq : forall k, 0 <= sq k) by (intros k; unfold sq; nra).
  set (n := (length X - m)%nat).
  assert (H1 : Rsum_n n sq <= Rsum_n (length X) sq)
    by (apply Rsum_n_mono; [unfold n; lia|exact Hsq]).
  assert (H2 : Rsum_n n (fun j => sq (j + m)%nat) <= Rsum_n (length X) sq).
  { destruct (le_lt_dec m (length X)) as [Hm|Hm].
    - pose proof (@Rsum_n_shift_le n m sq Hsq) as H.
      replace (n + m)%nat with (length X) in H by (unfold n; lia).
      exact H.
    - replace n with 0%nat by (unfold n; lia). cbn [Rsum_n].
      apply Rsum_n_nonneg. intros; apply Hsq. }
  assert (Hup : Rsum_n n (fun j => nth j X 0 * nth (j + m) X 0)
                <= Rsum_n n (fun j => / 2 * sq j + / 2 * sq (j + m)%nat))
    by (apply Rsum_n_le; intros k _; unfold sq; apply prod_le_half_squares).
  assert (Hlo : Rsum_n n (fun j => - (/ 2 * sq j + / 2 * sq (j + m)%nat))
                <= Rsum_n n (fun j => nth j X 0 * nth (j + m) X 0))
    by (apply Rsum_n_le; intros k _; unfold sq; apply prod_le_half_squares).
  rewrite (@Rsum_n_ext n (fun j => - (/ 2 * sq j + / 2 * sq (j + m)%nat))
             (fun j => -1 * (/ 2 * sq j + / 2 * sq (j + m)%nat))) in Hlo
    by (intros; ring).
  rewrite Rsum_n_scal in Hlo.
  rewrite Rsum_n_plus, !Rsum_n_scal in Hup, Hlo.
  apply Rabs_le. lra.
Qed.

Lemma acorr_lpc_values_dominated (X : list R) :
  (2 <= length X)%nat ->
  0 <= nth 0 (acorr_lpc_values X) 0
  /\ (forall m, Rabs (nth m (acorr_lpc_values X) 0)
                <= nth 0 (acorr_lpc_values X) 0).
Proof.
  intros HN.
  assert (L := @length_acorr_lpc_values X HN).
  assert (HN0 : 0 < INR (length X)) by (apply lt_0_INR; lia).
  assert (H0 : nth 0 (acorr_lpc_values X) 0 = acorr_direct X 0 / INR (length X))
    by (rewrite acorr_lpc_values_nth by lia; reflexivity).
  assert (Hpos : 0 <= acorr_direct X 0).
  { rewrite acorr_direct_0. apply Rsum_n_nonneg. intros; nra. }
  assert (Hr0 : 0 <= nth 0 (acorr_lpc_values X) 0).
  { rewrite H0. apply Rmult_le_pos; [exact Hpos|].
    apply Rlt_le, Rinv_0_lt_compat, HN0. }
  split; [exact Hr0|].
  intros m. destruct (le_lt_dec (length (acorr_lpc_values X)) m) as [Hm|Hm].
  - rewrite nth_overflow by exact Hm. now rewrite Rabs_R0.
  - rewrite acorr_lpc_values_nth by exact Hm. rewrite H0.
    unfold acorr_biased, Rdiv. rewrite Rabs_mult.
    rewrite (Rabs_pos_eq (/ INR (length X)))
      by (apply Rlt_le, Rinv_0_lt_compat, HN0).
    apply Rmult_le_compat_r; [apply Rlt_le, Rinv_0_lt_compat, HN0|].
    apply acorr_direct_bound.
Qed.

(** X5. For a frame of [N >= 2] samples, the vector [acorr_lpc] returns has
    a non-negative first entry that no entry exceeds in absolute value, and
    its last entry (lag [N]) is zero. *)
Theorem acorr_lpc_zero_lag_dominates (X : list R) :
  (2 <= length X)%nat ->
  0 <= nth 0 (acorr_lpc_values X) 0
  /\ (forall m, Rabs (nth m (acorr_lpc_values X) 0)
                <= nth 0 (acorr_lpc_values X) 0)
  /\ nth (length X) (acorr_lpc_values X) 0 = 0.
Proof.
  intros HN. destruct (@acorr_lpc_values_dominated X HN) as [Hpos Hdom].
  split; [exact Hpos|]. split; [exact Hdom|].
  assert (L := @length_acorr_lpc_values X HN).
  rewrite acorr_lpc_values_nth by lia.
  unfold acorr_biased, acorr_direct. rewrite Nat.sub_diag. cbn [Rsum_n].
  unfold Rdiv. apply Rmult_0_l.
Qed.

Lemma acorr_lpc_zero_lag_dominates_witness :
  0 <= nth 0 (acorr_lpc_values [1; -1]) 0
  /\ (forall m, Rabs (nth m (acorr_lpc_values [1; -1]) 0)
                <= nth 0 (acorr_lpc_values [1; -1]) 0)
  /\ nth (length [1; -1]) (acorr_lpc_values [1; -1]) 0 = 0.
Proof.
  apply (@acorr_lpc_zero_lag_dominates [1; -1]). simpl. lia.
Defined.

Local Close Scope R_scope.

(** ** The time grid of an extraction *)

Local Open Scope R_scope.

Lemma np_arange_values (start stop step : Z) :
  step <> 0%Z ->
  np_arange start stop step
  = Ok (map (fun i => (start + Z.of_nat i * step)%Z)
            (seq 0 (Z.to_nat (- ((- (stop - start)) / step))))).
Proof.
  intros Hs. unfold np_arange.
  now replace (step =? 0)%Z with false by (symmetry; apply Z.eqb_neq; exact Hs).
Qed.

Lemma np_arange_count_pos (start stop step : Z) :
  (0 < step)%Z -> (start < stop)%Z ->
  (1 <= Z.to_nat (- ((- (stop - start)) / step)))%nat.
Proof.
  intros Hs Hlt.
  assert (H : ((- (stop - start)) / step < 0)%Z)
    by (apply Z.div_lt_upper_bound; lia).
  lia.
Qed.

Lemma dict_set_fresh {V} (key : R) (v : V) (d : list (R * V)) :
  ~ In key (map fst d) -> dict_set key v d = d ++ [(key, v)].
Proof.
  induction d as [|[k' v'] d IH]; simpl; intros H; [reflexivity|].
  destruct (Req_dec_T k' key) as [E|_]; [exfalso; apply H; now left|].
  rewrite IH; [reflexivity|]. intros Hin; apply H; now right.
Qed.

Lemma NoDup_map_injective {A B} (f : A -> B) (l : list A) :
  (forall x y, f x = f y -> x = y) -> NoDup l -> NoDup (map f l).
Proof.
  intros Hinj Hnd. induction Hnd as [|x l Hx Hnd IH]; simpl; constructor; auto.
  intros Hin. apply in_map_iff in Hin. destruct Hin as (y & Hy & Hin).
  apply Hinj in Hy. now subst y.
Qed.

Lemma process_frames_keys (np_roots : list R -> list C) (g : garbage R)
      (self : Formants) (proc window : list R) (nperseg : Z) (new_sr : R)
      (indices : list Z) (rep track : FormantTrack) :
  process_frames np_roots g self proc window nperseg new_sr indices rep
  = Ok track ->
  NoDup (map fst rep ++ map (fun idx => IZR idx / new_sr) indices) ->
  map fst track = map fst rep ++ map (fun idx => IZR idx / new_sr) indices.
Proof.
  revert rep. induction indices as [|idx rest IH]; intros rep Hrun Hnd;
    simpl in *.
  - injection Hrun as <-. now rewrite app_nil_r.
  - destruct (process_frame np_roots g self proc window nperseg new_sr idx)
      as [fr|]; [|discriminate].
    cbn [rbind] in Hrun.
    assert (Hfresh : ~ In (IZR idx / new_sr) (map fst rep)).
    { apply NoDup_remove_2 in Hnd. intros Hin. apply Hnd.
      apply in_or_app. now left. }
    rewrite (@dict_set_fresh _ _ fr _ Hfresh) in Hrun.
    apply IH in Hrun.
    + rewrite Hrun, map_app. cbn [map fst]. now rewrite <- app_assoc.
    + rewrite map_app. cbn [map fst]. rewrite <- app_assoc. exact Hnd.
Qed.

Lemma time_key_injective (half step : Z) (new_sr : R) (i j : nat) :
  new_sr <> 0 -> step <> 0%Z ->
  IZR (half + Z.of_nat i * step) / new_sr
  = IZR (half + Z.of_nat j * step) / new_sr ->
  i = j.
Proof.
  intros Hsr Hstep H. unfold Rdiv in H.
  apply Rmult_eq_reg_r in H; [|now apply Rinv_neq_0_compat].
  apply eq_IZR in H.
  assert (E : (Z.of_nat i * step = Z.of_nat j * step)%Z) by lia.
  apply Z.mul_cancel_r in E; [lia|exact Hstep].
Qed.

(** The keys of a completed extraction are the centres [np.arange] gives,
    divided by the working rate. *)
Lemma process_keys
      (np_roots : list R -> list C) (g : garbage R)
      (self : Formants) (proc : list R) (track : FormantTrack) :
  snd (_freq_lims self) <> 0 ->
  process np_roots g self proc = Ok track ->
  let new_sr := 2 * snd (_freq_lims self) in
  let nperseg := Rtrunc (_win_len self * new_sr) in
  let nperstep := Rtrunc (_time_step self * new_sr) in
  let half := Z.quot nperseg 2 in
  exists indices,
    np_arange half (Z.of_nat (length proc) - half + 1) nperstep = Ok indices
    /\ nperstep <> 0%Z
    /\ map fst track = map (fun idx => IZR idx / new_sr) indices.
Proof.
  intros Hmax Hrun new_sr nperseg nperstep half.
  unfold process in Hrun. cbv zeta in Hrun.
  fold new_sr nperseg nperstep half in Hrun.
  destruct (analysis_window (_window_shape self) nperseg) as [w|];
    [|discriminate].
  cbn [rbind] in Hrun.
  destruct (Z.eq_dec nperstep 0) as [E|Hstep].
  { unfold np_arange in Hrun. rewrite E in Hrun. discriminate. }
  rewrite np_arange_values in Hrun |- * by exact Hstep.
  cbn [rbind] in Hrun. eexists. split; [reflexivity|]. split; [exact Hstep|].
  apply process_frames_keys in Hrun; [exact Hrun|].
  cbn [map app]. rewrite map_map.
  apply NoDup_map_injective; [|apply seq_NoDup].
  intros i j. apply time_key_injective; [unfold new_sr; lra|exact Hstep].
Qed.

(** X6. A completed extraction with a non-zero frequency limit records
    exactly one frame per window centre: the keys of the track, in the order
    they were inserted, are the centres [half + i*step] (in samples,
    [i = 0, 1, ...] up to the count [np.arange] gives) divided by the
    working rate. *)
Theorem process_time_grid
        (np_roots : list R -> list C) (g : garbage R)
        (self : Formants) (proc : list R) (track : FormantTrack) :
  snd (_freq_lims self) <> 0 ->
  process np_roots g self proc = Ok track ->
  let new_sr := 2 * snd (_freq_lims self) in
  let nperseg := Rtrunc (_win_len self * new_sr) in
  let nperstep := Rtrunc (_time_step self * new_sr) in
  let half := Z.quot nperseg 2 in
  let count :=
    Z.to_nat (- ((- (Z.of_nat (length proc) - half + 1 - half)) / nperstep)) in
  map fst track
  = map (fun i => IZR (half + Z.of_nat i * nperstep) / new_sr) (seq 0 count).
Proof.
  intros Hmax Hrun new_sr nperseg nperstep half count.
  destruct (@process_keys np_roots g self proc track Hmax Hrun)
    as (indices & Har & Hstep & Hkeys).
  fold new_sr nperseg nperstep half in Har, Hstep, Hkeys.
  rewrite np_arange_values in Har by exact Hstep.
  injection Har as <-. rewrite Hkeys, map_map. reflexivity.
Qed.

Lemma process_time_grid_witness :
  let new_sr := 2 * snd (_freq_lims example_extractor) in
  let nperseg := Rtrunc (_win_len example_extractor * new_sr) in
  let nperstep := Rtrunc (_time_step example_extractor * new_sr) in
  let half := Z.quot nperseg 2 in
  let count :=
    Z.to_nat (- ((- (Z.of_nat (length example_signal) - half + 1 - half))
                 / nperstep)) in
  map fst [(1 / (2 * 4096), example_frame)]
  = map (fun i => IZR (half + Z.of_nat i * nperstep) / new_sr) (seq 0 count).
Proof.
  apply (@process_time_grid quadratic_roots zero_garbage example_extractor
           example_signal [(1 / (2 * 4096), example_frame)]).
  - simpl. lra.
  - apply example_extraction.
Defined.

(** ** Every recorded formant lies in the band *)

Lemma process_frames_Forall (P : FormantFrame -> Prop)
      (np_roots : list R -> list C) (g : garbage R)
      (self : Formants) (proc window : list R) (nperseg : Z) (new_sr : R)
      (indices : list Z) (rep track : FormantTrack) :
  (forall rts, P (frame_formants (snd (_freq_lims self)) new_sr
                                 (_num_formants self) rts)) ->
  Forall (fun kv => P (snd kv)) rep ->
  process_frames np_roots g self proc window nperseg new_sr indices rep
  = Ok track ->
  Forall (fun kv => P (snd kv)) track.
Proof.
  intros HP. revert rep. induction indices as [|idx rest IH]; intros rep Hrep;
    simpl.
  - intros H; injection H as <-; exact Hrep.
  - destruct (process_frame np_roots g self proc window nperseg new_sr idx)
      as [fr|] eqn:E; [|discriminate].
    cbn [rbind]. apply IH. apply dict_set_Forall; [exact Hrep|].
    intros k'. cbn [snd]. unfold process_frame in E.
    destruct (np_mul _ window) as [X|]; [|discriminate]. cbn [rbind] in E.
    destruct (run_lpc g X (_num_formants self * 2)) as [Aek|]; [|discriminate].
    cbn [rbind] in E. injection E as <-. apply HP.
Qed.

Lemma process_Forall (P : FormantFrame -> Prop)
      (np_roots : list R -> list C) (g : garbage R)
      (self : Formants) (proc : list R) (track : FormantTrack) :
  (forall rts, P (frame_formants (snd (_freq_lims self))
                                 (2 * snd (_freq_lims self))
                                 (_num_formants self) rts)) ->
  process np_roots g self proc = Ok track ->
  Forall (fun kv => P (snd kv)) track.
Proof.
  intros HP. unfold process.
  destruct (analysis_window _ _) as [window|]; [|discriminate]. cbn [rbind].
  destruct (np_arange _ _ _) as [indices|]; [|discriminate]. cbn [rbind].
  apply process_frames_Forall; [exact HP|constructor].
Qed.

Lemma frame_formants_in_band (max_freq new_sr : R) (n : nat) (rts : list C)
      (entry : FormantCandidate) :
  In entry (frame_formants max_freq new_sr n rts) ->
  entry = (None, None)
  \/ exists f bw, entry = (Some f, Some bw) /\ 50 <= f <= max_freq - 50.
Proof.
  unfold frame_formants. intros Hin.
  assert (H : In entry (map (fun fb : R * R => (Some (fst fb), Some (snd fb)))
                            (survivors max_freq new_sr rts))
              \/ entry = (None, None)).
  { destruct (Z.eqb _ _); [now left|].
    apply in_app_or in Hin. destruct Hin as [Hin|Hin]; [now left|].
    right. now apply repeat_spec in Hin. }
  destruct H as [H|H]; [|now left]. right.
  apply in_map_iff in H. destruct H as ([f bw] & <- & Hs).
  exists f, bw. split; [reflexivity|].
  unfold survivors in Hs. apply filter_In in Hs. destruct Hs as [_ Hb].
  cbn [fst] in Hb. unfold in_band in Hb.
  apply andb_true_iff in Hb. destruct Hb as [H1 H2].
  apply negb_true_iff in H1, H2. unfold Rlt_bool in H1, H2.
  destruct (Rlt_dec f 50); [discriminate|].
  destruct (Rlt_dec (max_freq - 50) f); [discriminate|]. lra.
Qed.

(** X7. Whatever the root finder returns, every entry of every frame a
    completed extraction records is either the missing sentinel
    [(None, None)] or a formant whose frequency lies between 50 Hz and
    [max_freq - 50] Hz. *)
Theorem process_formants_in_band
        (np_roots : list R -> list C) (g : garbage R)
        (self : Formants) (proc : list R) (track : FormantTrack)
        (t : R) (frame : FormantFrame) (entry : FormantCandidate) :
  process np_roots g self proc = Ok track ->
  dict_get t track = Some frame ->
  In entry frame ->
  entry = (None, None)
  \/ exists f bw, entry = (Some f, Some bw)
                  /\ 50 <= f <= snd (_freq_lims self) - 50.
Proof.
  intros Hrun Hget Hin.
  pose proof (@process_Forall
                (fun fr => forall en, In en fr ->
                   en = (None, None)
                   \/ exists f bw, en = (Some f, Some bw)
                                   /\ 50 <= f <= snd (_freq_lims self) - 50)
                np_roots g self proc track
                (fun rts en => @frame_formants_in_band _ _ _ rts en) Hrun)
    as Hall.
  destruct (dict_get_Some_In _ _ Hget) as [k Hk].
  rewrite Forall_forall in Hall. exact (Hall _ Hk entry Hin).
Qed.

Lemma process_formants_in_band_witness :
  (Some (fst (candidate_of_root (2 * 4096) example_root)),
   Some (snd (candidate_of_root (2 * 4096) example_root)))
  = (None, None)
  \/ exists f bw,
       (Some (fst (candidate_of_root (2 * 4096) example_root)),
        Some (snd (candidate_of_root (2 * 4096) example_root)))
       = (Some f, Some bw)
       /\ 50 <= f <= snd (_freq_lims example_extractor) - 50.
Proof.
  apply (@process_formants_in_band quadratic_roots zero_garbage
           example_extractor example_signal
           [(1 / (2 * 4096), example_frame)] (1 / (2 * 4096)) example_frame).
  - apply example_extraction.
  - simpl. destruct (Req_dec_T (1 / (2 * 4096)) (1 / (2 * 4096))) as [_|E];
      [reflexivity|exfalso; apply E; reflexivity].
  - left. reflexivity.
Defined.

Local Close Scope R_scope.

(** ** Windows of an odd number of samples *)

Local Open Scope R_scope.

(** X8. With a window of an odd number [N >= 3] of samples and a positive
    hop, the extraction raises
    [ValueError("operands could not be broadcast together")] on every signal
    of at least [N - 1] samples: the first frame cut out has [N - 1]
    samples and is multiplied with the window of [N]. *)
Theorem process_odd_window_raises
        (np_roots : list R -> list C) (g : garbage R)
        (self : Formants) (proc : list R) :
  let new_sr := 2 * snd (_freq_lims self) in
  let nperseg := Rtrunc (_win_len self * new_sr) in
  let nperstep := Rtrunc (_time_step self * new_sr) in
  (3 <= nperseg)%Z -> Z.odd nperseg = true -> (0 < nperstep)%Z ->
  (nperseg - 1 <= Z.of_nat (length proc))%Z ->
  process np_roots g self proc
  = Raise (ValueError "operands could not be broadcast together").
Proof.
  intros new_sr nperseg nperstep Hn Hodd Hstep Hlen.
  unfold process. cbv zeta. fold new_sr nperseg nperstep.
  assert (Hn0 : (0 <= nperseg)%Z) by lia.
  destruct (@analysis_window_ok (_window_shape self) nperseg Hn0) as [w Hw].
  pose proof (@analysis_window_length _ _ w Hn0 Hw) as Lw.
  rewrite Hw. cbn [rbind].
  apply Z.odd_spec in Hodd. destruct Hodd as [q Hq].
  assert (Hh : Z.quot nperseg 2 = q).
  { rewrite Z.quot_div_nonneg by lia. rewrite Hq.
    rewrite Z.mul_comm, Z.div_add_l by lia.
    change (1 / 2)%Z with 0%Z. lia. }
  rewrite Hh, np_arange_values by lia. cbn [rbind].
  pose proof (@np_arange_count_pos q (Z.of_nat (length proc) - q + 1) nperstep
                Hstep ltac:(lia)) as Hc.
  destruct (Z.to_nat (- ((- (Z.of_nat (length proc) - q + 1 - q)) / nperstep)))
    as [|c]; [lia|].
  cbn [seq map process_frames]. unfold process_frame at 1.
  rewrite Hh.
  replace (q + Z.of_nat 0 * nperstep - q)%Z with 0%Z by lia.
  replace (q + Z.of_nat 0 * nperstep + q)%Z with (2 * q)%Z by lia.
  unfold np_mul. rewrite py_slice_length by lia. rewrite Lw.
  replace (Z.to_nat (2 * q - 0) =? Z.to_nat nperseg)%nat with false
    by (symmetry; apply Nat.eqb_neq; lia).
  replace (Z.to_nat (2 * q - 0) =? 1)%nat with false
    by (symmetry; apply Nat.eqb_neq; lia).
  replace (Z.to_nat nperseg =? 1)%nat with false
    by (symmetry; apply Nat.eqb_neq; lia).
  reflexivity.
Qed.

Lemma odd_window_example :
  Rtrunc (_win_len (LpcFormants_init 4096 2 (3 / 16384) (1 / 8192) "gaussian")
          * (2 * snd (_freq_lims (LpcFormants_init 4096 2 (3 / 16384)
                                                   (1 / 8192) "gaussian"))))
  = 3%Z
  /\ Rtrunc (_time_step (LpcFormants_init 4096 2 (3 / 16384) (1 / 8192)
                                          "gaussian")
             * (2 * snd (_freq_lims (LpcFormants_init 4096 2 (3 / 16384)
                                                      (1 / 8192) "gaussian"))))
     = 1%Z.
Proof.
  unfold LpcFormants_init, Formants_init.
  cbn [_freq_lims _win_len _time_step snd String.eqb Ascii.eqb Bool.eqb].
  replace (3 / 16384 * 2 * (2 * 4096)) with (IZR 3) by lra.
  replace (1 / 8192 * (2 * 4096)) with (IZR 1) by lra.
  now rewrite !Rtrunc_IZR.
Qed.

Lemma process_odd_window_raises_witness :
  process quadratic_roots zero_garbage
          (LpcFormants_init 4096 2 (3 / 16384) (1 / 8192) "gaussian")
          [1; 2; 3; 4; 5]
  = Raise (ValueError "operands could not be broadcast together").
Proof.
  destruct odd_window_example as [E1 E2].
  apply (@process_odd_window_raises quadratic_roots zero_garbage
           (LpcFormants_init 4096 2 (3 / 16384) (1 / 8192) "gaussian")
           [1; 2; 3; 4; 5]).
  - rewrite E1. lia.
  - rewrite E1. reflexivity.
  - rewrite E2. lia.
  - rewrite E1. simpl. lia.
Defined.

Local Close Scope R_scope.

(** ** Silent frames *)

Local Open Scope R_scope.

Lemma run_lpc_raise_ValueError (g : garbage R) (X : list R) (order : nat)
      (e : exn) :
  run_lpc g X order = Raise e -> exists msg, e = ValueError msg.
Proof.
  rewrite run_lpc_outcome.
  destruct (length X <? order)%nat.
  - intros H; injection H as <-; eauto.
  - destruct (levinson_check (acorr_lpc_values X) order) as [msg|];
      [|discriminate].
    intros H; injection H as <-; eauto.
Qed.

Lemma process_frame_raise_ValueError
      (np_roots : list R -> list C) (g : garbage R) (self : Formants)
      (proc window : list R) (nperseg : Z) (new_sr : R) (idx : Z) (e : exn) :
  process_frame np_roots g self proc window nperseg new_sr idx = Raise e ->
  exists msg, e = ValueError msg.
Proof.
  unfold process_frame, np_mul.
  destruct (length _ =? length window)%nat; cbn [rbind].
  2: destruct (length _ =? 1)%nat; cbn [rbind].
  3: destruct (length window =? 1)%nat; cbn [rbind].
  4: intros H; injection H as <-; eauto.
  all: match goal with
       | |- context [run_lpc ?g0 ?X ?o] =>
           destruct (run_lpc g0 X o) as [Aek|e'] eqn:E; cbn [rbind];
           [discriminate|]
       end;
    intros H; injection H as <-; eapply run_lpc_raise_ValueError; eauto.
Qed.

Lemma process_frames_raise
      (np_roots : list R -> list C) (g : garbage R) (self : Formants)
      (proc window : list R) (nperseg : Z) (new_sr : R)
      (indices : list Z) (idx : Z) (rep : FormantTrack) :
  In idx indices ->
  (exists msg, process_frame np_roots g self proc window nperseg new_sr idx
               = Raise (ValueError msg)) ->
  exists msg, process_frames np_roots g self proc window nperseg new_sr
                             indices rep
              = Raise (ValueError msg).
Proof.
  intros Hin [msg Hm]. revert rep.
  induction indices as [|i0 rest IH]; intros rep; [contradiction|].
  cbn [process_frames].
  destruct (process_frame np_roots g self proc window nperseg new_sr i0)
    as [fr|e] eqn:E; cbn [rbind].
  - destruct Hin as [->|Hin]; [congruence|]. now apply IH.
  - destruct (process_frame_raise_ValueError _ _ _ _ _ _ _ _ E) as [m ->].
    eauto.
Qed.

Lemma in_map2 {A B D} (f : A -> B -> D) (l1 : list A) (l2 : list B) (v : D) :
  In v (map2 f l1 l2) -> exists a b, In a l1 /\ In b l2 /\ v = f a b.
Proof.
  revert l2. induction l1 as [|a l1 IH]; intros [|b l2]; simpl; try tauto.
  intros [<-|H].
  - exists a, b. auto.
  - destruct (IH _ H) as (a' & b' & Ha & Hb & ->). exists a', b'. auto.
Qed.

Lemma length_map2 {A B D} (f : A -> B -> D) (l1 : list A) (l2 : list B) :
  length (map2 f l1 l2) = Nat.min (length l1) (length l2).
Proof.
  revert l2. induction l1 as [|a l1 IH]; intros [|b l2]; simpl; auto.
Qed.

Lemma py_slice_inside {A} (l : list A) (lo hi : Z) :
  (0 <= lo <= hi)%Z -> (hi <= Z.of_nat (length l))%Z ->
  py_slice l lo hi = firstn (Z.to_nat (hi - lo)) (skipn (Z.to_nat lo) l).
Proof.
  intros H1 H2. unfold py_slice.
  replace (lo <? 0)%Z with false by (symmetry; apply Z.ltb_ge; lia).
  replace (hi <? 0)%Z with false by (symmetry; apply Z.ltb_ge; lia).
  f_equal; [|f_equal]; lia.
Qed.

Lemma process_frame_silent
      (np_roots : list R -> list C) (g : garbage R) (self : Formants)
      (proc window : list R) (nperseg : Z) (new_sr : R) (idx : Z) :
  (2 <= nperseg)%Z -> length window = Z.to_nat nperseg ->
  (0 <= idx - Z.quot nperseg 2)%Z ->
  (idx + Z.quot nperseg 2 <= Z.of_nat (length proc))%Z ->
  (2 * Z.quot nperseg 2 = nperseg)%Z ->
  (forall j, (j < Z.to_nat nperseg)%nat ->
     nth (Z.to_nat (idx - Z.quot nperseg 2) + j) proc 0 = 0) ->
  exists msg, process_frame np_roots g self proc window nperseg new_sr idx
              = Raise (ValueError msg).
Proof.
  intros Hn Lw Hlo Hhi Hq Hzero. unfold process_frame.
  set (half := Z.quot nperseg 2) in *.
  set (X := py_slice proc (idx - half) (idx + half)).
  assert (LX : length X = Z.to_nat nperseg)
    by (unfold X; rewrite py_slice_length by lia; lia).
  assert (HX : forall v, In v X -> v = 0).
  { intros v Hv. unfold X in Hv, LX. rewrite py_slice_inside in Hv, LX by lia.
    destruct (In_nth _ _ 0 Hv) as (j & Hj & <-).
    rewrite LX in Hj. rewrite nth_firstn.
    replace (j <? Z.to_nat (idx + half - (idx - half)))%nat with true
      by (symmetry; apply Nat.ltb_lt; lia).
    rewrite nth_skipn. now apply Hzero. }
  unfold np_mul. rewrite LX, Lw, Nat.eqb_refl. cbn [rbind].
  set (Y := map2 Rmult X window).
  assert (LY : (2 <= length Y)%nat)
    by (unfold Y; rewrite length_map2; lia).
  assert (HY : forallb (fun v => Req_bool v 0) Y = true).
  { apply forallb_forall. intros v Hv. apply Req_bool_true.
    destruct (in_map2 _ _ _ _ Hv) as (a & b & Ha & _ & ->).
    rewrite (HX a Ha). apply Rmult_0_l. }
  rewrite run_lpc_outcome.
  destruct (Nat.ltb_spec (length Y) (_num_formants self * 2)) as [Hlt|Hge];
    cbn [rbind]; [eauto|].
  rewrite levinson_check_acorr, HY by assumption.
  cbn [rbind]. eauto.
Qed.

(** X9. With a window of an even number [N >= 2] of samples and a positive
    hop, the extraction raises [ValueError] as soon as one of the frames it
    would analyse is silent (its [N] samples are all zero): [lpc] refuses a
    frame whose zero-lag autocorrelation is zero, or one shorter than the
    order. *)
Theorem process_silent_frame_raises
        (np_roots : list R -> list C) (g : garbage R)
        (self : Formants) (proc : list R) (i : nat) :
  let new_sr := 2 * snd (_freq_lims self) in
  let nperseg := Rtrunc (_win_len self * new_sr) in
  let nperstep := Rtrunc (_time_step self * new_sr) in
  (2 <= nperseg)%Z -> Z.even nperseg = true -> (0 < nperstep)%Z ->
  (Z.of_nat i * nperstep + nperseg <= Z.of_nat (length proc))%Z ->
  (forall j, (j < Z.to_nat nperseg)%nat ->
     nth (Z.to_nat (Z.of_nat i * nperstep) + j) proc 0 = 0) ->
  exists msg, process np_roots g self proc = Raise (ValueError msg).
Proof.
  intros new_sr nperseg nperstep Hn Hev Hstep Hlen Hzero.
  unfold process. cbv zeta. fold new_sr nperseg nperstep.
  assert (Hn0 : (0 <= nperseg)%Z) by lia.
  destruct (@analysis_window_ok (_window_shape self) nperseg Hn0) as [w Hw].
  pose proof (@analysis_window_length _ _ w Hn0 Hw) as Lw.
  rewrite Hw. cbn [rbind].
  apply Z.even_spec in Hev. destruct Hev as [q Hq].
  assert (Hh : Z.quot nperseg 2 = q).
  { rewrite Z.quot_div_nonneg by lia. rewrite Hq, Z.mul_comm.
    apply Z.div_mul. lia. }
  rewrite np_arange_values by lia. cbn [rbind].
  apply process_frames_raise with (idx := (q + Z.of_nat i * nperstep)%Z).
  - rewrite Hh. apply in_map_iff. exists i. split; [reflexivity|].
    apply in_seq. split; [lia|].
    assert (H : ((- (Z.of_nat (length proc) - q + 1 - q)) / nperstep
                 < - Z.of_nat i)%Z)
      by (apply Z.div_lt_upper_bound; lia).
    lia.
  - apply process_frame_silent; rewrite ?Hh; try lia; try assumption.
    intros j Hj.
    replace (q + Z.of_nat i * nperstep - q)%Z with (Z.of_nat i * nperstep)%Z
      by lia.
    now apply Hzero.
Qed.

Lemma example_grid :
  Rtrunc (_win_len example_extractor * (2 * snd (_freq_lims example_extractor)))
  = 2%Z
  /\ Rtrunc (_time_step example_extractor
             * (2 * snd (_freq_lims example_extractor))) = 1%Z.
Proof.
  unfold example_extractor, LpcFormants_init, Formants_init.
  cbn [_freq_lims _win_len _time_step snd String.eqb Ascii.eqb Bool.eqb].
  replace (1 / 8192 * 2 * (2 * 4096)) with (IZR 2) by lra.
  replace (1 / 8192 * (2 * 4096)) with (IZR 1) by lra.
  now rewrite !Rtrunc_IZR.
Qed.

Lemma process_silent_frame_raises_witness :
  exists msg,
    process quadratic_roots zero_garbage example_extractor [1; 0; 0]
    = Raise (ValueError msg).
Proof.
  destruct example_grid as [E1 E2].
  apply (@process_silent_frame_raises quadratic_roots zero_garbage
           example_extractor [1; 0; 0] 1).
  - rewrite E1. lia.
  - rewrite E1. reflexivity.
  - rewrite E2. lia.
  - rewrite E1, E2. simpl. lia.
  - rewrite E1, E2. intros j Hj.
    destruct j as [|[|j]]; [reflexivity|reflexivity|simpl in Hj; lia].
Defined.

Local Close Scope R_scope.

(** ** Projection of extracted tracks, unknown channels and ragged tracks *)

Local Open Scope R_scope.

Lemma to_array_rows_shape (rep : FormantTrack) (value : string) (L : nat)
      (times : list R) :
  Forall (fun kv => length (snd kv) = L) rep ->
  (forall t, In t times -> In t (map fst rep)) ->
  exists rows,
    to_array_rows rep value L times = Ok rows
    /\ length rows = length times
    /\ Forall (fun row => length row = L) rows.
Proof.
  intros Hall. induction times as [|t rest IH]; intros Hin.
  - exists []. repeat split. constructor.
  - destruct (IH ltac:(intros; apply Hin; now right)) as (rows & Hr & Ll & Hf).
    destruct (dict_get_In rep t (Hin t (or_introl eq_refl)))
      as (fr & Hget & Hfr).
    assert (Lfr : length fr = L).
    { apply in_map_iff in Hfr. destruct Hfr as ([k v] & <- & Hkv).
      rewrite Forall_forall in Hall. now apply (Hall (k, v)). }
    assert (Hrow : exists row, to_array_row rep value L t = Ok row
                               /\ length row = L).
    { unfold to_array_row, assign_row. rewrite Hget.
      destruct (String.eqb value "formant");
        [|destruct (String.eqb value "bandwidth")];
        rewrite ?length_map, ?Lfr, ?Nat.eqb_refl; eexists; split;
        try reflexivity; rewrite ?length_map, ?repeat_length; auto. }
    destruct Hrow as (row & Hrow & Lrow).
    exists (row :: rows). cbn [to_array_rows]. rewrite Hrow, Hr. cbn [rbind].
    repeat split; [simpl; lia|]. constructor; auto.
Qed.

(** X10. When the root finder returns at most as many roots as the degree,
    in conjugate pairs, the projection of the track of a completed
    extraction that recorded at least one frame never raises: it returns
    one row per recorded frame, each of [num_formants] cells, whatever the
    channel asked for. *)
Theorem to_array_after_process
        (np_roots : list R -> list C) (g : garbage R)
        (self : Formants) (proc : list R) (track : FormantTrack)
        (value : string) :
  root_finder_ok np_roots ->
  process np_roots g self proc = Ok track ->
  track <> [] ->
  exists rows,
    to_array track value = Ok rows
    /\ length rows = length track
    /\ Forall (fun row => length row = _num_formants self) rows.
Proof.
  intros Hroots Hrun Hne.
  pose proof (@process_padded np_roots g Hroots _ _ _ Hrun) as Hpad.
  assert (Hall : Forall (fun kv : R * FormantFrame =>
                           length (snd kv) = _num_formants self) track).
  { eapply Forall_impl; [|exact Hpad]. intros kv. apply padded_frame_length. }
  pose proof (sort_by_perm (fun t : R => t) (map fst track)) as Hperm.
  destruct (@to_array_rows_shape track value (_num_formants self)
              (sort_by (fun t : R => t) (map fst track)) Hall)
    as (rows & Hr & Ll & Hf).
  { intros t Ht. eapply Permutation_in; [exact Hperm|exact Ht]. }
  exists rows. split; [|split; [|exact Hf]].
  - unfold to_array. destruct track as [|[t0 ex] rest]; [contradiction|].
    inversion Hall as [|? ? Hex _]; subst. cbn [snd] in Hex.
    rewrite Hex. exact Hr.
  - rewrite Ll, (Permutation_length Hperm). apply length_map.
Qed.

Lemma to_array_after_process_witness :
  exists rows,
    to_array [(1 / (2 * 4096), example_frame)] "formant" = Ok rows
    /\ length rows = length [(1 / (2 * 4096), example_frame)]
    /\ Forall (fun row => length row = _num_formants example_extractor) rows.
Proof.
  apply (@to_array_after_process quadratic_roots zero_garbage
           example_extractor example_signal).
  - apply quadratic_roots_ok.
  - apply example_extraction.
  - discriminate.
Defined.

Lemma to_array_rows_unknown (rep : FormantTrack) (value : string) (L : nat)
      (times : list R) :
  value <> "formant"%string -> value <> "bandwidth"%string ->
  to_array_rows rep value L times
  = Ok (repeat (repeat (Num 0) L) (length times)).
Proof.
  intros H1 H2. apply String.eqb_neq in H1, H2.
  induction times as [|t rest IH]; [reflexivity|].
  cbn [to_array_rows]. unfold to_array_row. rewrite H1, H2, IH. reflexivity.
Qed.

(** X11. Asked for a channel other than ['formant'] and ['bandwidth'], the
    projection of a non-empty track raises nothing and reads no frame: it
    returns an array of zeros with one row per key and as many columns as
    the first frame has entries. *)
Theorem to_array_unknown_channel (rep : FormantTrack) (value : string) :
  rep <> [] ->
  value <> "formant"%string -> value <> "bandwidth"%string ->
  to_array rep value
  = Ok (repeat (repeat (Num 0) (length (snd (hd (0, []) rep)))) (length rep)).
Proof.
  intros Hne H1 H2. unfold to_array.
  destruct rep as [|[t0 ex] rest]; [contradiction|].
  rewrite to_array_rows_unknown by assumption.
  rewrite (Permutation_length (sort_by_perm _ _)), length_map. reflexivity.
Qed.

Lemma to_array_unknown_channel_witness :
  to_array [(0, [(Some 1, Some 2); (None, None)]); (1, [])] "energy"
  = Ok (repeat (repeat (Num 0)
                  (length (snd (hd (0, [])
                     [(0, [(Some 1, Some 2); (None, None)]); (1, [])]))))
               (length [(0, [(Some 1, Some 2); (None, None)]);
                        (1, @nil FormantCandidate)])).
Proof.
  apply to_array_unknown_channel; discriminate.
Defined.

Lemma dict_get_Some_key {V} (d : list (R * V)) (t : R) (v : V) :
  dict_get t d = Some v -> In t (map fst d).
Proof.
  induction d as [|[k' v'] d IH]; simpl; [discriminate|].
  destruct (Req_dec_T k' t); [now left|]. intros E. right. now apply IH.
Qed.

Lemma to_array_row_raise_ValueError (rep : FormantTrack) (value : string)
      (L : nat) (t : R) (e : exn) :
  to_array_row rep value L t = Raise e -> exists msg, e = ValueError msg.
Proof.
  unfold to_array_row, assign_row.
  destruct (String.eqb value "formant");
    [|destruct (String.eqb value "bandwidth"); [|discriminate]].
  all: destruct (_ =? L)%nat; [discriminate|];
    destruct (_ =? 1)%nat; [discriminate|];
    intros H; injection H as <-; eauto.
Qed.

Lemma to_array_rows_raise (rep : FormantTrack) (value : string) (L : nat)
      (times : list R) (t : R) :
  In t times ->
  (exists msg, to_array_row rep value L t = Raise (ValueError msg)) ->
  exists msg, to_array_rows rep value L times = Raise (ValueError msg).
Proof.
  intros Hin [msg Hm]. induction times as [|t0 rest IH]; [contradiction|].
  cbn [to_array_rows].
  destruct (to_array_row rep value L t0) as [row|e] eqn:E; cbn [rbind].
  - destruct Hin as [->|Hin]; [congruence|].
    destruct (IH Hin) as [m ->]. cbn [rbind]. eauto.
  - destruct (to_array_row_raise_ValueError _ _ _ _ E) as [m ->]. eauto.
Qed.

(** X12. For the channels ['formant'] and ['bandwidth'], the projection
    raises [ValueError] whenever some frame of the track has a number of
    entries that is neither the number of entries of the first frame nor
    one: the row assignment cannot be broadcast. *)
Theorem to_array_ragged_raises
        (rep : FormantTrack) (value : string) (t : R) (fr : FormantFrame) :
  value = "formant"%string \/ value = "bandwidth"%string ->
  dict_get t rep = Some fr ->
  length fr <> length (snd (hd (0, []) rep)) ->
  length fr <> 1%nat ->
  exists msg, to_array rep value = Raise (ValueError msg).
Proof.
  intros Hv Hget Hlen H1. unfold to_array.
  destruct rep as [|[t0 ex] rest]; [discriminate|]. cbn [hd snd] in Hlen.
  apply to_array_rows_raise with (t := t).
  - eapply Permutation_in; [symmetry; apply sort_by_perm|].
    eapply dict_get_Some_key; eassumption.
  - unfold to_array_row, assign_row. rewrite Hget.
    apply Nat.eqb_neq in Hlen, H1.
    destruct Hv as [-> | ->]; cbn [String.eqb Ascii.eqb Bool.eqb andb];
      rewrite length_map, Hlen, H1; eauto.
Qed.

Lemma to_array_ragged_raises_witness :
  exists msg,
    to_array [(0, [(Some 1, Some 2); (None, None)]); (1, [])] "formant"
    = Raise (ValueError msg).
Proof.
  apply (@to_array_ragged_raises
           [(0, [(Some 1, Some 2); (None, None)]); (1, [])] "formant" 1 []).
  - left. reflexivity.
  - simpl. destruct (Req_dec_T 0 1) as [E|_]; [exfalso; lra|].
    destruct (Req_dec_T 1 1) as [_|E]; [reflexivity|exfalso; apply E; reflexivity].
  - simpl. lia.
  - simpl. lia.
Defined.

Local Close Scope R_scope.

(** ** Invariance under a gain *)

Local Open Scope R_scope.

Lemma nth_map_scale (c : R) (X : list R) (j : nat) :
  nth j (map (Rmult c) X) 0 = c * nth j X 0.
Proof.
  destruct (lt_dec j (length X)) as [Hj|Hj].
  - rewrite (nth_indep _ 0 (c * 0)) by (rewrite length_map; exact Hj).
    apply (map_nth (Rmult c)).
  - rewrite !nth_overflow by (rewrite ?length_map; lia). ring.
Qed.

Lemma acorr_biased_scale (c : R) (X : list R) (m : nat) :
  acorr_biased (map (Rmult c) X) m = c * c * acorr_biased X m.
Proof.
  unfold acorr_biased, acorr_direct. rewrite length_map.
  rewrite (@Rsum_n_ext _ _ (fun j => c * c * (nth j X 0 * nth (j + m) X 0)))
    by (intros j _; rewrite !nth_map_scale; ring).
  rewrite Rsum_n_scal. unfold Rdiv. ring.
Qed.

Lemma length_acorr_lpc_values_map (f : R -> R) (X : list R) :
  length (acorr_lpc_values (map f X)) = length (acorr_lpc_values X).
Proof.
  unfold acorr_lpc_values. now rewrite !length_acorr_last_axis, length_map.
Qed.

Lemma acorr_lpc_values_scale (c : R) (X : list R) :
  acorr_lpc_values (map (Rmult c) X) = map (Rmult (c * c)) (acorr_lpc_values X).
Proof.
  apply (nth_ext _ _ 0 0).
  - now rewrite length_map, length_acorr_lpc_values_map.
  - intros m Hm. rewrite nth_map_scale.
    rewrite acorr_lpc_values_nth by exact Hm.
    rewrite length_acorr_lpc_values_map in Hm.
    rewrite acorr_lpc_values_nth by exact Hm.
    apply acorr_biased_scale.
Qed.

Lemma spec_sigma_scale (s : R) (r a : list R) (i : nat) :
  spec_sigma (map (Rmult s) r) a i = s * spec_sigma r a i.
Proof.
  unfold spec_sigma. cbn [s_add s_mul s_zero Scalar_R].
  rewrite nth_map_scale. generalize (nth i r 0) as acc.
  induction (range 1 i) as [|j l IH]; intros acc; cbn [fold_left];
    [reflexivity|].
  rewrite nth_map_scale.
  replace (s * acc + nth j a 0 * (s * nth (i - j) r 0))
    with (s * (acc + nth j a 0 * nth (i - j) r 0)) by ring.
  apply IH.
Qed.

Lemma spec_step_scale (s : R) (r : list R) (i : nat) (a : list R) (e : R) :
  s <> 0 ->
  spec_step (map (Rmult s) r) i a (s * e)
  = let '(a', e', k) := spec_step r i a e in (a', s * e', k).
Proof.
  intros Hs. unfold spec_step. rewrite spec_sigma_scale.
  cbn [s_add s_sub s_mul s_div s_neg s_conj s_one s_zero Scalar_R].
  assert (Hk : - (s * spec_sigma r a i) / (s * e) = - spec_sigma r a i / e).
  { unfold Rdiv. rewrite Rinv_mult. set (ie := / e). field. exact Hs. }
  rewrite Hk. f_equal. f_equal. ring.
Qed.

Lemma spec_levinson_scale (s : R) (r : list R) (order : nat) :
  s <> 0 ->
  spec_levinson (map (Rmult s) r) order
  = let '(a, e, k) := spec_levinson r order in (a, s * e, k).
Proof.
  intros Hs. induction order as [|m IH].
  - unfold spec_levinson. cbn [range Nat.add Nat.sub seq fold_left].
    cbn [s_zero Scalar_R]. now rewrite nth_map_scale.
  - rewrite !spec_levinson_S, IH.
    destruct (spec_levinson r m) as [[a e] ks].
    rewrite spec_step_scale by exact Hs.
    destruct (spec_step r (S m) a e) as [[a' e'] k]. reflexivity.
Qed.

Lemma levinson_check_scale (s : R) (r : list R) (order : nat) :
  s <> 0 -> levinson_check (map (Rmult s) r) order = levinson_check r order.
Proof.
  intros Hs. unfold levinson_check. rewrite length_map.
  cbn [s_isreal s_recip_finite s_zero Scalar_R]. rewrite nth_map_scale.
  replace (Req_bool (s * nth 0 r 0) 0) with (Req_bool (nth 0 r 0) 0);
    [reflexivity|].
  unfold Req_bool.
  destruct (Req_dec_T (nth 0 r 0) 0) as [E|E];
    destruct (Req_dec_T (s * nth 0 r 0) 0) as [F|F]; try reflexivity.
  - exfalso. apply F. rewrite E. ring.
  - exfalso. apply Rmult_integral in F. tauto.
Qed.

Lemma run_lpc_scale (g : garbage R) (c : R) (X : list R) (order : nat) :
  c <> 0 ->
  run_lpc g (map (Rmult c) X) order
  = match run_lpc g X order with
    | Ok (a, e, k) => Ok (a, c * c * e, k)
    | Raise x => Raise x
    end.
Proof.
  intros Hc.
  assert (Hcc : c * c <> 0) by (apply Rmult_integral_contrapositive_currified; auto).
  rewrite !run_lpc_outcome, length_map, acorr_lpc_values_scale,
    levinson_check_scale, spec_levinson_scale by exact Hcc.
  destruct (length X <? order)%nat; [reflexivity|].
  destruct (levinson_check (acorr_lpc_values X) order); [reflexivity|].
  destruct (spec_levinson (acorr_lpc_values X) order) as [[a e] k].
  reflexivity.
Qed.

(** X13. Multiplying a frame by a non-zero gain [c] changes neither the
    prediction coefficients nor the reflection coefficients [lpc] returns,
    multiplies the prediction error by [c*c], and leaves the exception
    raised (if any) the same. *)
Theorem lpc_gain (g : garbage R) (c : R) (X : list R) (order : nat) :
  c <> 0 ->
  run_lpc g (map (Rmult c) X) order
  = match run_lpc g X order with
    | Ok (a, e, k) => Ok (a, c * c * e, k)
    | Raise x => Raise x
    end.
Proof.
  intros Hc.
  assert (Hcc : c * c <> 0)
    by (apply Rmult_integral_contrapositive_currified; exact Hc).
  rewrite !run_lpc_outcome, length_map.
  destruct (length X <? order)%nat; [reflexivity|].
  rewrite acorr_lpc_values_scale, (levinson_check_scale _ _ Hcc).
  destruct (levinson_check (acorr_lpc_values X) order); [reflexivity|].
  rewrite (spec_levinson_scale _ _ Hcc).
  destruct (spec_levinson (acorr_lpc_values X) order) as [[a e] k].
  reflexivity.
Qed.

Lemma lpc_gain_witness :
  run_lpc zero_garbage (map (Rmult 2) [1; -1]) 1
  = match run_lpc zero_garbage [1; -1] 1 with
    | Ok (a, e, k) => Ok (a, 2 * 2 * e, k)
    | Raise x => Raise x
    end.
Proof.
  apply (@lpc_gain zero_garbage 2 [1; -1] 1). lra.
Defined.

Lemma py_slice_map {A B} (f : A -> B) (l : list A) (lo hi : Z) :
  py_slice (map f l) lo hi = map f (py_slice l lo hi).
Proof.
  unfold py_slice. now rewrite length_map, skipn_map, firstn_map.
Qed.

Lemma map2_scale_l (c : R) (X w : list R) :
  map2 Rmult (map (Rmult c) X) w = map (Rmult c) (map2 Rmult X w).
Proof.
  revert w. induction X as [|x X IH]; intros [|v w]; simpl; auto.
  rewrite IH. f_equal. ring.
Qed.

Lemma np_mul_scale (c : R) (X w : list R) :
  np_mul (map (Rmult c) X) w
  = match np_mul X w with
    | Ok Y => Ok (map (Rmult c) Y)
    | Raise e => Raise e
    end.
Proof.
  unfold np_mul. rewrite length_map.
  destruct (length X =? length w)%nat; [now rewrite map2_scale_l|].
  destruct (length X =? 1)%nat eqn:E1.
  - apply Nat.eqb_eq in E1. destruct X as [|x [|y X]]; try discriminate.
    cbn [map hd]. rewrite map_map. f_equal. apply map_ext. intros; ring.
  - destruct (length w =? 1)%nat; [|reflexivity].
    rewrite !map_map. f_equal. apply map_ext. intros; ring.
Qed.

Lemma process_frame_scale
      (np_roots : list R -> list C) (g : garbage R) (self : Formants) (c : R)
      (proc window : list R) (nperseg : Z) (new_sr : R) (idx : Z) :
  c <> 0 ->
  process_frame np_roots g self (map (Rmult c) proc) window nperseg new_sr idx
  = process_frame np_roots g self proc window nperseg new_sr idx.
Proof.
  intros Hc. unfold process_frame. rewrite py_slice_map, np_mul_scale.
  destruct (np_mul _ window) as [Y|]; [|reflexivity]. cbn [rbind].
  rewrite run_lpc_scale by exact Hc.
  destruct (run_lpc g Y (_num_formants self * 2)) as [[[a e] k]|]; reflexivity.
Qed.

Lemma process_frames_scale
      (np_roots : list R -> list C) (g : garbage R) (self : Formants) (c : R)
      (proc window : list R) (nperseg : Z) (new_sr : R)
      (indices : list Z) (rep : FormantTrack) :
  c <> 0 ->
  process_frames np_roots g self (map (Rmult c) proc) window nperseg new_sr
                 indices rep
  = process_frames np_roots g self proc window nperseg new_sr indices rep.
Proof.
  intros Hc. revert rep. induction indices as [|idx rest IH]; intros rep;
    [reflexivity|].
  cbn [process_frames]. rewrite process_frame_scale by exact Hc.
  destruct (process_frame _ _ _ _ _ _ _ _) as [fr|]; [|reflexivity].
  cbn [rbind]. apply IH.
Qed.

(** X14. The extraction is invariant under a non-zero gain: on the signal
    multiplied by [c <> 0] it returns the same track, or raises the same
    exception, as on the signal itself. *)
Theorem process_gain_invariant
        (np_roots : list R -> list C) (g : garbage R)
        (self : Formants) (c : R) (proc : list R) :
  c <> 0 ->
  process np_roots g self (map (Rmult c) proc) = process np_roots g self proc.
Proof.
  intros Hc. unfold process. rewrite length_map.
  destruct (analysis_window _ _) as [w|]; [|reflexivity]. cbn [rbind].
  destruct (np_arange _ _ _) as [indices|]; [|reflexivity]. cbn [rbind].
  now apply process_frames_scale.
Qed.

Lemma process_gain_invariant_witness :
  process quadratic_roots zero_garbage example_extractor
          (map (Rmult 3) example_signal)
  = process quadratic_roots zero_garbage example_extractor example_signal.
Proof.
  apply (@process_gain_invariant quadratic_roots zero_garbage
           example_extractor 3 example_signal). lra.
Defined.

Local Close Scope R_scope.

(** ** The analysis window *)

Local Open Scope R_scope.

Lemma exp_le_1 (x : R) : x <= 0 -> exp x <= 1.
Proof.
  intros [H | ->]; [|rewrite exp_0; lra].
  rewrite <- exp_0. apply Rlt_le, exp_increasing, H.
Qed.

Lemma cos_gt_m1 (x : R) : - PI < x < PI -> -1 < cos x.
Proof.
  intros H. replace x with (2 * (x / 2)) by lra. rewrite cos_2a_cos.
  assert (Hc : 0 < cos (x / 2)) by (apply cos_gt_0; lra).
  nra.
Qed.

Lemma analysis_window_nth (shape : string) (nperseg : Z) (w : list R) (j : nat) :
  (2 <= nperseg)%Z -> analysis_window shape nperseg = Ok w ->
  (j < Z.to_nat nperseg)%nat ->
  nth j w 0
  = if String.eqb shape "gaussian"
    then exp (- (INR (S j) - (IZR (nperseg + 2) - 1) / 2) ^ 2
              / (2 * (0.45 * (IZR nperseg - 1) / 2)
                 * (0.45 * (IZR nperseg - 1) / 2)))
    else 0.5 + 0.5 * cos (PI * (1 - IZR (nperseg + 2) + 2 * INR (S j))
                          / (IZR (nperseg + 2) - 1)).
Proof.
  intros Hn Hw Hj. unfold analysis_window in Hw.
  destruct (String.eqb shape "gaussian").
  - unfold gaussian in Hw.
    replace (nperseg + 2 <? 0)%Z with false in Hw
      by (symmetry; apply Z.ltb_ge; lia).
    replace (nperseg + 2 <=? 1)%Z with false in Hw
      by (symmetry; apply Z.leb_gt; lia).
    cbn [rbind] in Hw. injection Hw as <-.
    rewrite py_slice_inside by (rewrite ?length_map, ?length_seq; lia).
    rewrite nth_firstn.
    replace (j <? Z.to_nat (nperseg + 1 - 1))%nat with true
      by (symmetry; apply Nat.ltb_lt; lia).
    rewrite nth_skipn. change (Z.to_nat 1) with 1%nat.
    rewrite nth_map_seq by lia. reflexivity.
  - injection Hw as <-. unfold hanning.
    replace (nperseg + 2 <? 1)%Z with false
      by (symmetry; apply Z.ltb_ge; lia).
    replace (nperseg + 2 =? 1)%Z with false
      by (symmetry; apply Z.eqb_neq; lia).
    rewrite py_slice_inside by (rewrite ?length_map, ?length_seq; lia).
    rewrite nth_firstn.
    replace (j <? Z.to_nat (nperseg + 1 - 1))%nat with true
      by (symmetry; apply Nat.ltb_lt; lia).
    rewrite nth_skipn. change (Z.to_nat 1) with 1%nat.
    rewrite nth_map_seq by lia. reflexivity.
Qed.

(** X15. For a window of [nperseg >= 2] samples, of either shape, the
    analysis window the extraction builds has exactly [nperseg] weights,
    each strictly positive and at most 1, and it is symmetric: weight [j]
    equals weight [nperseg - 1 - j]. *)
Theorem analysis_window_weights (shape : string) (nperseg : Z) (w : list R) :
  (2 <= nperseg)%Z ->
  analysis_window shape nperseg = Ok w ->
  length w = Z.to_nat nperseg
  /\ forall j, (j < length w)%nat ->
       0 < nth j w 0 <= 1
       /\ nth (length w - 1 - j) w 0 = nth j w 0.
Proof.
  intros Hn Hw.
  assert (Lw : length w = Z.to_nat nperseg)
    by (apply (@analysis_window_length shape); [lia|exact Hw]).
  split; [exact Lw|]. intros j Hj. rewrite Lw in *.
  set (N := Z.to_nat nperseg) in *.
  assert (HN : IZR nperseg = INR N)
    by (unfold N; rewrite INR_IZR_INZ, Z2Nat.id by lia; reflexivity).
  assert (HN2 : 2 <= INR N) by (rewrite <- HN; apply IZR_le; exact Hn).
  assert (HjN : INR j <= INR N - 1).
  { assert (H : INR (S j) <= INR N) by (apply le_INR; lia).
    rewrite S_INR in H. lra. }
  assert (Hj0 : 0 <= INR j) by apply pos_INR.
  assert (Hrev : INR (S (N - 1 - j)) = INR N - INR j).
  { replace (S (N - 1 - j)) with (N - j)%nat by lia.
    apply minus_INR. lia. }
  rewrite (@analysis_window_nth shape nperseg w j Hn Hw) by exact Hj.
  rewrite (@analysis_window_nth shape nperseg w (N - 1 - j)%nat Hn Hw)
    by (fold N; lia).
  rewrite Hrev, plus_IZR, HN, S_INR.
  destruct (String.eqb shape "gaussian").
  - set (s := 0.45 * (INR N - 1) / 2).
    assert (Hs : 0 < 2 * s * s) by (unfold s; nra).
    split.
    + split; [apply exp_pos|]. apply exp_le_1.
      unfold Rdiv. rewrite <- Ropp_mult_distr_l.
      assert (H1 : 0 <= (INR j + 1 - (INR N + 2 - 1) / 2) ^ 2)
        by apply pow2_ge_0.
      assert (H2 : 0 < / (2 * s * s)) by (apply Rinv_0_lt_compat, Hs).
      nra.
    + f_equal.
      replace ((INR N - INR j - (INR N + 2 - 1) / 2) ^ 2)
        with ((INR j + 1 - (INR N + 2 - 1) / 2) ^ 2) by field.
      reflexivity.
  - split.
    + set (th := PI * (1 - (INR N + 2) + 2 * (INR j + 1)) / (INR N + 2 - 1)).
      assert (Hth : - PI < th < PI).
      { assert (Hpi := PI_RGT_0).
        assert (Hd : 0 < INR N + 2 - 1) by lra.
        assert (E : th = PI * ((2 * INR j + 1 - INR N) / (INR N + 1)))
          by (unfold th; field; lra).
        assert (Hq : -1 < (2 * INR j + 1 - INR N) / (INR N + 1) < 1).
        { split.
          - apply Rmult_lt_reg_r with (INR N + 1); [lra|].
            unfold Rdiv. rewrite Rmult_assoc, Rinv_l by lra. lra.
          - apply Rmult_lt_reg_r with (INR N + 1); [lra|].
            unfold Rdiv. rewrite Rmult_assoc, Rinv_l by lra. lra. }
        rewrite E. nra. }
      pose proof (cos_gt_m1 Hth). pose proof (COS_bound th). lra.
    + f_equal. f_equal. rewrite <- cos_neg. f_equal. field. lra.
Qed.

Lemma analysis_window_weights_witness :
  length [example_weight; example_weight] = Z.to_nat 2
  /\ forall j, (j < length [example_weight; example_weight])%nat ->
       0 < nth j [example_weight; example_weight] 0 <= 1
       /\ nth (length [example_weight; example_weight] - 1 - j)
              [example_weight; example_weight] 0
          = nth j [example_weight; example_weight] 0.
Proof.
  apply (@analysis_window_weights "gaussian" 2).
  - lia.
  - apply example_window.
Defined.

Local Close Scope R_scope.

(** ** Rows of the projection follow the order of analysis *)

Local Open Scope R_scope.

Lemma sort_by_sorted_id (l : list R) :
  StronglySorted Rle l -> sort_by (fun t => t) l = l.
Proof.
  induction 1 as [|x l Hs IH Hall]; [reflexivity|].
  cbn [sort_by fold_right]. fold (sort_by (fun t : R => t) l). rewrite IH.
  destruct l as [|y l']; [reflexivity|]. cbn [insert_by].
  inversion Hall; subst.
  destruct (Rle_dec x y); [reflexivity|contradiction].
Qed.

Lemma sorted_map_seq (f : nat -> R) (a n : nat) :
  (forall i j, (i <= j)%nat -> f i <= f j) ->
  StronglySorted Rle (map f (seq a n)).
Proof.
  intros Hf. revert a. induction n as [|n IH]; intros a; cbn [seq map];
    constructor; [apply IH|].
  apply Forall_forall. intros y Hy. apply in_map_iff in Hy.
  destruct Hy as (j & <- & Hj). apply in_seq in Hj. apply Hf. lia.
Qed.

Lemma dict_get_NoDup {V} (d : list (R * V)) (k : R) (v : V) :
  NoDup (map fst d) -> In (k, v) d -> dict_get k d = Some v.
Proof.
  induction d as [|[k' v'] d IH]; simpl; [tauto|].
  intros Hnd [E|Hin].
  - injection E as -> ->. destruct (Req_dec_T k k); [reflexivity|contradiction].
  - inversion Hnd as [|? ? Hk Hnd']; subst.
    destruct (Req_dec_T k' k) as [->|_]; [|now apply IH].
    exfalso. apply Hk. apply in_map_iff. exists (k, v). auto.
Qed.

(** X16. When the root finder returns at most as many roots as the degree,
    in conjugate pairs, the frequency limit and the hop are positive and the
    extraction completes with at least one frame, the array [to_array]
    gives for ['formant'] or ['bandwidth'] lists the frames in the order
    they were analysed: row [i] is the channel of the [i]-th frame recorded,
    missing entries as [nan]. *)
Theorem to_array_rows_in_frame_order
        (np_roots : list R -> list C) (g : garbage R)
        (self : Formants) (proc : list R) (track : FormantTrack)
        (value : string) :
  root_finder_ok np_roots ->
  0 < snd (_freq_lims self) ->
  (0 < Rtrunc (_time_step self * (2 * snd (_freq_lims self))))%Z ->
  process np_roots g self proc = Ok track ->
  track <> [] ->
  value = "formant"%string \/ value = "bandwidth"%string ->
  to_array track value
  = Ok (map (fun kv => channel_row value (snd kv)) track).
Proof.
  intros Hroots Hmax Hstep Hrun Hne Hv.
  assert (Hmax0 : snd (_freq_lims self) <> 0) by lra.
  destruct (@process_keys np_roots g self proc track Hmax0 Hrun)
    as (indices & Har & _ & Hkeys).
  set (new_sr := 2 * snd (_freq_lims self)) in *.
  set (nperstep := Rtrunc (_time_step self * new_sr)) in *.
  set (half := Z.quot (Rtrunc (_win_len self * new_sr)) 2) in *.
  set (keyf := fun i : nat => IZR (half + Z.of_nat i * nperstep) / new_sr).
  rewrite np_arange_values in Har by lia.
  injection Har as <-. rewrite map_map in Hkeys. fold keyf in Hkeys.
  assert (Hsr : 0 < new_sr) by (unfold new_sr; lra).
  assert (Hsorted : StronglySorted Rle (map fst track)).
  { rewrite Hkeys. apply sorted_map_seq. intros i j Hij. unfold keyf, Rdiv.
    apply Rmult_le_compat_r; [apply Rlt_le, Rinv_0_lt_compat, Hsr|].
    apply IZR_le. nia. }
  assert (Hnd : NoDup (map fst track)).
  { rewrite Hkeys. apply NoDup_map_injective; [|apply seq_NoDup].
    intros i j. apply time_key_injective; [lra|lia]. }
  pose proof (@process_padded np_roots g Hroots _ _ _ Hrun) as Hpad.
  assert (Hall : Forall (fun kv : R * FormantFrame =>
                           length (snd kv) = _num_formants self) track).
  { eapply Forall_impl; [|exact Hpad]. intros kv. apply padded_frame_length. }
  assert (Hto : to_array track value
                = to_array_rows track value (_num_formants self)
                                (sort_by (fun t : R => t) (map fst track))).
  { unfold to_array. destruct track as [|[t0 ex] rest]; [contradiction|].
    inversion Hall as [|? ? Hex _]; subst. cbn [snd] in Hex. now rewrite Hex. }
  rewrite Hto, (sort_by_sorted_id Hsorted).
  rewrite to_array_rows_ok by auto.
  rewrite map_map. f_equal. apply map_ext_in. intros [k v] Hin.
  cbn [fst snd]. unfold frame_at. now rewrite (dict_get_NoDup _ _ _ Hnd Hin).
Qed.

Lemma to_array_rows_in_frame_order_witness :
  to_array [(1 / (2 * 4096), example_frame)] "formant"
  = Ok (map (fun kv => channel_row "formant" (snd kv))
            [(1 / (2 * 4096), example_frame)]).
Proof.
  destruct example_grid as [_ E2].
  apply (@to_array_rows_in_frame_order quadratic_roots zero_garbage
           example_extractor example_signal).
  - apply quadratic_roots_ok.
  - simpl. lra.
  - rewrite E2. lia.
  - apply example_extraction.
  - discriminate.
  - left. reflexivity.
Defined.

Local Close Scope R_scope.

(* ================================================================== *)
(** * Part IV: properties of [mfcc.py] *)
(* ================================================================== *)

(** ** The mel scale *)

Local Open Scope R_scope.

Lemma ln_10_pos : 0 < ln 10.
Proof. rewrite <- ln_1. apply ln_increasing; lra. Qed.

Lemma Rpower_10_log10 (x : R) : 0 < x -> Rpower 10 (log10 x) = x.
Proof.
  intros Hx. unfold Rpower, log10.
  replace (ln x / ln 10 * ln 10) with (ln x)
    by (field; apply Rgt_not_eq, ln_10_pos).
  now apply exp_ln.
Qed.

Lemma log10_Rpower_10 (y : R) : log10 (Rpower 10 y) = y.
Proof.
  unfold Rpower, log10. rewrite ln_exp. field.
  apply Rgt_not_eq, ln_10_pos.
Qed.

Lemma melToFreq_freqToMel (f : R) : -700 < f -> melToFreq (freqToMel f) = f.
Proof.
  intros Hf. unfold melToFreq, freqToMel.
  replace (2595 * log10 (1 + f / 700) / 2595) with (log10 (1 + f / 700))
    by field.
  rewrite Rpower_10_log10 by lra. field.
Qed.

Lemma freqToMel_melToFreq (m : R) : freqToMel (melToFreq m) = m.
Proof.
  unfold melToFreq, freqToMel.
  replace (1 + 700 * (Rpower 10 (m / 2595) - 1) / 700)
    with (Rpower 10 (m / 2595)) by field.
  rewrite log10_Rpower_10. field.
Qed.

Lemma freqToMel_increasing (f1 f2 : R) :
  -700 < f1 -> f1 < f2 -> freqToMel f1 < freqToMel f2.
Proof.
  intros H1 H2. unfold freqToMel, log10.
  assert (Hl := ln_10_pos).
  assert (H : ln (1 + f1 / 700) < ln (1 + f2 / 700))
    by (apply ln_increasing; lra).
  apply Rmult_lt_compat_l; [lra|].
  unfold Rdiv. apply Rmult_lt_compat_r; [now apply Rinv_0_lt_compat|exact H].
Qed.

Lemma melToFreq_increasing (m1 m2 : R) :
  m1 < m2 -> melToFreq m1 < melToFreq m2.
Proof.
  intros H. unfold melToFreq.
  assert (Rpower 10 (m1 / 2595) < Rpower 10 (m2 / 2595))
    by (apply Rpower_lt; lra).
  lra.
Qed.

(** X17. Converting a frequency above -700 Hz to mel and back gives the
    frequency again. *)
Theorem mel_round_trip_from_hertz (f : R) :
  -700 < f -> melToFreq (freqToMel f) = f.
Proof.
  intros Hf. unfold melToFreq, freqToMel.
  replace (2595 * log10 (1 + f / 700) / 2595) with (log10 (1 + f / 700))
    by field.
  assert (Hpos : 0 < 1 + f / 700) by lra.
  rewrite (Rpower_10_log10 Hpos). field.
Qed.

Lemma mel_round_trip_from_hertz_witness : melToFreq (freqToMel 1000) = 1000.
Proof. apply (@mel_round_trip_from_hertz 1000). lra. Defined.

(** X18. Converting any mel value to Hertz and back gives the mel value
    again, and the frequency obtained lies above -700 Hz. *)
Theorem mel_round_trip_from_mel (m : R) :
  freqToMel (melToFreq m) = m /\ -700 < melToFreq m.
Proof.
  split; [apply freqToMel_melToFreq|].
  unfold melToFreq.
  assert (0 < Rpower 10 (m / 2595)) by (unfold Rpower; apply exp_pos).
  lra.
Qed.

(** X19. Both conversions are strictly increasing: [freqToMel] on the
    frequencies above -700 Hz, [melToFreq] on all mel values; and 0 Hz is
    0 mel. *)
Theorem mel_scale_increasing :
  (forall f1 f2, -700 < f1 -> f1 < f2 -> freqToMel f1 < freqToMel f2)
  /\ (forall m1 m2, m1 < m2 -> melToFreq m1 < melToFreq m2)
  /\ freqToMel 0 = 0.
Proof.
  split; [intros f1 f2; apply freqToMel_increasing|].
  split; [intros m1 m2; apply melToFreq_increasing|].
  unfold freqToMel, log10.
  replace (1 + 0 / 700) with 1 by field. rewrite ln_1. field.
  apply Rgt_not_eq, ln_10_pos.
Qed.

Lemma mel_scale_increasing_witness :
  freqToMel 100 < freqToMel 200
  /\ melToFreq (-5000) < melToFreq (-4000)
  /\ freqToMel 0 = 0.
Proof.
  destruct mel_scale_increasing as (Hf & Hm & H0).
  split; [apply (Hf 100 200); lra|].
  split; [apply (Hm (-5000) (-4000)); lra|exact H0].
Defined.

Local Close Scope R_scope.

(** ** The mel filter bank *)

Local Open Scope R_scope.

Lemma Rdiv_le_1 (x d : R) : 0 < d -> x <= d -> x / d <= 1.
Proof.
  intros Hd Hx. apply Rmult_le_reg_r with d; [exact Hd|].
  unfold Rdiv. rewrite Rmult_assoc, Rinv_l by lra. lra.
Qed.

Lemma Rdiv_nonpos (x d : R) : 0 < d -> x <= 0 -> x / d <= 0.
Proof.
  intros Hd Hx. apply Rmult_le_reg_r with d; [exact Hd|].
  unfold Rdiv. rewrite Rmult_assoc, Rinv_l by lra. lra.
Qed.

Lemma triangle_unfold (a b c f : R) :
  Mfcc.triangle a b c f = Rmax 0 (Rmin ((f - a) / (b - a)) ((c - f) / (c - b))).
Proof.
  unfold Mfcc.triangle. cbv zeta.
  replace (b + (a - b)) with a by ring.
  replace (b + (b - b)) with b by ring.
  replace (b + (c - b)) with c by ring.
  reflexivity.
Qed.

Lemma triangle_range (a b c f : R) :
  a < b -> b < c -> 0 <= Mfcc.triangle a b c f <= 1.
Proof.
  intros Hab Hbc. rewrite triangle_unfold. split; [apply Rmax_l|].
  apply Rmax_lub; [lra|].
  destruct (Rle_lt_dec f b) as [Hf|Hf].
  - eapply Rle_trans; [apply Rmin_l|]. apply Rdiv_le_1; lra.
  - eapply Rle_trans; [apply Rmin_r|]. apply Rdiv_le_1; lra.
Qed.

Lemma triangle_outside (a b c f : R) :
  a < b -> b < c -> f <= a \/ c <= f -> Mfcc.triangle a b c f = 0.
Proof.
  intros Hab Hbc Hf. rewrite triangle_unfold. apply Rmax_left.
  destruct Hf as [Hf|Hf].
  - eapply Rle_trans; [apply Rmin_l|]. apply Rdiv_nonpos; lra.
  - eapply Rle_trans; [apply Rmin_r|]. apply Rdiv_nonpos; lra.
Qed.

Lemma triangle_peak (a b c : R) :
  a < b -> b < c -> Mfcc.triangle a b c b = 1.
Proof.
  intros Hab Hbc. rewrite triangle_unfold.
  replace ((b - a) / (b - a)) with 1 by (field; lra).
  replace ((c - b) / (c - b)) with 1 by (field; lra).
  rewrite Rmin_left by lra. apply Rmax_right. lra.
Qed.

Lemma length_linspace (start stop : R) (num : nat) :
  length (linspace start stop num) = num.
Proof. unfold linspace. now rewrite length_map, length_seq. Qed.

Lemma linspace_nth (start stop : R) (num i : nat) :
  (2 <= num)%nat -> (i < num)%nat ->
  nth i (linspace start stop num) 0
  = start + INR i * ((stop - start) / INR (num - 1)).
Proof.
  intros Hn Hi. unfold linspace. rewrite nth_map_seq by exact Hi.
  destruct (Nat.ltb 1 num && Nat.eqb i (num - 1))%bool eqn:E; [|reflexivity].
  apply andb_true_iff in E. destruct E as [_ E]. apply Nat.eqb_eq in E.
  subst i. field. apply not_0_INR. lia.
Qed.

Lemma length_binfreqs (self : Mfcc.Mfcc) :
  length (Mfcc.binfreqs self) = (Mfcc._num_filters self + 2)%nat.
Proof. unfold Mfcc.binfreqs. now rewrite length_map, length_linspace. Qed.

Lemma binfreqs_nth (self : Mfcc.Mfcc) (i : nat) :
  (i < Mfcc._num_filters self + 2)%nat ->
  nth i (Mfcc.binfreqs self) 0
  = melToFreq (freqToMel (fst (Mfcc._freq_lims self))
               + INR i * ((freqToMel (snd (Mfcc._freq_lims self))
                           - freqToMel (fst (Mfcc._freq_lims self)))
                          / INR (Mfcc._num_filters self + 2 - 1))).
Proof.
  intros Hi. unfold Mfcc.binfreqs. cbv zeta.
  rewrite (nth_indep _ 0 (melToFreq 0))
    by (rewrite length_map, length_linspace; exact Hi).
  rewrite (map_nth melToFreq), linspace_nth by lia. reflexivity.
Qed.

Lemma binfreqs_increasing (self : Mfcc.Mfcc) (i j : nat) :
  -700 < fst (Mfcc._freq_lims self) ->
  fst (Mfcc._freq_lims self) < snd (Mfcc._freq_lims self) ->
  (i < j)%nat -> (j < Mfcc._num_filters self + 2)%nat ->
  nth i (Mfcc.binfreqs self) 0 < nth j (Mfcc.binfreqs self) 0.
Proof.
  intros Hlo Hlim Hij Hj. rewrite !binfreqs_nth by lia.
  apply melToFreq_increasing.
  pose proof (freqToMel_increasing Hlo Hlim) as Hm.
  set (d := INR (Mfcc._num_filters self + 2 - 1)).
  assert (Hd : 0 < d) by (unfold d; apply lt_0_INR; lia).
  assert (Hq : 0 < (freqToMel (snd (Mfcc._freq_lims self))
                    - freqToMel (fst (Mfcc._freq_lims self))) / d)
    by (apply Rdiv_lt_0_compat; lra).
  assert (Hij' : INR i < INR j) by (apply lt_INR; exact Hij).
  apply Rplus_lt_compat_l. apply Rmult_lt_compat_r; assumption.
Qed.

(** X20. When both frequency limits lie above -700 Hz, the band edges the
    filter bank is built on run from the lower limit to the upper limit:
    there are [num_filters + 2] of them, the first is the lower limit, the
    last is the upper limit, and they increase strictly when the lower
    limit is below the upper one. *)
Theorem binfreqs_span_the_limits (self : Mfcc.Mfcc) :
  -700 < fst (Mfcc._freq_lims self) ->
  -700 < snd (Mfcc._freq_lims self) ->
  length (Mfcc.binfreqs self) = (Mfcc._num_filters self + 2)%nat
  /\ nth 0 (Mfcc.binfreqs self) 0 = fst (Mfcc._freq_lims self)
  /\ nth (Mfcc._num_filters self + 1) (Mfcc.binfreqs self) 0
     = snd (Mfcc._freq_lims self)
  /\ (fst (Mfcc._freq_lims self) < snd (Mfcc._freq_lims self) ->
      forall i j, (i < j)%nat -> (j < Mfcc._num_filters self + 2)%nat ->
        nth i (Mfcc.binfreqs self) 0 < nth j (Mfcc.binfreqs self) 0).
Proof.
  intros Hlo Hhi. split; [apply length_binfreqs|]. split; [|split].
  - rewrite binfreqs_nth by lia. cbn [INR]. rewrite Rmult_0_l, Rplus_0_r.
    now apply melToFreq_freqToMel.
  - rewrite binfreqs_nth by lia.
    replace (Mfcc._num_filters self + 2 - 1)%nat
      with (Mfcc._num_filters self + 1)%nat by lia.
    set (d := INR (Mfcc._num_filters self + 1)).
    assert (Hd : d <> 0) by (unfold d; apply not_0_INR; lia).
    replace (freqToMel (fst (Mfcc._freq_lims self))
             + d * ((freqToMel (snd (Mfcc._freq_lims self))
                     - freqToMel (fst (Mfcc._freq_lims self))) / d))
      with (freqToMel (snd (Mfcc._freq_lims self))) by (field; exact Hd).
    now apply melToFreq_freqToMel.
  - intros Hlim i j Hij Hj. now apply binfreqs_increasing.
Qed.

Lemma binfreqs_span_the_limits_witness :
  length (Mfcc.binfreqs example_mfcc)
  = (Mfcc._num_filters example_mfcc + 2)%nat
  /\ nth 0 (Mfcc.binfreqs example_mfcc) 0 = fst (Mfcc._freq_lims example_mfcc)
  /\ nth (Mfcc._num_filters example_mfcc + 1) (Mfcc.binfreqs example_mfcc) 0
     = snd (Mfcc._freq_lims example_mfcc)
  /\ (fst (Mfcc._freq_lims example_mfcc) < snd (Mfcc._freq_lims example_mfcc) ->
      forall i j, (i < j)%nat -> (j < Mfcc._num_filters example_mfcc + 2)%nat ->
        nth i (Mfcc.binfreqs example_mfcc) 0
        < nth j (Mfcc.binfreqs example_mfcc) 0).
Proof.
  apply (@binfreqs_span_the_limits example_mfcc); simpl; lra.
Defined.

Local Close Scope R_scope.

Local Open Scope R_scope.

Lemma filter_bank_ok (self : Mfcc.Mfcc) (sr : R) (nfft : Z) :
  (0 <= Rtrunc (IZR nfft / 2 + 1))%Z ->
  Mfcc.filter_bank self sr nfft
  = Ok (np_transpose (Z.to_nat (Rtrunc (IZR nfft / 2 + 1)))
                     (map (Mfcc.fbank_row self sr nfft)
                          (seq 0 (Mfcc._num_filters self)))).
Proof.
  intros H. unfold Mfcc.filter_bank.
  now replace (Rtrunc (IZR nfft / 2 + 1) <? 0)%Z with false
    by (symmetry; apply Z.ltb_ge; exact H).
Qed.

Lemma filter_bank_inv (self : Mfcc.Mfcc) (sr : R) (nfft : Z)
      (fb : list (list R)) :
  Mfcc.filter_bank self sr nfft = Ok fb ->
  fb = np_transpose (Z.to_nat (Rtrunc (IZR nfft / 2 + 1)))
                    (map (Mfcc.fbank_row self sr nfft)
                         (seq 0 (Mfcc._num_filters self))).
Proof.
  unfold Mfcc.filter_bank.
  destruct (Rtrunc (IZR nfft / 2 + 1) <? 0)%Z; [discriminate|].
  intros H; now injection H as <-.
Qed.

Lemma length_fftfreqs (sr : R) (nfft : Z) :
  length (Mfcc.fftfreqs sr nfft) = Z.to_nat (Rtrunc (IZR nfft / 2 + 1)).
Proof. unfold Mfcc.fftfreqs. now rewrite length_map, length_seq. Qed.

Lemma filter_bank_shape (self : Mfcc.Mfcc) (sr : R) (nfft : Z)
      (fb : list (list R)) :
  Mfcc.filter_bank self sr nfft = Ok fb ->
  length fb = Z.to_nat (Rtrunc (IZR nfft / 2 + 1))
  /\ Forall (fun row => length row = Mfcc._num_filters self) fb.
Proof.
  intros H. apply filter_bank_inv in H. subst fb. unfold np_transpose.
  split; [now rewrite length_map, length_seq|].
  apply Forall_forall. intros row Hrow. apply in_map_iff in Hrow.
  destruct Hrow as (j & <- & _). now rewrite !length_map, length_seq.
Qed.

Lemma filter_bank_entry (self : Mfcc.Mfcc) (sr : R) (nfft : Z)
      (fb : list (list R)) (b i : nat) :
  Mfcc.filter_bank self sr nfft = Ok fb ->
  (b < Z.to_nat (Rtrunc (IZR nfft / 2 + 1)))%nat ->
  (i < Mfcc._num_filters self)%nat ->
  nth i (nth b fb []) 0
  = Mfcc.triangle (nth i (Mfcc.binfreqs self) 0)
                  (nth (i + 1) (Mfcc.binfreqs self) 0)
                  (nth (i + 2) (Mfcc.binfreqs self) 0)
                  (nth b (Mfcc.fftfreqs sr nfft) 0).
Proof.
  intros H Hb Hi. apply filter_bank_inv in H. subst fb. unfold np_transpose.
  rewrite nth_map_seq by exact Hb. rewrite map_map.
  rewrite nth_map_seq by exact Hi. unfold Mfcc.fbank_row.
  set (tri := Mfcc.triangle _ _ _).
  rewrite (nth_indep _ 0 (tri 0)) by (rewrite length_map, length_fftfreqs; exact Hb).
  apply (map_nth tri).
Qed.

(** X21. For an object built by the constructor with limits
    [-700 < fmin < fmax], whatever number of filters was asked for, and a
    transform of [nfft <> 0] points, the filter bank (when [int(nfft/2+1)]
    is not negative) has [int(nfft/2+1)] rows of exactly 26 weights, and
    every weight lies between 0 and 1. *)
Theorem filter_bank_shape_and_range
        (freq_lims : R * R) (num_coeffs : nat) (win_len time_step : R)
        (num_filters : nat) (use_power : bool) (sr : R) (nfft : Z)
        (fb : list (list R)) :
  -700 < fst freq_lims -> fst freq_lims < snd freq_lims ->
  nfft <> 0%Z ->
  Mfcc.filter_bank (Mfcc.init freq_lims num_coeffs win_len time_step
                              num_filters use_power) sr nfft = Ok fb ->
  length fb = Z.to_nat (Rtrunc (IZR nfft / 2 + 1))
  /\ Forall (fun row => length row = 26%nat
                        /\ Forall (fun v => 0 <= v <= 1) row) fb.
Proof.
  intros Hlo Hlim _ Hfb.
  set (self := Mfcc.init freq_lims num_coeffs win_len time_step num_filters
                         use_power) in *.
  destruct (filter_bank_shape _ _ _ Hfb) as [Lfb Hrows].
  split; [exact Lfb|].
  apply Forall_forall. intros row Hrow.
  rewrite Forall_forall in Hrows. pose proof (Hrows row Hrow) as Lrow.
  split; [exact Lrow|].
  destruct (In_nth _ _ [] Hrow) as (b & Hb & <-).
  apply Forall_forall. intros v Hv.
  destruct (In_nth _ _ 0 Hv) as (i & Hi & <-).
  rewrite Lrow in Hi. rewrite Lfb in Hb.
  rewrite (filter_bank_entry _ _ _ Hfb Hb Hi).
  apply triangle_range; apply binfreqs_increasing; auto;
    change (Mfcc._num_filters self) with 26%nat in *; lia.
Qed.

Lemma example_filter_bank :
  Mfcc.filter_bank example_mfcc 16000 2 = Ok example_fbank.
Proof.
  rewrite filter_bank_ok.
  - replace (IZR 2 / 2 + 1) with (IZR 2) by lra. now rewrite Rtrunc_IZR.
  - replace (IZR 2 / 2 + 1) with (IZR 2) by lra. rewrite Rtrunc_IZR. lia.
Qed.

Lemma filter_bank_shape_and_range_witness :
  length example_fbank = Z.to_nat (Rtrunc (IZR 2 / 2 + 1))
  /\ Forall (fun row => length row = 26%nat
                        /\ Forall (fun v => 0 <= v <= 1) row) example_fbank.
Proof.
  apply (@filter_bank_shape_and_range (80, 7800) 12 0.025 0.01 20 false
           16000 2 example_fbank).
  - simpl. lra.
  - simpl. lra.
  - lia.
  - apply example_filter_bank.
Defined.

(** X22. Each filter of the bank is a triangle over three consecutive band
    edges: for limits [-700 < fmin < fmax], the weight of filter [i] at a
    transform frequency is 0 when the frequency is at or below
    [binfreqs[i]] or at or above [binfreqs[i+2]], and 1 when the frequency
    is [binfreqs[i+1]]. *)
Theorem filter_bank_triangles
        (self : Mfcc.Mfcc) (sr : R) (nfft : Z) (fb : list (list R))
        (b i : nat) :
  -700 < fst (Mfcc._freq_lims self) ->
  fst (Mfcc._freq_lims self) < snd (Mfcc._freq_lims self) ->
  Mfcc.filter_bank self sr nfft = Ok fb ->
  (b < Z.to_nat (Rtrunc (IZR nfft / 2 + 1)))%nat ->
  (i < Mfcc._num_filters self)%nat ->
  let f := nth b (Mfcc.fftfreqs sr nfft) 0 in
  let v := nth i (nth b fb []) 0 in
  (f <= nth i (Mfcc.binfreqs self) 0 \/ nth (i + 2) (Mfcc.binfreqs self) 0 <= f
   -> v = 0)
  /\ (f = nth (i + 1) (Mfcc.binfreqs self) 0 -> v = 1).
Proof.
  intros Hlo Hlim Hfb Hb Hi f v. unfold v, f.
  rewrite (filter_bank_entry _ _ _ Hfb Hb Hi).
  assert (H1 : nth i (Mfcc.binfreqs self) 0 < nth (i + 1) (Mfcc.binfreqs self) 0)
    by (apply binfreqs_increasing; auto; lia).
  assert (H2 : nth (i + 1) (Mfcc.binfreqs self) 0
               < nth (i + 2) (Mfcc.binfreqs self) 0)
    by (apply binfreqs_increasing; auto; lia).
  split.
  - intros Hout. now apply triangle_outside.
  - intros ->. now apply triangle_peak.
Qed.

Lemma filter_bank_triangles_witness :
  let f := nth 0 (Mfcc.fftfreqs 16000 2) 0 in
  let v := nth 0 (nth 0 example_fbank []) 0 in
  (f <= nth 0 (Mfcc.binfreqs example_mfcc) 0
   \/ nth (0 + 2) (Mfcc.binfreqs example_mfcc) 0 <= f -> v = 0)
  /\ (f = nth (0 + 1) (Mfcc.binfreqs example_mfcc) 0 -> v = 1).
Proof.
  apply (@filter_bank_triangles example_mfcc 16000 2 example_fbank 0 0).
  - simpl. lra.
  - simpl. lra.
  - apply example_filter_bank.
  - replace (IZR 2 / 2 + 1) with (IZR 2) by lra. rewrite Rtrunc_IZR. simpl. lia.
  - simpl. lia.
Defined.

Local Close Scope R_scope.

(** ** The cepstrum of a flat spectrum *)

Local Open Scope R_scope.

Lemma cos_odd_telescope (al : R) (m : nat) :
  2 * sin al * Rsum_n m (fun j => cos (INR (2 * j + 1) * al))
  = sin (INR (2 * m) * al).
Proof.
  induction m as [|m IH].
  - cbn [Rsum_n Nat.mul INR]. rewrite Rmult_0_l, sin_0. ring.
  - cbn [Rsum_n]. rewrite Rmult_plus_distr_l, IH.
    assert (E1 : INR (2 * m + 1) = 2 * INR m + 1)
      by (rewrite plus_INR, mult_INR; simpl; ring).
    assert (E2 : INR (2 * m) = 2 * INR m) by (rewrite mult_INR; simpl; ring).
    assert (E3 : INR (2 * S m) = 2 * INR m + 2)
      by (rewrite mult_INR, (S_INR m); change (INR 2) with (1 + 1); ring).
    rewrite E1, E2, E3.
    set (x := (2 * INR m + 1) * al).
    replace (2 * INR m * al) with (x - al) by (unfold x; ring).
    replace ((2 * INR m + 2) * al) with (x + al) by (unfold x; ring).
    rewrite sin_minus, sin_plus. ring.
Qed.

Lemma cos_odd_sum (n i : nat) :
  (1 <= i)%nat -> (i < n)%nat ->
  Rsum_n n (fun j => cos (INR i * INR (2 * j + 1) / (2 * INR n) * PI)) = 0.
Proof.
  intros Hi Hin.
  assert (Hn : 0 < INR n) by (apply lt_0_INR; lia).
  assert (Hi0 : 0 < INR i) by (apply lt_0_INR; lia).
  assert (Hlt : INR i < INR n) by (apply lt_INR; exact Hin).
  assert (Hpi := PI_RGT_0).
  set (al := INR i * PI / (2 * INR n)).
  rewrite (@Rsum_n_ext n _ (fun j => cos (INR (2 * j + 1) * al)))
    by (intros j _; f_equal; unfold al; field; lra).
  pose proof (cos_odd_telescope al n) as H.
  assert (Hs : sin (INR (2 * n) * al) = 0).
  { apply sin_eq_0_1. exists (Z.of_nat i).
    rewrite <- INR_IZR_INZ, mult_INR. unfold al. simpl. field. lra. }
  rewrite Hs in H.
  assert (Hal : 0 < al < PI).
  { unfold al. split.
    - apply Rdiv_lt_0_compat; nra.
    - apply Rmult_lt_reg_r with (2 * INR n); [lra|].
      unfold Rdiv. rewrite Rmult_assoc, Rinv_l by lra. nra. }
  assert (Hsin : 0 < sin al) by (apply sin_gt_0; lra).
  apply Rmult_integral in H. destruct H as [H|H]; [lra|exact H].
Qed.

Lemma Rsum_n_const (n : nat) (c : R) : Rsum_n n (fun _ => c) = INR n * c.
Proof.
  induction n as [|n IH]; [simpl; ring|].
  cbn [Rsum_n]. rewrite IH, S_INR. ring.
Qed.

Lemma nth_repeat_lt {A} (x d : A) (n j : nat) :
  (j < n)%nat -> nth j (repeat x n) d = x.
Proof.
  revert j. induction n as [|n IH]; intros [|j] Hj; simpl; try lia; auto.
  apply IH. lia.
Qed.

Lemma dct_spectrum_nth (spec : list R) (i : nat) :
  (i < length spec)%nat ->
  nth i (dct_spectrum spec) 0
  = Rsum_n (length spec)
      (fun j => cos (INR i * INR (2 * j + 1) / (2 * INR (length spec)) * PI)
                * sqrt (2 / INR (length spec)) * 0.230258509299405
                * (10 * log10 (nth j spec 0 + spacing_1))).
Proof.
  intros Hi. unfold dct_spectrum, dot_mv. cbv zeta. rewrite map_map.
  rewrite nth_map_seq by exact Hi. rewrite length_map.
  apply Rsum_n_ext. intros j Hj. unfold dctm_row. rewrite map_map.
  rewrite nth_map_seq by exact Hj. f_equal.
  rewrite (nth_indep _ 0 (10 * log10 (0 + spacing_1)))
    by (rewrite length_map; exact Hj).
  apply (map_nth (fun s => 10 * log10 (s + spacing_1))).
Qed.

Lemma length_dct_spectrum (spec : list R) :
  length (dct_spectrum spec) = length spec.
Proof.
  unfold dct_spectrum, dot_mv. now rewrite !length_map, length_seq.
Qed.

(** X23. On a flat spectrum of [n >= 1] equal values [c >= 0],
    [dct_spectrum] returns [n] coefficients of which only the first can be
    non-zero: it is
    [n * sqrt(2/n) * 0.230258509299405 * 10*log10(c + spacing(1))], the
    argument of the logarithm being positive, and the coefficients
    [1..n-1] are zero. *)
Theorem dct_spectrum_flat (c : R) (n : nat) :
  0 <= c ->
  (1 <= n)%nat ->
  length (dct_spectrum (repeat c n)) = n
  /\ nth 0 (dct_spectrum (repeat c n)) 0
     = INR n * (sqrt (2 / INR n) * 0.230258509299405
                * (10 * log10 (c + spacing_1)))
  /\ 0 < c + spacing_1
  /\ forall i, (1 <= i)%nat -> (i < n)%nat ->
       nth i (dct_spectrum (repeat c n)) 0 = 0.
Proof.
  intros Hc Hn.
  assert (L : length (repeat c n) = n) by apply repeat_length.
  assert (Hsp : 0 < spacing_1)
    by (unfold spacing_1; apply Rinv_0_lt_compat, pow_lt; lra).
  split; [now rewrite length_dct_spectrum|]. split; [|split; [lra|]].
  - rewrite dct_spectrum_nth by (rewrite L; lia). rewrite L.
    rewrite (@Rsum_n_ext n _
               (fun _ => sqrt (2 / INR n) * 0.230258509299405
                         * (10 * log10 (c + spacing_1)))).
    + apply Rsum_n_const.
    + intros j Hj. rewrite nth_repeat_lt by exact Hj.
      cbn [INR]. unfold Rdiv. rewrite !Rmult_0_l, cos_0. ring.
  - intros i Hi Hin.
    rewrite dct_spectrum_nth by (rewrite L; lia). rewrite L.
    rewrite (@Rsum_n_ext n _
               (fun j => sqrt (2 / INR n) * 0.230258509299405
                         * (10 * log10 (c + spacing_1))
                         * cos (INR i * INR (2 * j + 1) / (2 * INR n) * PI))).
    + rewrite Rsum_n_scal, cos_odd_sum by assumption. ring.
    + intros j Hj. rewrite nth_repeat_lt by exact Hj. ring.
Qed.

Lemma dct_spectrum_flat_witness :
  length (dct_spectrum (repeat 1 26)) = 26%nat
  /\ nth 0 (dct_spectrum (repeat 1 26)) 0
     = INR 26 * (sqrt (2 / INR 26) * 0.230258509299405
                 * (10 * log10 (1 + spacing_1)))
  /\ 0 < 1 + spacing_1
  /\ forall i, (1 <= i)%nat -> (i < 26)%nat ->
       nth i (dct_spectrum (repeat 1 26)) 0 = 0.
Proof.
  apply (@dct_spectrum_flat 1 26); [lra|lia].
Defined.

Local Close Scope R_scope.

(** ** The shape of the coefficients [Mfcc.process] stores *)

Local Open Scope R_scope.

Lemma nfft_nbins (n : nat) :
  Rtrunc (IZR ((Z.of_nat n - 1) * 2) / 2 + 1) = Z.of_nat n.
Proof.
  replace (IZR ((Z.of_nat n - 1) * 2) / 2 + 1) with (IZR (Z.of_nat n))
    by (rewrite mult_IZR, minus_IZR; field).
  apply Rtrunc_IZR.
Qed.

Lemma dot_vm_ok (ncols : nat) (v : list R) (m : list (list R)) :
  length v = length m ->
  exists l, dot_vm ncols v m = Ok l /\ length l = ncols.
Proof.
  intros H. unfold dot_vm. rewrite H, Nat.eqb_refl.
  eexists. split; [reflexivity|]. now rewrite length_map, length_seq.
Qed.

Lemma length_np_diag (d : list R) : length (np_diag d) = length d.
Proof. unfold np_diag. now rewrite length_map, length_seq. Qed.

Lemma length_lift_weights (n : nat) : length (Mfcc.lift_weights n) = n.
Proof. unfold Mfcc.lift_weights. now rewrite length_map, length_seq. Qed.

Lemma mfcc_process_frame_shape (self : Mfcc.Mfcc) (fb : list (list R))
      (frame : list R) :
  length frame = length fb ->
  let avail := if Mfcc._use_power self
               then Mfcc._num_filters self
               else (Mfcc._num_filters self - 1)%nat in
  ((Mfcc._num_coeffs self <= avail)%nat ->
   exists row, Mfcc.process_frame self fb frame = Ok row
               /\ length row = Mfcc._num_coeffs self)
  /\ ((avail < Mfcc._num_coeffs self)%nat -> avail <> 1%nat ->
      exists msg, Mfcc.process_frame self fb frame = Raise (ValueError msg)).
Proof.
  intros Hlen avail. unfold Mfcc.process_frame. cbv zeta.
  destruct (@dot_vm_ok (Mfcc._num_filters self) (map sqrt frame) fb)
    as (fs & -> & Lfs); [now rewrite length_map|].
  cbn [rbind].
  destruct (@dot_vm_ok (Mfcc._num_filters self)
              (dct_spectrum (map (fun v => v ^ 2) fs))
              (np_diag (Mfcc.lift_weights (Mfcc._num_filters self))))
    as (ds & -> & Lds).
  { now rewrite length_dct_spectrum, length_map, length_np_diag,
      length_lift_weights. }
  cbn [rbind].
  set (out := if Mfcc._use_power self then ds else tl ds).
  assert (Lout : length out = avail).
  { unfold out, avail. destruct (Mfcc._use_power self); [exact Lds|].
    rewrite length_tl. now rewrite Lds. }
  unfold assign_row_float. rewrite length_firstn, Lout. split.
  - intros Hle. rewrite Nat.min_l by exact Hle. rewrite Nat.eqb_refl.
    eexists. split; [reflexivity|]. rewrite length_firstn. lia.
  - intros Hlt H1. rewrite Nat.min_r by lia.
    replace (avail =? Mfcc._num_coeffs self)%nat with false
      by (symmetry; apply Nat.eqb_neq; lia).
    replace (avail =? 1)%nat with false by (symmetry; apply Nat.eqb_neq; lia).
    eauto.
Qed.

Lemma mfcc_process_frames_shape (self : Mfcc.Mfcc) (fb : list (list R))
      (pspec : list (list R)) :
  Forall (fun frame => length frame = length fb) pspec ->
  (Mfcc._num_coeffs self
   <= if Mfcc._use_power self
      then Mfcc._num_filters self
      else Mfcc._num_filters self - 1)%nat ->
  exists rows, Mfcc.process_frames self fb pspec = Ok rows
               /\ length rows = length pspec
               /\ Forall (fun row => length row = Mfcc._num_coeffs self) rows.
Proof.
  intros Hspec Hle. induction Hspec as [|frame rest Hf Hrest IH].
  - exists []. repeat split. constructor.
  - destruct IH as (rows & Hr & Ll & Hall).
    destruct (@mfcc_process_frame_shape self fb frame Hf) as [Hok _].
    destruct (Hok Hle) as (row & Hrow & Lrow).
    exists (row :: rows). cbn [Mfcc.process_frames].
    rewrite Hrow, Hr. cbn [rbind].
    repeat split; [simpl; lia|]. constructor; [exact Lrow|exact Hall].
Qed.

(** X24. For an object built by the constructor and a power spectrum of
    [nbins] columns, [process] stores one row of [num_coeffs] coefficients
    per frame when [num_coeffs] is at most 25 (26 with [use_power]); when
    more coefficients are asked for and there is at least one frame, it
    raises [ValueError], the cepstrum of 26 filters being too short for the
    row. *)
Theorem mfcc_process_shape
        (freq_lims : R * R) (num_coeffs : nat) (win_len time_step : R)
        (num_filters : nat) (use_power : bool) (sr : R) (nbins : nat)
        (pspec : list (list R)) :
  Forall (fun frame => length frame = nbins) pspec ->
  let self := Mfcc.init freq_lims num_coeffs win_len time_step num_filters
                        use_power in
  let avail := if use_power then 26%nat else 25%nat in
  ((num_coeffs <= avail)%nat ->
   exists rows, Mfcc.process self sr nbins pspec = Ok rows
                /\ length rows = length pspec
                /\ Forall (fun row => length row = num_coeffs) rows)
  /\ ((avail < num_coeffs)%nat -> pspec <> [] ->
      exists msg, Mfcc.process self sr nbins pspec = Raise (ValueError msg)).
Proof.
  intros Hspec self avail. unfold Mfcc.process.
  rewrite filter_bank_ok by (rewrite nfft_nbins; lia).
  rewrite nfft_nbins, Nat2Z.id. cbn [rbind].
  set (fb := np_transpose nbins _).
  assert (Lfb : length fb = nbins)
    by (unfold fb, np_transpose; now rewrite length_map, length_seq).
  assert (Hav : avail = if Mfcc._use_power self
                        then Mfcc._num_filters self
                        else (Mfcc._num_filters self - 1)%nat)
    by (unfold avail; cbn [Mfcc._use_power Mfcc._num_filters self Mfcc.init];
        destruct use_power; reflexivity).
  split.
  - intros Hle.
    apply (@mfcc_process_frames_shape self fb pspec).
    + rewrite Lfb. exact Hspec.
    + rewrite <- Hav. exact Hle.
  - intros Hlt Hne. destruct pspec as [|frame rest]; [contradiction|].
    pose proof (Forall_inv Hspec) as Hf. cbv beta in Hf.
    destruct (@mfcc_process_frame_shape self fb frame
                (eq_trans Hf (eq_sym Lfb))) as [_ Hbad].
    destruct Hbad as [msg Hm].
    + rewrite <- Hav. exact Hlt.
    + rewrite <- Hav. unfold avail. destruct use_power; lia.
    + exists msg. cbn [Mfcc.process_frames]. rewrite Hm. reflexivity.
Qed.

Lemma mfcc_process_shape_witness :
  let self := Mfcc.init (80, 7800) 12 0.025 0.01 20 false in
  let avail := if false then 26%nat else 25%nat in
  ((12 <= avail)%nat ->
   exists rows, Mfcc.process self 16000 2 [[1; 1]; [4; 9]] = Ok rows
                /\ length rows = length [[1; 1]; [4; 9]]
                /\ Forall (fun row => length row = 12%nat) rows)
  /\ ((avail < 12)%nat -> [[1; 1]; [4; 9]] <> [] ->
      exists msg, Mfcc.process self 16000 2 [[1; 1]; [4; 9]]
                  = Raise (ValueError msg)).
Proof.
  apply (@mfcc_process_shape (80, 7800) 12 0.025 0.01 20 false 16000 2
           [[1; 1]; [4; 9]]).
  repeat constructor.
Defined.

Local Close Scope R_scope.

(** ** What a stored coefficient is *)

Local Open Scope R_scope.

Lemma np_diag_entry (d : list R) (i j : nat) :
  (i < length d)%nat -> (j < length d)%nat ->
  nth j (nth i (np_diag d) []) 0 = if Nat.eqb i j then nth i d 0 else 0.
Proof.
  intros Hi Hj. unfold np_diag.
  rewrite nth_map_seq by exact Hi. now rewrite nth_map_seq by exact Hj.
Qed.

Lemma dot_vm_diag (v d : list R) :
  length v = length d ->
  dot_vm (length d) v (np_diag d)
  = Ok (map (fun j => nth j v 0 * nth j d 0) (seq 0 (length d))).
Proof.
  intros H. unfold dot_vm. rewrite length_np_diag, H, Nat.eqb_refl.
  f_equal. apply map_ext_in. intros j Hj. apply in_seq in Hj.
  rewrite (@Rsum_n_single (length d) j) by
    (try lia; intros k Hk Hne; rewrite np_diag_entry by lia;
     replace (Nat.eqb k j) with false by (symmetry; apply Nat.eqb_neq; lia);
     ring).
  rewrite np_diag_entry by lia. now rewrite Nat.eqb_refl.
Qed.

(** X25. In a row [Mfcc.process] stores, coefficient [j] is the cepstral
    coefficient of index [j] (with [use_power]) or [j + 1] (without: the
    first one is dropped) of the filtered spectrum, multiplied by the
    lifter weight [1 + (22/2) sin(pi n / 22)] of that same index [n]. *)
Theorem mfcc_coefficient_is_liftered_cepstrum
        (self : Mfcc.Mfcc) (fb : list (list R)) (frame row : list R)
        (j : nat) :
  length frame = length fb ->
  Mfcc.process_frame self fb frame = Ok row ->
  let n := if Mfcc._use_power self then j else (j + 1)%nat in
  (j < Mfcc._num_coeffs self)%nat -> (n < Mfcc._num_filters self)%nat ->
  exists fs,
    dot_vm (Mfcc._num_filters self) (map sqrt frame) fb = Ok fs
    /\ nth j row 0
       = nth n (dct_spectrum (map (fun v => v ^ 2) fs)) 0
         * (1 + 22 / 2 * sin (PI * INR n / 22)).
Proof.
  intros Hlen Hrun n Hj Hn. unfold Mfcc.process_frame in Hrun.
  cbv zeta in Hrun.
  destruct (@dot_vm_ok (Mfcc._num_filters self) (map sqrt frame) fb)
    as (fs & Hfs & Lfs); [now rewrite length_map|].
  rewrite Hfs in Hrun. cbn [rbind] in Hrun.
  exists fs. split; [exact Hfs|].
  set (cep := dct_spectrum (map (fun v => v ^ 2) fs)) in *.
  assert (Lcep : length cep = Mfcc._num_filters self)
    by (unfold cep; now rewrite length_dct_spectrum, length_map).
  pose proof (@dot_vm_diag cep (Mfcc.lift_weights (Mfcc._num_filters self)))
    as Hd.
  rewrite length_lift_weights in Hd. rewrite (Hd Lcep) in Hrun.
  cbn [rbind] in Hrun. clear Hd.
  set (ds := map _ (seq 0 (Mfcc._num_filters self))) in Hrun.
  assert (Hds : forall m, (m < Mfcc._num_filters self)%nat ->
                nth m ds 0 = nth m cep 0 * (1 + 22 / 2 * sin (PI * INR m / 22))).
  { intros m Hm. unfold ds. rewrite nth_map_seq by exact Hm. f_equal.
    unfold Mfcc.lift_weights. now rewrite nth_map_seq by exact Hm. }
  assert (Lds : length ds = Mfcc._num_filters self)
    by (unfold ds; now rewrite length_map, length_seq).
  set (out := if Mfcc._use_power self then ds else tl ds) in Hrun.
  assert (Hout : nth j out 0 = nth n ds 0).
  { unfold out, n. destruct (Mfcc._use_power self); [reflexivity|].
    rewrite nth_tl. f_equal. lia. }
  assert (Lout : (j < length out)%nat).
  { unfold out, n in *. destruct (Mfcc._use_power self);
      rewrite ?length_tl, Lds; lia. }
  unfold assign_row_float in Hrun. rewrite length_firstn in Hrun.
  destruct (Nat.eqb_spec (Nat.min (Mfcc._num_coeffs self) (length out))
                         (Mfcc._num_coeffs self)) as [E|E].
  - injection Hrun as <-. rewrite nth_firstn.
    replace (j <? Mfcc._num_coeffs self)%nat with true
      by (symmetry; apply Nat.ltb_lt; exact Hj).
    rewrite Hout. now apply Hds.
  - destruct (Nat.eqb_spec (Nat.min (Mfcc._num_coeffs self) (length out)) 1)
      as [E1|E1]; [|discriminate].
    injection Hrun as <-.
    assert (j = 0)%nat by lia. subst j.
    rewrite nth_repeat_lt by lia.
    assert (Hh : hd 0 (firstn (Mfcc._num_coeffs self) out) = nth 0 out 0).
    { destruct out as [|x out']; [simpl in Lout; lia|].
      destruct (Mfcc._num_coeffs self); [lia|reflexivity]. }
    rewrite Hh, Hout. now apply Hds.
Qed.

Lemma example_process_frame :
  Mfcc.process_frame example_mfcc example_fbank [1; 1] = Ok example_row.
Proof.
  unfold example_row.
  destruct (@mfcc_process_frame_shape example_mfcc example_fbank [1; 1]
              eq_refl) as [Hok _].
  destruct Hok as (row & -> & _); [simpl; lia|reflexivity].
Qed.

Lemma mfcc_coefficient_is_liftered_cepstrum_witness :
  exists fs,
    dot_vm (Mfcc._num_filters example_mfcc) (map sqrt [1; 1]) example_fbank
    = Ok fs
    /\ nth 0 example_row 0
       = nth 1 (dct_spectrum (map (fun v => v ^ 2) fs)) 0
         * (1 + 22 / 2 * sin (PI * INR 1 / 22)).
Proof.
  apply (@mfcc_coefficient_is_liftered_cepstrum example_mfcc example_fbank
           [1; 1] example_row 0 eq_refl example_process_frame).
  - simpl. lia.
  - simpl. lia.
Defined.

Local Close Scope R_scope.

(** ** The first reflection coefficient of [lpc] *)

Local Open Scope R_scope.

(** X26. When [lpc] returns for an order of at least 1, the first
    reflection coefficient it returns lies between -1 and 1, and it is
    minus the lag 1 autocorrelation of the frame divided by its lag 0
    autocorrelation. *)
Theorem lpc_first_reflection_bounded
        (g : garbage R) (X : list R) (order : nat)
        (a : list R) (e : R) (k : list R) :
  run_lpc g X order = Ok (a, e, k) ->
  (1 <= order)%nat ->
  nth 0 k 0 = - acorr_biased X 1 / acorr_biased X 0
  /\ -1 <= nth 0 k 0 <= 1.
Proof.
  intros Hrun Ho. rewrite run_lpc_outcome in Hrun.
  destruct (length X <? order)%nat; [discriminate|].
  destruct (levinson_check (acorr_lpc_values X) order) as [msg|] eqn:E;
    [discriminate|].
  injection Hrun as Hs. apply levinson_check_None in E.
  assert (HN : (2 <= length X)%nat).
  { destruct (le_lt_dec 2 (length X)) as [|Hlt]; [assumption|].
    destruct E as [E _].
    rewrite (length_acorr_lpc_values_short _ Hlt) in E. lia. }
  pose proof (@spec_levinson_first_reflection _ _ (acorr_lpc_values X) order Ho)
    as Hk.
  rewrite Hs in Hk. cbn [snd s_div s_neg s_zero Scalar_R] in Hk.
  assert (Hk0 : nth 0 k 0 = - nth 1 (acorr_lpc_values X) 0
                            / nth 0 (acorr_lpc_values X) 0).
  { destruct k as [|k0 k']; [discriminate|]. now injection Hk as ->. }
  destruct (@acorr_lpc_values_dominated X HN) as (Hpos & Hdom).
  pose proof (levinson_pre_nonzero E) as Hnz.
  specialize (Hdom 1%nat).
  assert (Hdom' : - nth 0 (acorr_lpc_values X) 0
                  <= nth 1 (acorr_lpc_values X) 0
                  <= nth 0 (acorr_lpc_values X) 0)
    by (unfold Rabs in Hdom; destruct (Rcase_abs _) in Hdom; lra).
  assert (L := @length_acorr_lpc_values X HN).
  split.
  - rewrite Hk0. now rewrite !acorr_lpc_values_nth by lia.
  - rewrite Hk0. set (r0 := nth 0 (acorr_lpc_values X) 0) in *.
    set (r1 := nth 1 (acorr_lpc_values X) 0) in *.
    assert (Hr0 : 0 < r0) by lra.
    split.
    + apply Rmult_le_reg_r with r0; [exact Hr0|].
      unfold Rdiv. rewrite Rmult_assoc, Rinv_l by lra. lra.
    + apply Rdiv_le_1; lra.
Qed.

Lemma lpc_first_reflection_bounded_witness :
  nth 0 [1 / 2] 0 = - acorr_biased [1; -1] 1 / acorr_biased [1; -1] 0
  /\ -1 <= nth 0 [1 / 2] 0 <= 1.
Proof.
  apply (@lpc_first_reflection_bounded zero_garbage [1; -1] 1
           [1; 1 / 2] (3 / 4) [1 / 2]).
  - apply example_lpc_order1.
  - lia.
Defined.

Local Close Scope R_scope.

(** ** Neighbouring filters and the lifter *)

Local Open Scope R_scope.

Lemma Rdiv_ge_1 (x d : R) : 0 < d -> d <= x -> 1 <= x / d.
Proof.
  intros Hd Hx. apply Rmult_le_reg_r with d; [exact Hd|].
  unfold Rdiv. rewrite Rmult_assoc, Rinv_l by lra. lra.
Qed.

Lemma Rdiv_nonneg (x d : R) : 0 < d -> 0 <= x -> 0 <= x / d.
Proof.
  intros Hd Hx. apply Rmult_le_reg_r with d; [exact Hd|].
  unfold Rdiv. rewrite Rmult_assoc, Rinv_l by lra. lra.
Qed.

Lemma triangle_falling (a b c f : R) :
  a < b -> b < c -> b <= f <= c ->
  Mfcc.triangle a b c f = (c - f) / (c - b).
Proof.
  intros Hab Hbc Hf. rewrite triangle_unfold.
  assert (H1 : 1 <= (f - a) / (b - a)) by (apply Rdiv_ge_1; lra).
  assert (H2 : (c - f) / (c - b) <= 1) by (apply Rdiv_le_1; lra).
  assert (H3 : 0 <= (c - f) / (c - b)) by (apply Rdiv_nonneg; lra).
  rewrite Rmin_right by lra. now apply Rmax_right.
Qed.

Lemma triangle_rising (a b c f : R) :
  a < b -> b < c -> a <= f <= b ->
  Mfcc.triangle a b c f = (f - a) / (b - a).
Proof.
  intros Hab Hbc Hf. rewrite triangle_unfold.
  assert (H1 : 1 <= (c - f) / (c - b)) by (apply Rdiv_ge_1; lra).
  assert (H2 : (f - a) / (b - a) <= 1) by (apply Rdiv_le_1; lra).
  assert (H3 : 0 <= (f - a) / (b - a)) by (apply Rdiv_nonneg; lra).
  rewrite Rmin_left by lra. now apply Rmax_right.
Qed.

(** X27. Between the centres of two neighbouring filters the bank is a
    partition of unity: for limits [-700 < fmin < fmax] and a transform
    frequency between [binfreqs[i+1]] and [binfreqs[i+2]], the weights of
    the filters [i] and [i+1] at that frequency add up to 1. *)
Theorem filter_bank_neighbours_sum_to_one
        (self : Mfcc.Mfcc) (sr : R) (nfft : Z) (fb : list (list R))
        (b i : nat) :
  -700 < fst (Mfcc._freq_lims self) ->
  fst (Mfcc._freq_lims self) < snd (Mfcc._freq_lims self) ->
  Mfcc.filter_bank self sr nfft = Ok fb ->
  (b < Z.to_nat (Rtrunc (IZR nfft / 2 + 1)))%nat ->
  (i + 1 < Mfcc._num_filters self)%nat ->
  nth (i + 1) (Mfcc.binfreqs self) 0 <= nth b (Mfcc.fftfreqs sr nfft) 0
  <= nth (i + 2) (Mfcc.binfreqs self) 0 ->
  nth i (nth b fb []) 0 + nth (i + 1) (nth b fb []) 0 = 1.
Proof.
  intros Hlo Hlim Hfb Hb Hi Hf.
  rewrite (@filter_bank_entry self sr nfft fb b i Hfb Hb) by lia.
  rewrite (@filter_bank_entry self sr nfft fb b (i + 1) Hfb Hb) by lia.
  replace (i + 1 + 1)%nat with (i + 2)%nat by lia.
  replace (i + 1 + 2)%nat with (i + 3)%nat by lia.
  assert (H1 : nth i (Mfcc.binfreqs self) 0 < nth (i + 1) (Mfcc.binfreqs self) 0)
    by (apply binfreqs_increasing; auto; lia).
  assert (H2 : nth (i + 1) (Mfcc.binfreqs self) 0
               < nth (i + 2) (Mfcc.binfreqs self) 0)
    by (apply binfreqs_increasing; auto; lia).
  assert (H3 : nth (i + 2) (Mfcc.binfreqs self) 0
               < nth (i + 3) (Mfcc.binfreqs self) 0)
    by (apply binfreqs_increasing; auto; lia).
  rewrite triangle_falling, triangle_rising by assumption.
  field. lra.
Qed.

Lemma example_filter_bank_on_edge :
  Mfcc.filter_bank example_mfcc example_rate 2 = Ok example_fbank_on_edge.
Proof.
  rewrite filter_bank_ok.
  - replace (IZR 2 / 2 + 1) with (IZR 2) by lra. now rewrite Rtrunc_IZR.
  - replace (IZR 2 / 2 + 1) with (IZR 2) by lra. rewrite Rtrunc_IZR. lia.
Qed.

Lemma example_frequency_on_edge :
  nth 1 (Mfcc.fftfreqs example_rate 2) 0
  = nth 25 (Mfcc.binfreqs example_mfcc) 0.
Proof.
  unfold Mfcc.fftfreqs.
  replace (IZR 2 / 2 + 1) with (IZR 2) by lra. rewrite Rtrunc_IZR.
  change (Z.to_nat 2) with 2%nat. cbn [seq map nth INR].
  unfold example_rate. field.
Qed.

Lemma filter_bank_neighbours_sum_to_one_witness :
  nth 24 (nth 1 example_fbank_on_edge []) 0
  + nth (24 + 1) (nth 1 example_fbank_on_edge []) 0 = 1.
Proof.
  apply (@filter_bank_neighbours_sum_to_one example_mfcc example_rate 2
           example_fbank_on_edge 1 24).
  - simpl. lra.
  - simpl. lra.
  - apply example_filter_bank_on_edge.
  - replace (IZR 2 / 2 + 1) with (IZR 2) by lra. rewrite Rtrunc_IZR. simpl. lia.
  - simpl. lia.
  - rewrite example_frequency_on_edge. split; [apply Rle_refl|].
    apply Rlt_le. apply binfreqs_increasing; simpl; try lra; lia.
Defined.

(** X28. The lifter weights [1 + (22/2) sin(pi n / 22)] lie between 1 and
    12 for the indices [n <= 22], with the value 12 at [n = 11], and fall
    below 1 for the indices [22 < n < 44]: with 26 filters the last three
    weights are less than 1. *)
Theorem lift_weights_range (n i : nat) :
  (i < n)%nat ->
  ((i <= 22)%nat -> 1 <= nth i (Mfcc.lift_weights n) 0 <= 12)
  /\ (i = 11%nat -> nth i (Mfcc.lift_weights n) 0 = 12)
  /\ ((22 < i)%nat -> (i < 44)%nat -> nth i (Mfcc.lift_weights n) 0 < 1).
Proof.
  intros Hi. unfold Mfcc.lift_weights. rewrite nth_map_seq by exact Hi.
  assert (Hpi := PI_RGT_0).
  assert (H0 : 0 <= INR i) by apply pos_INR.
  split; [|split].
  - intros Hle.
    assert (H22 : INR i <= 22) by (apply (le_INR i 22) in Hle; simpl in Hle; lra).
    assert (Hs : 0 <= sin (PI * INR i / 22)).
    { apply sin_ge_0.
      - apply Rdiv_nonneg; nra.
      - apply Rmult_le_reg_r with 22; [lra|].
        unfold Rdiv. rewrite Rmult_assoc, Rinv_l by lra. nra. }
    pose proof (SIN_bound (PI * INR i / 22)). lra.
  - intros ->. replace (PI * INR 11 / 22) with (PI / 2) by (simpl; field).
    rewrite sin_PI2. lra.
  - intros Hgt Hlt.
    assert (H22 : 22 < INR i)
      by (apply (lt_INR 22 i) in Hgt; simpl in Hgt; lra).
    assert (H44 : INR i < 44)
      by (apply (lt_INR i 44) in Hlt; simpl in Hlt; lra).
    assert (Hs : sin (PI * INR i / 22) < 0).
    { apply sin_lt_0.
      - apply Rmult_lt_reg_r with 22; [lra|].
        unfold Rdiv. rewrite Rmult_assoc, Rinv_l by lra. nra.
      - apply Rmult_lt_reg_r with 22; [lra|].
        unfold Rdiv. rewrite Rmult_assoc, Rinv_l by lra. nra. }
    lra.
Qed.

Lemma lift_weights_range_witness :
  ((25 <= 22)%nat -> 1 <= nth 25 (Mfcc.lift_weights 26) 0 <= 12)
  /\ (25%nat = 11%nat -> nth 25 (Mfcc.lift_weights 26) 0 = 12)
  /\ ((22 < 25)%nat -> (25 < 44)%nat -> nth 25 (Mfcc.lift_weights 26) 0 < 1).
Proof.
  apply (@lift_weights_range 26 25). lia.
Defined.

Local Close Scope R_scope.
